(** * PyAuthServer: signal dispatch and hierarchical pathfinding

  A shallow embedding of [network/signals.py] (the [Signal] registry, its
  deferred mutation queues, targeted / general dispatch, superclass
  escalation and the [CachedSignal] replay, the [SignalListener]
  interface and [SignalValue]), of
  [game_system/pathfinding/algorithm.py] (A* search, the funnel and the
  two-level path finder) and of the damage and weapon callbacks of the
  pawn of [bge_network/actors.py], with the properties of the
  specification, and further properties of the code, stated and proved
  over them. *)

From Stdlib Require Import List ZArith Lia Bool String PeanoNat Arith
  Permutation.
Import ListNotations.

Set Implicit Arguments.

(** ** Python containers *)

Module Py.

Class EqDec (A : Type) := eq_dec : forall x y : A, {x = y} + {x <> y}.

#[global] Instance nat_EqDec : EqDec nat := Nat.eq_dec.
#[global] Instance string_EqDec : EqDec string := string_dec.
#[global] Instance Z_EqDec : EqDec Z := Z.eq_dec.

#[global] Instance prod_EqDec {A B : Type} `{EqDec A} `{EqDec B} : EqDec (A * B).
Proof.
  intros [a b] [a' b'].
  destruct (eq_dec a a') as [Ha | Ha]; [ | right; congruence ].
  destruct (eq_dec b b') as [Hb | Hb]; [ left; congruence | right; congruence ].
Defined.

(** A [dict] keeps its items in insertion order: assigning to a key that is
  present keeps its position, a new key goes last, and [popitem] takes
  the item inserted last. *)
Definition dict (K V : Type) := list (K * V).

Section Dict.
Context {K V : Type} `{EqDec K}.

Fixpoint dict_get (k : K) (d : dict K V) : option V :=
  match d with
  | [] => None
  | (k', v) :: d' => if eq_dec k k' then Some v else dict_get k d'
  end.

Definition dict_mem (k : K) (d : dict K V) : bool :=
  match dict_get k d with Some _ => true | None => false end.

(** [d[k] = v] *)
Fixpoint dict_set (k : K) (v : V) (d : dict K V) : dict K V :=
  match d with
  | [] => [(k, v)]
  | (k', v') :: d' =>
      if eq_dec k k' then (k, v) :: d' else (k', v') :: dict_set k v d'
  end.

(** [d.pop(k, None)], the popped value dropped *)
Fixpoint dict_pop (k : K) (d : dict K V) : dict K V :=
  match d with
  | [] => []
  | (k', v') :: d' =>
      if eq_dec k k' then dict_pop k d' else (k', v') :: dict_pop k d'
  end.

(** [d.popitem()]: the last item and the rest; [None] on an empty dict *)
Fixpoint dict_popitem (d : dict K V) : option ((K * V) * dict K V) :=
  match d with
  | [] => None
  | kv :: d' =>
      match dict_popitem d' with
      | None => Some (kv, [])
      | Some (last, rest) => Some (last, kv :: rest)
      end
  end.

(** [d.update(other)] *)
Definition dict_update (d other : dict K V) : dict K V :=
  fold_left (fun acc kv => dict_set (fst kv) (snd kv) acc) other d.

(** The last value staged for [i] in a list of assignments. *)
Fixpoint last_assigned (i : K) (l : list (K * V)) : option V :=
  match l with
  | [] => None
  | (k, v) :: l' =>
      match last_assigned i l' with
      | Some w => Some w
      | None => if eq_dec i k then Some v else None
      end
  end.

Definition dict_values (d : dict K V) : list V := map snd d.
Definition dict_keys (d : dict K V) : list K := map fst d.
End Dict.

(** A [set] is kept as a duplicate-free list in insertion order. *)
Section PySet.
Context {A : Type} `{EqDec A}.

Fixpoint set_mem (x : A) (l : list A) : bool :=
  match l with
  | [] => false
  | y :: l' => if eq_dec x y then true else set_mem x l'
  end.

(** [s.add(x)] *)
Definition set_add (x : A) (l : list A) : list A :=
  if set_mem x l then l else l ++ [x].

(** [s.remove(x)]: [None] stands for the [KeyError] of an absent element *)
Fixpoint set_remove (x : A) (l : list A) : option (list A) :=
  match l with
  | [] => None
  | y :: l' =>
      if eq_dec x y then Some l'
      else match set_remove x l' with
           | Some r => Some (y :: r)
           | None => None
           end
  end.
End PySet.

End Py.

(** ** The signal registry and its dispatch ([network/signals.py]) *)

Module Signals.
Import Py.

(** Listener identifiers are the listener objects themselves, compared by
    identity; an object is truthy, so [Some i] is a truthy target and
    [None] is Python's [None]. *)
Definition ident := nat.

(** A signal class is [Signal] or a class derived from another signal
    class (single inheritance, so [cls.__mro__[1]] is the base). *)
Inductive SignalClass : Type :=
| Signal : SignalClass
| Derived (name : string) (base : SignalClass) : SignalClass.

Definition CachedSignal : SignalClass := Derived "CachedSignal" Signal.
Definition ReplicableRegisteredSignal : SignalClass :=
  Derived "ReplicableRegisteredSignal" CachedSignal.
Definition ReplicableUnregisteredSignal : SignalClass :=
  Derived "ReplicableUnregisteredSignal" Signal.
Definition DisconnectSignal : SignalClass := Derived "DisconnectSignal" Signal.
Definition ConnectionErrorSignal : SignalClass :=
  Derived "ConnectionErrorSignal" Signal.
Definition ConnectionSuccessSignal : SignalClass :=
  Derived "ConnectionSuccessSignal" Signal.
Definition ConnectionDeletedSignal : SignalClass :=
  Derived "ConnectionDeletedSignal" Signal.
Definition LatencyUpdatedSignal : SignalClass :=
  Derived "LatencyUpdatedSignal" Signal.

#[global] Instance SignalClass_EqDec : EqDec SignalClass.
Proof.
  intros x; induction x as [ | n b IH]; intros [ | n' b'].
  - left; reflexivity.
  - right; discriminate.
  - right; discriminate.
  - destruct (string_dec n n') as [Hn | Hn]; [ | right; congruence ].
    destruct (IH b') as [Hb | Hb]; [ left; congruence | right; congruence ].
Defined.

(** [register_type] runs on the root only: [highest_signal] is [Signal] for
    the whole hierarchy. *)
Definition highest_signal : SignalClass := Signal.

(** [cls.__mro__[1]] *)
Definition mro1 (cls : SignalClass) : option SignalClass :=
  match cls with
  | Signal => None
  | Derived _ base => Some base
  end.

(** The classes reached by escalation, nearest first ([cls] excluded). *)
Fixpoint ancestors (cls : SignalClass) : list SignalClass :=
  match cls with
  | Signal => []
  | Derived _ base => base :: ancestors base
  end.

(** Whether [invoke] and [on_subscribed] resolve to the overrides of
    [CachedSignal]: the class is [CachedSignal] or derives from it. *)
Fixpoint is_cached (cls : SignalClass) : bool :=
  match cls with
  | Signal => false
  | Derived _ base =>
      (if eq_dec cls CachedSignal then true else false) || is_cached base
  end.

(** Values passed to callbacks. *)
Inductive pyval : Type :=
| VNone
| VInt (z : Z)
| VStr (s : string)
| VObj (i : ident)
| VCls (c : SignalClass).

Definition pyargs := list pyval.
Definition pykwargs := dict string pyval.

(** A callback: the function object (named by [cb_name]), its declared
    [__annotations__['signals']] pairs [(signal_cls, is_context)], whether
    its signature has a [signal] and a [target] parameter, and what it does
    when called.  A callback body may call the four staging operations of
    the registry; what it stages may depend on the arguments it gets. *)
Inductive Callback : Type :=
| mkCallback (name : nat) (signals : list (SignalClass * bool))
    (accepts_signal accepts_target : bool)
    (body : pyargs -> pykwargs -> list Op)
with Op : Type :=
| OpSubscribe (identifier : ident) (callback : Callback)
| OpUnsubscribe (identifier : ident) (callback : Callback)
| OpSetParent (cls : SignalClass) (identifier parent_identifier : ident)
| OpRemoveParent (cls : SignalClass) (identifier parent_identifier : ident).

Definition cb_name (c : Callback) : nat :=
  match c with mkCallback n _ _ _ _ => n end.
Definition get_signals (c : Callback) : list (SignalClass * bool) :=
  match c with mkCallback _ sg _ _ _ => sg end.
Definition cb_accepts_signal (c : Callback) : bool :=
  match c with mkCallback _ _ a _ _ => a end.
Definition cb_accepts_target (c : Callback) : bool :=
  match c with mkCallback _ _ _ a _ => a end.
Definition cb_body (c : Callback) : pyargs -> pykwargs -> list Op :=
  match c with mkCallback _ _ _ _ b => b end.

(** The tuple stored per subscriber:
    [(callback, accepts_signal, accepts_target)]. *)
Definition Data : Type := (Callback * bool * bool)%type.

(** The class attributes set by [register_subtype]. *)
Record ClassState : Type := mkClassState {
  subscribers : dict ident Data;
  isolated_subscribers : dict ident Data;
  to_subscribe_global : dict ident Data;
  to_subscribe_context : dict ident Data;
  to_unsubscribe_context : list ident;
  to_unsubscribe_global : list ident;
  children : dict ident (list ident);
  to_remove_child : list (ident * ident);
  to_add_child : dict ident (list ident)
}.

Definition register_subtype : ClassState :=
  mkClassState [] [] [] [] [] [] [] [] [].

(** The live registry of a class, as opposed to its pending queues. *)
Definition live (cs : ClassState)
  : dict ident Data * dict ident Data * dict ident (list ident) :=
  (subscribers cs, isolated_subscribers cs, children cs).

(** One cached invocation: [(args, target, kwargs)]. *)
Definition CacheEntry : Type := (pyargs * option ident * pykwargs)%type.

(** One call of a callback: the class whose [invoke_signal] made it, the
    callback, the positional and the keyword arguments it got. *)
Record Call : Type := mkCall {
  call_cls : SignalClass;
  call_callback : nat;
  call_args : pyargs;
  call_kwargs : pykwargs
}.

(** A logged call, together with the registries and the caches as they
    were when the callback was entered. *)
Record Event : Type := mkEvent {
  ev_call : Call;
  ev_regs : SignalClass -> ClassState;
  ev_caches : SignalClass -> list CacheEntry
}.

(** The state of the signal system: the attributes of every class, the
    [cache] of every cached class, and the calls made so far, oldest
    first. *)
Record State : Type := mkState {
  regs : SignalClass -> ClassState;
  caches : SignalClass -> list CacheEntry;
  log : list Event
}.

Definition initial_state : State :=
  mkState (fun _ => register_subtype) (fun _ => []) [].

Definition upd {A : Type} (c : SignalClass) (v : A) (f : SignalClass -> A)
  : SignalClass -> A :=
  fun c' => if eq_dec c' c then v else f c'.

Definition set_reg (c : SignalClass) (cs : ClassState) (s : State) : State :=
  mkState (upd c cs (regs s)) (caches s) (log s).

Definition calls (l : list Event) : list Call := map ev_call l.

(** *** Attribute assignment *)

Definition with_subscribers (v : dict ident Data) (cs : ClassState) :=
  mkClassState v (isolated_subscribers cs) (to_subscribe_global cs)
    (to_subscribe_context cs) (to_unsubscribe_context cs)
    (to_unsubscribe_global cs) (children cs) (to_remove_child cs)
    (to_add_child cs).
Definition with_isolated_subscribers (v : dict ident Data) (cs : ClassState) :=
  mkClassState (subscribers cs) v (to_subscribe_global cs)
    (to_subscribe_context cs) (to_unsubscribe_context cs)
    (to_unsubscribe_global cs) (children cs) (to_remove_child cs)
    (to_add_child cs).
Definition with_to_subscribe_global (v : dict ident Data) (cs : ClassState) :=
  mkClassState (subscribers cs) (isolated_subscribers cs) v
    (to_subscribe_context cs) (to_unsubscribe_context cs)
    (to_unsubscribe_global cs) (children cs) (to_remove_child cs)
    (to_add_child cs).
Definition with_to_subscribe_context (v : dict ident Data) (cs : ClassState) :=
  mkClassState (subscribers cs) (isolated_subscribers cs)
    (to_subscribe_global cs) v (to_unsubscribe_context cs)
    (to_unsubscribe_global cs) (children cs) (to_remove_child cs)
    (to_add_child cs).
Definition with_to_unsubscribe_context (v : list ident) (cs : ClassState) :=
  mkClassState (subscribers cs) (isolated_subscribers cs)
    (to_subscribe_global cs) (to_subscribe_context cs) v
    (to_unsubscribe_global cs) (children cs) (to_remove_child cs)
    (to_add_child cs).
Definition with_to_unsubscribe_global (v : list ident) (cs : ClassState) :=
  mkClassState (subscribers cs) (isolated_subscribers cs)
    (to_subscribe_global cs) (to_subscribe_context cs)
    (to_unsubscribe_context cs) v (children cs) (to_remove_child cs)
    (to_add_child cs).
Definition with_children (v : dict ident (list ident)) (cs : ClassState) :=
  mkClassState (subscribers cs) (isolated_subscribers cs)
    (to_subscribe_global cs) (to_subscribe_context cs)
    (to_unsubscribe_context cs) (to_unsubscribe_global cs) v
    (to_remove_child cs) (to_add_child cs).
Definition with_to_remove_child (v : list (ident * ident)) (cs : ClassState) :=
  mkClassState (subscribers cs) (isolated_subscribers cs)
    (to_subscribe_global cs) (to_subscribe_context cs)
    (to_unsubscribe_context cs) (to_unsubscribe_global cs) (children cs) v
    (to_add_child cs).
Definition with_to_add_child (v : dict ident (list ident)) (cs : ClassState) :=
  mkClassState (subscribers cs) (isolated_subscribers cs)
    (to_subscribe_global cs) (to_subscribe_context cs)
    (to_unsubscribe_context cs) (to_unsubscribe_global cs) (children cs)
    (to_remove_child cs) v.

(** *** The staging operations *)

(** [cls.to_add_child[parent_identifier].add(identifier)], on a
    [defaultdict(set)] *)
Definition set_parent (cls : SignalClass) (identifier parent_identifier : ident)
  (s : State) : State :=
  let cs := regs s cls in
  let staged :=
    match dict_get parent_identifier (to_add_child cs) with
    | Some kids => kids
    | None => []
    end in
  set_reg cls
    (with_to_add_child
       (dict_set parent_identifier (set_add identifier staged) (to_add_child cs))
       cs) s.

(** [cls.to_remove_child.add((identifier, parent_identifier))] *)
Definition remove_parent (cls : SignalClass)
  (identifier parent_identifier : ident) (s : State) : State :=
  let cs := regs s cls in
  set_reg cls
    (with_to_remove_child
       (set_add (identifier, parent_identifier) (to_remove_child cs)) cs) s.

Definition subscribe (identifier : ident) (callback : Callback) (s : State)
  : State :=
  let data : Data :=
    (callback, cb_accepts_signal callback, cb_accepts_target callback) in
  fold_left
    (fun s (sig : SignalClass * bool) =>
       let (signal_cls, is_context) := sig in
       let cs := regs s signal_cls in
       if is_context
       then set_reg signal_cls
              (with_to_subscribe_context
                 (dict_set identifier data (to_subscribe_context cs)) cs) s
       else set_reg signal_cls
              (with_to_subscribe_global
                 (dict_set identifier data (to_subscribe_global cs)) cs) s)
    (get_signals callback) s.

(** One turn of the loop of [unsubscribe], for one declared
    [(signal_cls, is_context)] pair. *)
Definition unsubscribe_one (identifier : ident) (s : State)
  (sig : SignalClass * bool) : State :=
  let (signal_cls, is_context) := sig in
  let cs := regs s signal_cls in
  let s :=
    if is_context
    then set_reg signal_cls
           (with_to_unsubscribe_global
              (to_unsubscribe_global cs ++ [identifier]) cs) s
    else set_reg signal_cls
           (with_to_unsubscribe_context
              (to_unsubscribe_context cs ++ [identifier]) cs) s in
  let signal_children := children (regs s signal_cls) in
  let s :=
    match dict_get identifier signal_children with
    | Some kids =>
        fold_left (fun s child => remove_parent signal_cls child identifier s)
          kids s
    | None => s
    end in
  fold_left
    (fun s (item : ident * list ident) =>
       let (parent, next_children) := item in
       if set_mem identifier next_children
       then remove_parent signal_cls identifier parent s
       else s)
    signal_children s.

Definition unsubscribe (identifier : ident) (callback : Callback) (s : State)
  : State :=
  fold_left (unsubscribe_one identifier) (get_signals callback) s.

(** What a callback body can do. *)
Definition run_op (s : State) (o : Op) : State :=
  match o with
  | OpSubscribe identifier callback => subscribe identifier callback s
  | OpUnsubscribe identifier callback => unsubscribe identifier callback s
  | OpSetParent cls identifier parent => set_parent cls identifier parent s
  | OpRemoveParent cls identifier parent => remove_parent cls identifier parent s
  end.

Definition run_ops (ops : list Op) (s : State) : State :=
  fold_left run_op ops s.

(** *** Dispatch *)

Definition target_value (target : option ident) : pyval :=
  match target with Some i => VObj i | None => VNone end.

(** The keyword arguments [invoke_signal] builds for the callback. *)
Definition signal_args (cls : SignalClass) (target : option ident)
  (kwargs : pykwargs) (supply_signal supply_target : bool) : pykwargs :=
  let d := [] in
  let d := if supply_signal then dict_set "signal"%string (VCls cls) d else d in
  let d :=
    if supply_target then dict_set "target"%string (target_value target) d
    else d in
  dict_update d kwargs.

Definition the_call (cls : SignalClass) (args : pyargs)
  (target : option ident) (kwargs : pykwargs) (data : Data) : Call :=
  let '(callback, supply_signal, supply_target) := data in
  mkCall cls (cb_name callback) args
    (signal_args cls target kwargs supply_signal supply_target).

Definition invoke_signal (cls : SignalClass) (args : pyargs)
  (target : option ident) (kwargs : pykwargs) (callback : Callback)
  (supply_signal supply_target : bool) (s : State) : State :=
  let kw := signal_args cls target kwargs supply_signal supply_target in
  let s := mkState (regs s) (caches s)
             (log s ++ [mkEvent (mkCall cls (cb_name callback) args kw)
                          (regs s) (caches s)]) in
  run_ops (cb_body callback args kw) s.

(** [target_dict] is a reference to a live dictionary of the class, so it
    is read in the current state.  [fuel] is the recursion depth left;
    [None] is Python's [RecursionError]. *)
Fixpoint invoke_targets (fuel : nat) (cls : SignalClass)
  (target_dict : State -> dict ident Data) (args : pyargs)
  (target addressee : option ident) (kwargs : pykwargs) (s : State)
  : option State :=
  match fuel with
  | O => None
  | S fuel' =>
      let addressee :=
        match addressee with None => target | Some _ => addressee end in
      match addressee with
      | None => Some s
      | Some a =>
          let s :=
            match dict_get a (target_dict s) with
            | Some (callback, supply_signal, supply_target) =>
                invoke_signal cls args target kwargs callback supply_signal
                  supply_target s
            | None => s
            end in
          match dict_get a (children (regs s cls)) with
          | Some kids =>
              fold_left
                (fun (acc : option State) (target_child : ident) =>
                   match acc with
                   | Some s =>
                       invoke_targets fuel' cls target_dict args target
                         (Some target_child) kwargs s
                   | None => None
                   end)
                kids (Some s)
          | None => Some s
          end
      end
  end.

Definition invoke_general (cls : SignalClass) (subscriber_dict : dict ident Data)
  (args : pyargs) (target : option ident) (kwargs : pykwargs) (s : State)
  : State :=
  fold_left
    (fun s (data : Data) =>
       let '(callback, supply_signal, supply_target) := data in
       invoke_signal cls args target kwargs callback supply_signal
         supply_target s)
    (dict_values subscriber_dict) s.

Definition cache_append (cls : SignalClass) (e : CacheEntry) (s : State)
  : State :=
  mkState (regs s) (upd cls (caches s cls ++ [e]) (caches s)) (log s).

(** [Signal.invoke] and, for the classes below [CachedSignal], its
    override; [invoke_parent] is the local function.  [subscriber_data] is
    a parameter of the override only, and escalation never passes it. *)
Fixpoint invoke (fuel : nat) (cls : SignalClass) (args : pyargs)
  (subscriber_data : option (dict ident Data)) (target : option ident)
  (kwargs : pykwargs) (s : State) : option State :=
  let invoke_parent (s : State) : option State :=
    match cls with
    | Signal => Some s
    | Derived _ parent => invoke fuel parent args None target kwargs s
    end in
  if is_cached cls then
    match subscriber_data with
    | None =>
        let s := cache_append cls (args, target, kwargs) s in
        match invoke_targets fuel cls
                (fun s => isolated_subscribers (regs s cls)) args target None
                kwargs s with
        | Some s =>
            invoke_parent
              (invoke_general cls (subscribers (regs s cls)) args target
                 kwargs s)
        | None => None
        end
    | Some info =>
        invoke_parent (invoke_general cls info args target kwargs s)
    end
  else
    let targeted :=
      match target with
      | Some _ =>
          invoke_targets fuel cls (fun s => isolated_subscribers (regs s cls))
            args target None kwargs s
      | None => Some s
      end in
    match targeted with
    | Some s =>
        invoke_parent
          (invoke_general cls (subscribers (regs s cls)) args target kwargs s)
    | None => None
    end.

Definition invoke_parent (fuel : nat) (cls : SignalClass) (args : pyargs)
  (target : option ident) (kwargs : pykwargs) (s : State) : option State :=
  if eq_dec highest_signal cls then Some s
  else match mro1 cls with
       | Some parent => invoke fuel parent args None target kwargs s
       | None => Some s
       end.

(** *** Applying the staged mutations *)

(** [on_subscribed]: nothing for a plain signal class; the cache replay of
    [CachedSignal] otherwise.  The replay escalates to other classes only
    and callbacks do not invoke, so the cache of [cls] does not grow while
    the loop runs over it: the loop is over the cache as it is at the
    start. *)
Definition on_subscribed (fuel : nat) (cls : SignalClass) (is_contextual : bool)
  (subscriber : ident) (data : Data) (s : State) : option State :=
  if is_cached cls then
    if is_contextual then Some s
    else
      let subscriber_info := dict_set subscriber data [] in
      fold_left
        (fun (acc : option State) (e : CacheEntry) =>
           let '(previous_args, target, previous_kwargs) := e in
           match acc with
           | Some s =>
               invoke fuel cls previous_args (Some subscriber_info) target
                 previous_kwargs s
           | None => None
           end)
        (caches s cls) (Some s)
  else Some s.

(** The two [while ...: popitem()] loops of [update_state]: [depth] bounds
    the recursion of the dispatch a replay makes, [fuel] the turns of the
    loop. *)
Fixpoint apply_subscribes (depth fuel : nat) (cls : SignalClass)
  (is_contextual : bool) (s : State) : option State :=
  let cs := regs s cls in
  let pending :=
    if is_contextual then to_subscribe_context cs else to_subscribe_global cs in
  match dict_popitem pending with
  | None => Some s
  | Some ((identifier, data), rest) =>
      match fuel with
      | O => None
      | S fuel' =>
          let cs :=
            if is_contextual
            then with_isolated_subscribers
                   (dict_set identifier data (isolated_subscribers cs))
                   (with_to_subscribe_context rest cs)
            else with_subscribers
                   (dict_set identifier data (subscribers cs))
                   (with_to_subscribe_global rest cs) in
          match on_subscribed depth cls is_contextual identifier data
                  (set_reg cls cs s) with
          | Some s => apply_subscribes depth fuel' cls is_contextual s
          | None => None
          end
      end
  end.

Definition pop_all {V : Type} (keys : list ident) (d : dict ident V)
  : dict ident V :=
  fold_left (fun d key => dict_pop key d) keys d.

(** The loop over [to_remove_child]; [inr] carries the forest as it is
    when [children[parent]] or [remove(child)] raises [KeyError]. *)
Fixpoint remove_children (edges : list (ident * ident))
  (forest : dict ident (list ident))
  : dict ident (list ident) + dict ident (list ident) :=
  match edges with
  | [] => inl forest
  | (child, parent) :: edges' =>
      match dict_get parent forest with
      | None => inr forest
      | Some parent_children =>
          match set_remove child parent_children with
          | None => inr forest
          | Some [] => remove_children edges' (dict_pop parent forest)
          | Some remaining =>
              remove_children edges' (dict_set parent remaining forest)
          end
      end
  end.

Inductive exn : Type := KeyError.

Inductive outcome : Type :=
| Returned (s : State)
| Raised (e : exn) (s : State)
| OutOfFuel.

Definition outcome_state (o : outcome) : option State :=
  match o with
  | Returned s => Some s
  | Raised _ s => Some s
  | OutOfFuel => None
  end.

Definition update_state (fuel : nat) (cls : SignalClass) (s : State) : outcome :=
  match apply_subscribes fuel fuel cls false s with
  | None => OutOfFuel
  | Some s =>
      match apply_subscribes fuel fuel cls true s with
      | None => OutOfFuel
      | Some s =>
          let cs := regs s cls in
          let cs :=
            with_to_unsubscribe_context []
              (with_subscribers
                 (pop_all (to_unsubscribe_context cs) (subscribers cs)) cs) in
          let cs :=
            with_to_unsubscribe_global []
              (with_isolated_subscribers
                 (pop_all (to_unsubscribe_global cs) (isolated_subscribers cs))
                 cs) in
          let cs :=
            with_to_add_child []
              (with_children (dict_update (children cs) (to_add_child cs)) cs)
          in
          match remove_children (to_remove_child cs) (children cs) with
          | inl forest =>
              Returned
                (set_reg cls (with_to_remove_child [] (with_children forest cs))
                   s)
          | inr forest => Raised KeyError (set_reg cls (with_children forest cs) s)
          end
      end
  end.

(** *** The rest of the registry interface *)

(** [update_graph]: [update_state] on every registered subclass, in the
    order of [cls.subclasses.values()]; an exception of one ends the
    loop.  The registry of subclasses is filled by the metaclass and is
    taken as given. *)
Fixpoint update_graph (fuel : nat) (subclasses : list SignalClass) (s : State)
  : outcome :=
  match subclasses with
  | [] => Returned s
  | subclass :: rest =>
      match update_state fuel subclass s with
      | Returned s => update_graph fuel rest s
      | Raised e s => Raised e s
      | OutOfFuel => OutOfFuel
      end
  end.

(** *** [SignalListener] *)

(** A listener object: its identity, and the attributes of its class that
    are marked as signal callbacks, in the order [signal_callbacks] yields
    them. *)
Record SignalListener : Type := mkSignalListener {
  listener_id : ident;
  signal_callbacks : list Callback
}.

Definition register_signals (self : SignalListener) (s : State) : State :=
  fold_left (fun s callback => subscribe (listener_id self) callback s)
    (signal_callbacks self) s.

Definition unregister_signals (self : SignalListener) (s : State) : State :=
  fold_left (fun s callback => unsubscribe (listener_id self) callback s)
    (signal_callbacks self) s.

(** The loops of [register_child] over one [signal_store]. *)
Definition set_parent_for (store : SignalListener) (child parent : ident)
  (s : State) : State :=
  fold_left
    (fun s callback =>
       fold_left
         (fun s (sig : SignalClass * bool) => set_parent (fst sig) child parent s)
         (get_signals callback) s)
    (signal_callbacks store) s.

Definition register_child (self child : SignalListener)
  (signal_store : option SignalListener) (greedy : bool) (s : State) : State :=
  let signal_store :=
    match signal_store with None => self | Some store => store end in
  let s := set_parent_for signal_store (listener_id child) (listener_id self) s in
  if greedy
  then set_parent_for child (listener_id child) (listener_id self) s
  else s.

Definition remove_parent_for (store : SignalListener) (child parent : ident)
  (s : State) : State :=
  fold_left
    (fun s callback =>
       fold_left
         (fun s (sig : SignalClass * bool) =>
            remove_parent (fst sig) child parent s)
         (get_signals callback) s)
    (signal_callbacks store) s.

Definition unregister_child (self child : SignalListener)
  (signal_store : option SignalListener) (greedy : bool) (s : State) : State :=
  let signal_store :=
    match signal_store with None => self | Some store => store end in
  let s :=
    remove_parent_for signal_store (listener_id child) (listener_id self) s in
  if greedy
  then remove_parent_for child (listener_id child) (listener_id self) s
  else s.

(** *** [SignalValue] *)

Record SignalValue : Type := mkSignalValue {
  _value : pyval;
  _changed : bool;
  _single_value : bool
}.

(** [SignalValue(default, single_value)] *)
Definition new_signal_value (default : pyval) (single_value : bool)
  : SignalValue :=
  mkSignalValue default false single_value.

Definition changed (self : SignalValue) : bool := _changed self.
Definition value (self : SignalValue) : pyval := _value self.

(** The setter of [value]: [None] stands for its [ValueError]. *)
Definition set_value (v : pyval) (self : SignalValue) : option SignalValue :=
  if _single_value self && _changed self then None
  else Some (mkSignalValue v true (_single_value self)).

(** [create_getter] and [create_setter] return closures over the object;
    they are given the object as it is when they are called. *)
Definition create_getter (current : SignalValue) : pyval := value current.
Definition create_setter (v : pyval) (current : SignalValue)
  : option SignalValue :=
  set_value v current.

(** Writes made one after the other by a caller that goes on after a
    [ValueError]: the object at the end, and how many writes raised. *)
Fixpoint write_all (vs : list pyval) (self : SignalValue) : SignalValue * nat :=
  match vs with
  | [] => (self, 0)
  | v :: vs' =>
      match set_value v self with
      | Some self' => write_all vs' self'
      | None => let (final, errors) := write_all vs' self in (final, S errors)
      end
  end.

(** *** Predicates used in the statements *)

(** Whether the forest below [a] has fewer than [n] levels. *)
Fixpoint height_le (f : dict ident (list ident)) (n : nat) (a : ident) : bool :=
  match n with
  | O => false
  | S n' =>
      match dict_get a f with
      | None => true
      | Some kids => forallb (height_le f n') kids
      end
  end.

(** Whether a targeted pass of depth [fuel] over the forest [f] returns. *)
Definition targets_ok (fuel : nat) (f : dict ident (list ident))
  (target : option ident) : bool :=
  match target with
  | None => negb (Nat.eqb fuel 0)
  | Some a => height_le f fuel a
  end.

Definition same_live (s0 s : State) : Prop :=
  forall c, live (regs s c) = live (regs s0 c).

(** The callback of event [e] was entered with the live registry of [s0]. *)
Definition seen_live (s0 : State) (e : Event) : Prop :=
  forall c, live (ev_regs e c) = live (regs s0 c).

Definition frozen (s0 s : State) : Prop :=
  same_live s0 s /\
  exists new, log s = log s0 ++ new /\ Forall (seen_live s0) new.

(** [t] has the log and the caches of [s]. *)
Definition untouched (s t : State) : Prop :=
  log t = log s /\ caches t = caches s.

(** From [s] to [t] the calls [L] were made, in this order. *)
Definition logged (s t : State) (L : list Call) : Prop :=
  exists new, log t = log s ++ new /\ calls new = L.

(** The calls of the callback named [n], and the calls made by the
    dispatch of class [cls], among logged events. *)
Definition named (n : nat) (c : Call) : bool := Nat.eqb (call_callback c) n.

Definition calls_named (n : nat) (l : list Event) : list Call :=
  filter (named n) (calls l).

Definition at_class (cls : SignalClass) (c : Call) : bool :=
  if eq_dec (call_cls c) cls then true else false.

Definition calls_at (cls : SignalClass) (l : list Event) : list Call :=
  filter (at_class cls) (calls l).

(** The call a subscriber [d] of [cls] gets for the cached invocation
    [e]. *)
Definition cached_call (cls : SignalClass) (d : Data) (e : CacheEntry) : Call :=
  the_call cls (fst (fst e)) (snd (fst e)) (snd e) d.

Definition data_name (d : Data) : nat := cb_name (fst (fst d)).

(** A subscriber whose callback stages nothing. *)
Definition quiet (d : Data) : Prop :=
  forall args kw, cb_body (fst (fst d)) args kw = [].

Definition quiet_live (cs : ClassState) : Prop :=
  Forall quiet (dict_values (subscribers cs)) /\
  Forall quiet (dict_values (isolated_subscribers cs)).

(** How far a class is from [Signal]. *)
Fixpoint depth (cls : SignalClass) : nat :=
  match cls with
  | Signal => O
  | Derived _ base => S (depth base)
  end.

(** The calls a dispatch makes, read off the live registries [r] it
    starts with. *)
Fixpoint targets_calls (fuel : nat) (cls : SignalClass) (iso : dict ident Data)
  (forest : dict ident (list ident)) (args : pyargs)
  (target addressee : option ident) (kwargs : pykwargs) : list Call :=
  match fuel with
  | O => []
  | S fuel' =>
      match (match addressee with None => target | Some _ => addressee end) with
      | None => []
      | Some a =>
          match dict_get a iso with
          | Some d => [the_call cls args target kwargs d]
          | None => []
          end ++
          match dict_get a forest with
          | Some kids =>
              flat_map
                (fun k =>
                   targets_calls fuel' cls iso forest args target (Some k)
                     kwargs) kids
          | None => []
          end
      end
  end.

Definition general_calls (cls : SignalClass) (d : dict ident Data)
  (args : pyargs) (target : option ident) (kwargs : pykwargs) : list Call :=
  map (the_call cls args target kwargs) (dict_values d).

Definition own_calls (fuel : nat) (r : SignalClass -> ClassState)
  (cls : SignalClass) (args : pyargs)
  (subscriber_data : option (dict ident Data)) (target : option ident)
  (kwargs : pykwargs) : list Call :=
  let targeted :=
    targets_calls fuel cls (isolated_subscribers (r cls)) (children (r cls))
      args target None kwargs in
  let general := general_calls cls (subscribers (r cls)) args target kwargs in
  if is_cached cls then
    match subscriber_data with
    | None => targeted ++ general
    | Some info => general_calls cls info args target kwargs
    end
  else
    match target with Some _ => targeted | None => [] end ++ general.

Fixpoint invoke_calls (fuel : nat) (r : SignalClass -> ClassState)
  (cls : SignalClass) (args : pyargs)
  (subscriber_data : option (dict ident Data)) (target : option ident)
  (kwargs : pykwargs) : list Call :=
  own_calls fuel r cls args subscriber_data target kwargs ++
  match cls with
  | Signal => []
  | Derived _ base => invoke_calls fuel r base args None target kwargs
  end.

(** The caches after a dispatch of [e] that starts at [cls]; [fresh] tells
    whether [cls] itself got no [subscriber_data]. *)
Fixpoint invoke_caches (cls : SignalClass) (fresh : bool) (e : CacheEntry)
  (k : SignalClass -> list CacheEntry) : SignalClass -> list CacheEntry :=
  let k := if is_cached cls && fresh then upd cls (k cls ++ [e]) k else k in
  match cls with
  | Signal => k
  | Derived _ base => invoke_caches base true e k
  end.

(** The calls of the replay [on_subscribed] makes for a new global
    subscriber of [cls], over the cache [k]. *)
Definition replay_calls (fuel : nat) (r : SignalClass -> ClassState)
  (cls : SignalClass) (subscriber : ident) (data : Data)
  (k : list CacheEntry) : list Call :=
  if is_cached cls then
    flat_map
      (fun e : CacheEntry =>
         let '(previous_args, target, previous_kwargs) := e in
         invoke_calls fuel r cls previous_args
           (Some (dict_set subscriber data [])) target previous_kwargs)
      k
  else [].

(** The pending subscriptions of one scope, and the class attributes once
    they are all applied. *)
Definition pending_of (is_contextual : bool) (cs : ClassState)
  : dict ident Data :=
  if is_contextual then to_subscribe_context cs else to_subscribe_global cs.

Definition assign_all {V : Type} (l : list (ident * V)) (d : dict ident V)
  : dict ident V :=
  fold_left (fun acc kv => dict_set (fst kv) (snd kv) acc) l d.

Definition applied (is_contextual : bool) (cs : ClassState) : ClassState :=
  if is_contextual
  then with_isolated_subscribers
         (assign_all (rev (to_subscribe_context cs)) (isolated_subscribers cs))
         (with_to_subscribe_context [] cs)
  else with_subscribers
         (assign_all (rev (to_subscribe_global cs)) (subscribers cs))
         (with_to_subscribe_global [] cs).

(** [t] differs from [s] at most in the attributes of [cls], in the log
    and in the caches of other classes. *)
Definition agrees (cls : SignalClass) (s t : State) : Prop :=
  (forall a, a <> cls -> regs t a = regs s a) /\ caches t cls = caches s cls.

(** When the flush of [cls] replays nothing, or replays only to and past
    callbacks that stage nothing, over forests the recursion limit
    [fuel] covers. *)
Definition replay_ready (fuel : nat) (cls : SignalClass) (s : State) : Prop :=
  is_cached cls = false \/
  caches s cls = [] \/
  (Forall quiet (dict_values (to_subscribe_global (regs s cls))) /\
   Forall (fun a => quiet_live (regs s a)) (ancestors cls) /\
   Forall
     (fun e : CacheEntry =>
        forallb
          (fun a => targets_ok fuel (children (regs s a)) (snd (fst e)))
          (ancestors cls) = true)
     (caches s cls)).

(** [update_state] after its two subscription loops: the unsubscriptions
    and the child additions, then the child removals. *)
Definition after_queues (cs : ClassState) : ClassState :=
  let cs :=
    with_to_unsubscribe_context []
      (with_subscribers
         (pop_all (to_unsubscribe_context cs) (subscribers cs)) cs) in
  let cs :=
    with_to_unsubscribe_global []
      (with_isolated_subscribers
         (pop_all (to_unsubscribe_global cs) (isolated_subscribers cs)) cs) in
  with_to_add_child []
    (with_children (dict_update (children cs) (to_add_child cs)) cs).

Definition finish (cls : SignalClass) (cs : ClassState) (s : State) : outcome :=
  match remove_children (to_remove_child cs) (children cs) with
  | inl forest =>
      Returned
        (set_reg cls (with_to_remove_child [] (with_children forest cs)) s)
  | inr forest => Raised KeyError (set_reg cls (with_children forest cs) s)
  end.

(** Since [s0] the cache of [cls] has been [k], and was [k] whenever a
    callback was entered. *)
Definition cache_seen (cls : SignalClass) (k : list CacheEntry) (s0 t : State)
  : Prop :=
  caches t cls = k /\
  exists new, log t = log s0 ++ new /\ Forall (fun e => ev_caches e cls = k) new.

(** A batch of [subscribe] and [unsubscribe] calls. *)
Inductive Staged : Type :=
| StSubscribe (identifier : ident) (callback : Callback)
| StUnsubscribe (identifier : ident) (callback : Callback).

Definition stage_one (s : State) (op : Staged) : State :=
  match op with
  | StSubscribe identifier callback => subscribe identifier callback s
  | StUnsubscribe identifier callback => unsubscribe identifier callback s
  end.

Definition stage (batch : list Staged) (s : State) : State :=
  fold_left stage_one batch s.

Definition data_of (callback : Callback) : Data :=
  (callback, cb_accepts_signal callback, cb_accepts_target callback).

(** Whether a declared pair is the class [cls] in the scope [ctx]
    ([true]: contextual). *)
Definition declares (cls : SignalClass) (ctx : bool)
  (sig : SignalClass * bool) : bool :=
  (if eq_dec (fst sig) cls then true else false) && Bool.eqb (snd sig) ctx.

(** The subscriptions and the unsubscriptions a batch stages on [cls] in
    the scope [ctx], in the order of staging. *)
Definition subscribed_by (cls : SignalClass) (ctx : bool) (op : Staged)
  : list (ident * Data) :=
  match op with
  | StSubscribe i cb =>
      flat_map (fun sig => if declares cls ctx sig then [(i, data_of cb)] else [])
        (get_signals cb)
  | StUnsubscribe _ _ => []
  end.

Definition unsubscribed_by (cls : SignalClass) (ctx : bool) (op : Staged)
  : list ident :=
  match op with
  | StSubscribe _ _ => []
  | StUnsubscribe i cb =>
      flat_map (fun sig => if declares cls ctx sig then [i] else [])
        (get_signals cb)
  end.

Definition subscribed (cls : SignalClass) (ctx : bool) (batch : list Staged)
  : list (ident * Data) :=
  flat_map (subscribed_by cls ctx) batch.

Definition unsubscribed (cls : SignalClass) (ctx : bool) (batch : list Staged)
  : list ident :=
  flat_map (unsubscribed_by cls ctx) batch.

(** What a batch leaves under identifier [i], over the registry [old]: an
    unsubscription staged anywhere in the batch wins; otherwise the
    subscription staged last; otherwise what was there. *)
Definition net_effect (cls : SignalClass) (ctx : bool) (batch : list Staged)
  (old : dict ident Data) (i : ident) : option Data :=
  if set_mem i (unsubscribed cls ctx batch) then None
  else match last_assigned i (subscribed cls ctx batch) with
       | Some d => Some d
       | None => dict_get i old
       end.

(** What the registry of [cls] holds under [i], in the scope [ctx], once
    the batch is staged on [s] and flushed by one [update_state]. *)
Definition flushed_lookup (fuel : nat) (cls : SignalClass) (ctx : bool)
  (batch : list Staged) (s : State) (i : ident) : option Data :=
  match update_state fuel cls (stage batch s) with
  | Returned s' =>
      dict_get i
        (if ctx then isolated_subscribers (regs s' cls)
         else subscribers (regs s' cls))
  | _ => None
  end.

(** No identifier is staged with two different subscriber tuples. *)
Definition consistent (l : list (ident * Data)) : Prop :=
  forall i d d', In (i, d) l -> In (i, d') l -> d = d'.

(** The four subscription queues of a class. *)
Definition queues (cs : ClassState)
  : dict ident Data * dict ident Data * list ident * list ident :=
  (to_subscribe_global cs, to_subscribe_context cs, to_unsubscribe_context cs,
   to_unsubscribe_global cs).

(** Every edge of [edges] is in the forest [f]. *)
Definition edges_present (edges : list (ident * ident))
  (f : dict ident (list ident)) : Prop :=
  forall child parent,
    In (child, parent) edges ->
    exists kids, dict_get parent f = Some kids /\ In child kids.

(** Since [s], on class [c], no child addition was staged, and the child
    removals staged are distinct edges of the live forest. *)
Definition removal_inv (c : SignalClass) (s t : State) : Prop :=
  to_add_child (regs t c) = to_add_child (regs s c) /\
  NoDup (to_remove_child (regs t c)) /\
  edges_present (to_remove_child (regs t c)) (children (regs s c)).

(** The body of [invoke] over a given escalation. *)
Definition invoke_with (escalate : State -> option State) (fuel : nat)
  (cls : SignalClass) (args : pyargs)
  (subscriber_data : option (dict ident Data)) (target : option ident)
  (kwargs : pykwargs) (s : State) : option State :=
  if is_cached cls then
    match subscriber_data with
    | None =>
        let s := cache_append cls (args, target, kwargs) s in
        match invoke_targets fuel cls
                (fun s => isolated_subscribers (regs s cls)) args target None
                kwargs s with
        | Some s =>
            escalate
              (invoke_general cls (subscribers (regs s cls)) args target
                 kwargs s)
        | None => None
        end
    | Some info => escalate (invoke_general cls info args target kwargs s)
    end
  else
    let targeted :=
      match target with
      | Some _ =>
          invoke_targets fuel cls (fun s => isolated_subscribers (regs s cls))
            args target None kwargs s
      | None => Some s
      end in
    match targeted with
    | Some s =>
        escalate
          (invoke_general cls (subscribers (regs s cls)) args target kwargs s)
    | None => None
    end.

End Signals.

(** ** Pathfinding ([game_system/pathfinding/algorithm.py]) *)

Module Pathfinding.
Import Py.

Inductive exn : Type :=
| PathNotFoundException
| AlgorithmNotImplementedException
| KeyError
| IndexError.

(** What a call does: it returns, raises, or is still running when the
    fuel of the model is spent. *)
Inductive result (A : Type) : Type :=
| Ok (a : A)
| Raise (e : exn)
| OutOfFuel.
Arguments Ok {A} a.
Arguments Raise {A} e.
Arguments OutOfFuel {A}.

(** *** A* search *)

(** Nodes are objects, hashed by identity; the model names them by
    numbers, which also order the heap entries of equal [f_score]. *)
Definition node := nat.

(** The graph as the search sees it: [current.neighbours],
    [neighbour.get_g_score_from(current)] and
    [goal.get_h_score_from(neighbour)]. *)
Record Graph : Type := mkGraph {
  neighbours : node -> list node;
  get_g_score_from : node -> node -> Z;
  get_h_score_from : node -> node -> Z
}.

(** [heapq] by its contract: [heappop] returns a least entry, entries
    being compared as tuples [(f_score, node)]. *)
Definition entry := (Z * node)%type.

Definition entry_le (x y : entry) : bool :=
  (fst x <? fst y)%Z || ((fst x =? fst y)%Z && (snd x <=? snd y)).

Definition heappush (heap : list entry) (x : entry) : list entry := heap ++ [x].

Fixpoint least (x : entry) (heap : list entry) : entry :=
  match heap with
  | [] => x
  | y :: heap' => if entry_le x y then least x heap' else least y heap'
  end.

Fixpoint drop_entry (x : entry) (heap : list entry) : list entry :=
  match heap with
  | [] => []
  | y :: heap' => if eq_dec x y then heap' else y :: drop_entry x heap'
  end.

(** [None] stands for the [IndexError] of an empty heap. *)
Definition heappop (heap : list entry) : option (entry * list entry) :=
  match heap with
  | [] => None
  | x :: heap' => let m := least x heap' in Some (m, drop_entry m heap)
  end.

(** The local variables of [find_path], with the [g_score] attributes the
    search assigns; a node without one has the class attribute [0]. *)
Record Search : Type := mkSearch {
  open_set : list node;
  closed_set : list node;
  path : dict node node;
  f_scored : list entry;
  g_scores : dict node Z
}.

Definition g_score (st : Search) (n : node) : Z :=
  match dict_get n (g_scores st) with Some g => g | None => 0%Z end.

(** [reconstruct_path]: [fuel] bounds the [while node:] loop, which ends
    at a node without predecessor. *)
Fixpoint reconstruct_path (fuel : nat) (n : node) (path : dict node node)
  (acc : list node) : result (list node) :=
  match fuel with
  | O => OutOfFuel
  | S fuel' =>
      let acc := n :: acc in
      match dict_get n path with
      | Some previous => reconstruct_path fuel' previous path acc
      | None => Ok acc
      end
  end.

Section AStarAlgorithm.
Variable graph : Graph.
(** The goal test, called as [is_complete(current, goal, path)]. *)
Variable is_finished : node -> node -> dict node node -> bool.

(** One turn of [for neighbour in current.neighbours]. *)
Definition relax (goal current : node) (st : Search) (neighbour : node)
  : Search :=
  if set_mem neighbour (closed_set st) then st
  else
    let tentative_g_score :=
      (g_score st current + get_g_score_from graph neighbour current)%Z in
    if negb (set_mem neighbour (open_set st))
       || (tentative_g_score <? g_score st neighbour)%Z
    then
      mkSearch
        (if set_mem neighbour (open_set st) then open_set st
         else set_add neighbour (open_set st))
        (closed_set st)
        (dict_set neighbour current (path st))
        (heappush (f_scored st)
           ((tentative_g_score + get_h_score_from graph goal neighbour)%Z,
            neighbour))
        (dict_set neighbour tentative_g_score (g_scores st))
    else st.

(** The [while open_set:] loop. *)
Fixpoint search (fuel : nat) (goal : node) (st : Search) : result (list node) :=
  match fuel with
  | O => OutOfFuel
  | S fuel' =>
      match open_set st with
      | [] => Raise PathNotFoundException
      | _ :: _ =>
          match heappop (f_scored st) with
          | None => Raise IndexError
          | Some ((_, current), heap) =>
              match set_remove current (open_set st) with
              | None => Raise KeyError
              | Some remaining =>
                  let st :=
                    mkSearch remaining (set_add current (closed_set st))
                      (path st) heap (g_scores st) in
                  if is_finished current goal (path st)
                  then reconstruct_path fuel current (path st) []
                  else
                    search fuel' goal
                      (fold_left (relax goal current)
                         (neighbours graph current) st)
              end
          end
      end
  end.

Definition find_path (fuel : nat) (goal : node) (start : option node)
  : result (list node) :=
  let start := match start with None => goal | Some n => n end in
  search fuel goal (mkSearch [start] [] [] [(0%Z, start)] []).
End AStarAlgorithm.

(** *** The funnel *)

(** A number only ever compared with [0.0]. *)
Inductive sign : Type := Negative | Null | Positive | NotANumber.

Definition ge0 (x : sign) : bool :=
  match x with Null | Positive => true | _ => false end.
Definition gt0 (x : sign) : bool :=
  match x with Positive => true | _ => false end.
Definition le0 (x : sign) : bool :=
  match x with Null | Negative => true | _ => false end.
Definition lt0 (x : sign) : bool :=
  match x with Negative => true | _ => false end.

Section Funnel.
(** Points are [Vector]s; [point_eqb] is their [==], and
    [triangle_area_squared] (of [geometry/utilities], whose source is not
    at hand) is taken by the sign of what it returns. *)
Variable point : Type.
Variable point_eqb : point -> point -> bool.
Variable triangle_area_squared : point -> point -> point -> sign.

Record Portal : Type := mkPortal {
  left : point;
  right : point
}.

Definition EndPortal (l r : point) : Portal := mkPortal l r.

(** The funnel, with the list its apex callback appends to, and the
    loop variables of [update]. *)
Record Funnel : Type := mkFunnel {
  funnel_left : point;
  funnel_right : point;
  apex : point;
  apexes : list point;
  index : Z;
  left_index : Z;
  right_index : Z
}.

(** Modelled from the spec: [BidirectionalIterator] (of
    [game_system/iterators], whose source is not at hand) walks the
    sequence by an index that the loop body may read and assign; each turn
    of the [for] loop increments the index and takes the entry there, and
    the loop ends when there is none.  The index starts before the first
    entry. *)
Definition iterator_start : Z := (-1)%Z.

Definition iterator_next (portals : list Portal) (i : Z) : option (Portal * Z) :=
  let i := (i + 1)%Z in
  match nth_error portals (Z.to_nat i) with
  | Some portal => Some (portal, i)
  | None => None
  end.

(** The body of the [for] loop of [update], the index already
    incremented. *)
Definition update_step (portal : Portal) (f : Funnel) : Funnel :=
  let narrowed :=
    if ge0 (triangle_area_squared (apex f) (funnel_left f) (left portal)) then
      if point_eqb (apex f) (funnel_left f)
         || lt0 (triangle_area_squared (apex f) (funnel_right f) (left portal))
      then
        inl (mkFunnel (left portal) (funnel_right f) (apex f) (apexes f)
               (index f) (index f) (right_index f))
      else
        inr (mkFunnel (funnel_right f) (funnel_right f) (funnel_right f)
               (apexes f ++ [funnel_right f]) (right_index f) (left_index f)
               (right_index f))
    else inl f in
  match narrowed with
  | inr f => f
  | inl f =>
      if le0 (triangle_area_squared (apex f) (funnel_right f) (right portal))
      then
        if point_eqb (apex f) (funnel_right f)
           || gt0 (triangle_area_squared (apex f) (funnel_left f) (right portal))
        then
          mkFunnel (funnel_left f) (right portal) (apex f) (apexes f)
            (index f) (left_index f) (index f)
        else
          mkFunnel (funnel_left f) (funnel_left f) (funnel_left f)
            (apexes f ++ [funnel_left f]) (left_index f) (left_index f)
            (right_index f)
      else f
  end.

Definition with_index (i : Z) (f : Funnel) : Funnel :=
  mkFunnel (funnel_left f) (funnel_right f) (apex f) (apexes f) i
    (left_index f) (right_index f).

Fixpoint update_loop (fuel : nat) (portals : list Portal) (f : Funnel)
  : option Funnel :=
  match fuel with
  | O => None
  | S fuel' =>
      match iterator_next portals (index f) with
      | None => Some f
      | Some (portal, i) =>
          update_loop fuel' portals (update_step portal (with_index i f))
      end
  end.

(** [Funnel(apex, left, right, on_apex_changed).update(portals)], the
    callback appending to [callback_list]. *)
Definition update (fuel : nat) (apex0 left0 right0 : point)
  (callback_list : list point) (portals : list Portal) : option Funnel :=
  update_loop fuel portals
    (mkFunnel left0 right0 apex0 callback_list iterator_start iterator_start
       iterator_start).

(** Over [n] portals: since the iteration last restarted at [base] (or
    started, [base = -1]), the funnel is still the single point it
    restarted from, or both its sides were set after [base]. *)
Definition funnel_inv (n base : Z) (f : Funnel) : Prop :=
  (-1 <= base <= index f)%Z /\
  (index f < n)%Z /\
  (index f = base -> funnel_left f = apex f /\ funnel_right f = apex f) /\
  (base < index f ->
   (base < left_index f <= index f)%Z /\ (base < right_index f <= index f)%Z)%Z.

(** A bound on the turns the loop has left. *)
Definition weight (n base : Z) (f : Funnel) : Z :=
  ((n - 1 - base) * (n + 1) + (n - 1 - index f))%Z.

(** *** The funnel algorithm and the two-level path finder *)

Variable cnode : Type.
(** [source.get_portal_to(destination)] on corridor nodes. *)
Variable get_portal_to : cnode -> cnode -> Portal.

(** Modelled from the spec: [look_ahead] (of [network/iterators], whose
    source is not at hand) yields the consecutive pairs of the corridor. *)
Fixpoint look_ahead (nodes : list cnode) : list (cnode * cnode) :=
  match nodes with
  | a :: (b :: _) as rest => (a, b) :: look_ahead rest
  | _ => []
  end.

(** [FunnelAlgorithm.find_path]; its test [if funnel is None] never
    holds and is left out. *)
Definition funnel_find_path (fuel : nat) (source destination : point)
  (nodes : list cnode) : result (list point) :=
  let path := [source] in
  let portals :=
    map (fun sd => get_portal_to (fst sd) (snd sd)) (look_ahead nodes) in
  let portals := portals ++ [EndPortal destination destination] in
  match update fuel source source source path portals with
  | None => OutOfFuel
  | Some funnel => Ok (apexes funnel ++ [destination])
  end.

(** An algorithm object: its [find_path] attribute, if it has one. *)
Record LowAlgorithm : Type := mkLow {
  low_find_path : option (cnode -> cnode -> list cnode -> result (list cnode))
}.
Record HighAlgorithm : Type := mkHigh {
  high_find_path : option (point -> point -> list cnode -> result (list point))
}.

Definition FunnelAlgorithm (fuel : nat) : HighAlgorithm :=
  mkHigh (Some (funnel_find_path fuel)).

Record PathfinderAlgorithm : Type := mkPathfinder {
  low_resolution : LowAlgorithm;
  high_resolution : HighAlgorithm;
  spatial_lookup : point -> cnode
}.

(** What [PathfinderAlgorithm.find_path] returns: the corridor of the
    low-fidelity pass, or the points of the high-fidelity pass. *)
Definition pathfinder_find_path (self : PathfinderAlgorithm)
  (source destination : point) (nodes : list cnode) (low_resolution_flag : bool)
  : result (list cnode + list point) :=
  let source_node := spatial_lookup self source in
  let destination_node := spatial_lookup self destination in
  match low_find_path (low_resolution self) with
  | None => Raise AlgorithmNotImplementedException
  | Some path_finder =>
      match path_finder source_node destination_node nodes with
      | Ok low_resolution_path =>
          if low_resolution_flag then Ok (inl low_resolution_path)
          else
            match high_find_path (high_resolution self) with
            | None => Raise AlgorithmNotImplementedException
            | Some path_finder =>
                match path_finder source destination low_resolution_path with
                | Ok high_resolution_path => Ok (inr high_resolution_path)
                | Raise e => Raise e
                | OutOfFuel => OutOfFuel
                end
            end
      | Raise e => Raise e
      | OutOfFuel => OutOfFuel
      end
  end.
End Funnel.

End Pathfinding.

(** ** The pawn ([bge_network/actors.py]) *)

Module Actors.

Section Pawn.
(** Angles are floats and positions are vectors; the pawn stores and
    passes them on without computing with them.  Instigators are
    objects. *)
Variable angle : Type.
Variable vector : Type.
Variable actor : Type.

(** The weapon attachment, as far as the pawn touches it: the pitch of
    its [local_rotation] (the two other Euler angles are set to [0]), and
    the number of calls of [play_fire_effects]. *)
Record WeaponAttachment : Type := mkWeaponAttachment {
  local_rotation : angle;
  fire_effects : nat
}.

(** The attributes of a pawn that its damage and weapon callbacks read
    and assign; [health] and the flash counts are integers. *)
Record Pawn : Type := mkPawn {
  alive : bool;
  flash_count : Z;
  health : Z;
  view_pitch : angle;
  last_flash_count : Z;
  weapon_attachment : option WeaponAttachment
}.

(** [take_damage], the contextual listener of [ActorDamagedSignal], for
    damage given as an integer. *)
Definition take_damage (self : Pawn) (damage : Z) (instigator : actor)
  (hit_position momentum : vector) : Pawn :=
  mkPawn (alive self) (flash_count self)
    (Z.max (health self - damage) 0) (view_pitch self)
    (last_flash_count self) (weapon_attachment self).

Definition update_alive_status (self : Pawn) : Pawn :=
  mkPawn (0 <? health self)%Z (flash_count self) (health self)
    (view_pitch self) (last_flash_count self) (weapon_attachment self).

(** [update_weapon_attachment]; [None] stands for the [AttributeError]
    of a pawn without weapon attachment. *)
Definition update_weapon_attachment (self : Pawn) : option Pawn :=
  match weapon_attachment self with
  | None => None
  | Some attachment =>
      let '(last, effects) :=
        if negb (flash_count self =? last_flash_count self)%Z then
          let last :=
            if (flash_count self <? last_flash_count self)%Z
            then (-1)%Z
            else last_flash_count self in
          ((last + 1)%Z, S (fire_effects attachment))
        else (last_flash_count self, fire_effects attachment) in
      Some
        (mkPawn (alive self) (flash_count self) (health self)
           (view_pitch self) last
           (Some (mkWeaponAttachment (view_pitch self) effects)))
  end.

(** Damage events taken one after the other, and [k] calls of
    [update_weapon_attachment] in a row. *)
Definition take_all (hits : list (Z * actor * vector * vector)) (self : Pawn)
  : Pawn :=
  fold_left
    (fun p (hit : Z * actor * vector * vector) =>
       let '(damage, instigator, hit_position, momentum) := hit in
       take_damage p damage instigator hit_position momentum)
    hits self.

Fixpoint update_weapon_attachments (k : nat) (self : Pawn) : option Pawn :=
  match k with
  | O => Some self
  | S k' =>
      match update_weapon_attachment self with
      | Some self' => update_weapon_attachments k' self'
      | None => None
      end
  end.

(** The damage of a list of hits, and their sum. *)
Definition damage_of (hit : Z * actor * vector * vector) : Z :=
  fst (fst (fst hit)).

Definition total_damage (hits : list (Z * actor * vector * vector)) : Z :=
  fold_right (fun hit acc => (damage_of hit + acc)%Z) 0%Z hits.

(** The fire effects played so far. *)
Definition effects_played (self : Pawn) : nat :=
  match weapon_attachment self with
  | Some attachment => fire_effects attachment
  | None => O
  end.
End Pawn.

End Actors.

(** ** Further notions used to state properties of the registry *)

Module SignalSpecs.
Import Py Signals.

(** The listeners a targeted pass of depth [n] visits from [a], in the
    order of the visits: [a] itself, then the walk from each of its
    children in turn. *)
Fixpoint walk (f : dict ident (list ident)) (n : nat) (a : ident)
  : list ident :=
  match n with
  | O => []
  | S n' =>
      a :: match dict_get a f with
           | Some kids => flat_map (walk f n') kids
           | None => []
           end
  end.

(** [i] is [a] or is below [a] in the forest [f]. *)
Inductive below (f : dict ident (list ident)) : ident -> ident -> Prop :=
| below_self (a : ident) : below f a a
| below_child (a k i : ident) (kids : list ident) :
    dict_get a f = Some kids -> In k kids -> below f k i -> below f a i.

(** The call the contextual subscriber [i] of [cls] gets, if there is
    one. *)
Definition contextual_call (cls : SignalClass) (iso : dict ident Data)
  (args : pyargs) (target : option ident) (kwargs : pykwargs) (i : ident)
  : list Call :=
  match dict_get i iso with
  | Some d => [the_call cls args target kwargs d]
  | None => []
  end.

(** A removal is staged on [cls] for a parent that has no children, live
    or staged. *)
Definition dangling_removal (cls : SignalClass) (s : State) : Prop :=
  exists child parent,
    In (child, parent) (to_remove_child (regs s cls)) /\
    dict_get parent (children (regs s cls)) = None /\
    dict_get parent (to_add_child (regs s cls)) = None.

(** The registry of one scope of a class ([true]: the contextual one). *)
Definition scope (cls : SignalClass) (ctx : bool) (s : State)
  : dict ident Data :=
  if ctx then isolated_subscribers (regs s cls) else subscribers (regs s cls).

(** Whether a declared pair names the class [cls], and whether a
    listener has a callback that declares [cls]: in any scope, and in the
    scope [ctx]. *)
Definition names (cls : SignalClass) (sig : SignalClass * bool) : bool :=
  if eq_dec (fst sig) cls then true else false.

Definition listens_to (cls : SignalClass) (self : SignalListener) : bool :=
  existsb (names cls) (flat_map get_signals (signal_callbacks self)).

Definition listens_in (cls : SignalClass) (ctx : bool) (self : SignalListener)
  : bool :=
  existsb (declares cls ctx) (flat_map get_signals (signal_callbacks self)).

(** The signals declared by the callback of a staged operation. *)
Definition declared_by (op : Staged) : list (SignalClass * bool) :=
  match op with
  | StSubscribe _ cb => get_signals cb
  | StUnsubscribe _ cb => get_signals cb
  end.

(** The children staged for [parent] on [cls]: [to_add_child[parent]]
    of the [defaultdict]. *)
Definition staged_children (cls : SignalClass) (parent : ident) (s : State)
  : list ident :=
  match dict_get parent (to_add_child (regs s cls)) with
  | Some kids => kids
  | None => []
  end.

(** [c] is a child of [p] in the forest [f]. *)
Definition has_edge (f : dict ident (list ident)) (c p : ident) : Prop :=
  exists kids, dict_get p f = Some kids /\ In c kids.

(** The child sets of a forest are sets, and none is empty: a parent
    without children has no entry. *)
Definition forest_ok (f : dict ident (list ident)) : Prop :=
  forall p kids, dict_get p f = Some kids -> NoDup kids /\ kids <> [].

(** The set built by adding the elements of [l] one after the other. *)
Definition set_of (l : list ident) : list ident :=
  fold_left (fun acc x => set_add x acc) l [].

End SignalSpecs.

(** ** Further notions used to state properties of the path finders *)

Module PathSpecs.
Import Py Pathfinding.

(** Each entry of [l] but the first has the entry before it as its
    predecessor in [path]. *)
Fixpoint linked (path : dict node node) (l : list node) : Prop :=
  match l with
  | x :: ((y :: _) as rest) => dict_get y path = Some x /\ linked path rest
  | _ => True
  end.

(** Each entry of [l] but the first is a neighbour of the entry before
    it. *)
Fixpoint is_walk (graph : Graph) (l : list node) : Prop :=
  match l with
  | x :: ((y :: _) as rest) => In y (neighbours graph x) /\ is_walk graph rest
  | _ => True
  end.

(** [n] is [a] or can be reached from [a] along [neighbours]. *)
Inductive reachable (graph : Graph) (a : node) : node -> Prop :=
| reachable_self : reachable graph a a
| reachable_step (c n : node) :
    reachable graph a c -> In n (neighbours graph c) -> reachable graph a n.

(** The state [find_path] starts its loop with, over the [g_score]
    attributes [g0] the nodes carry. *)
Definition first_search (start : node) (g0 : dict node Z) : Search :=
  mkSearch [start] [] [] [(0%Z, start)] g0.

(** What the search keeps about the predecessors it records, once the
    start is closed: a recorded predecessor is closed and has the node
    among its neighbours, and every node met but the start has one. *)
Definition search_inv (graph : Graph) (start : node) (st : Search) : Prop :=
  In start (closed_set st) /\
  (forall n p,
      dict_get n (path st) = Some p ->
      In n (neighbours graph p) /\ In p (closed_set st)) /\
  (forall n,
      In n (open_set st) \/ In n (closed_set st) ->
      n = start \/ dict_get n (path st) <> None).

(** What the search keeps about the nodes it has closed, but for the
    node [current] it is expanding: a closed node failed the goal test
    and has its neighbours open or closed. *)
Definition explored (graph : Graph)
  (is_finished : node -> node -> dict node node -> bool) (goal start : node)
  (current : option node) (st : Search) : Prop :=
  (In start (open_set st) \/ In start (closed_set st)) /\
  (forall c,
      In c (closed_set st) ->
      exists path', is_finished c goal path' = false) /\
  (forall c n,
      In c (closed_set st) -> Some c <> current ->
      In n (neighbours graph c) ->
      In n (open_set st) \/ In n (closed_set st)).

(** The open set is a set, and the heap has an entry for every open
    node. *)
Definition heap_covers_open (st : Search) : Prop :=
  NoDup (open_set st) /\
  forall n, In n (open_set st) -> exists f, In (f, n) (f_scored st).

(** No node has two ways in: it is the neighbour of one node at most,
    and once. *)
Definition single_entry (graph : Graph) : Prop :=
  (forall a b n,
      In n (neighbours graph a) -> In n (neighbours graph b) -> a = b) /\
  (forall a, NoDup (neighbours graph a)).

(** The heap holds one entry for each open node and no other; an open
    node is not closed, and is the neighbour of a closed one. *)
Definition tidy (graph : Graph) (st : Search) : Prop :=
  heap_covers_open st /\
  NoDup (map snd (f_scored st)) /\
  (forall e, In e (f_scored st) -> In (snd e) (open_set st)) /\
  (forall n, In n (open_set st) -> ~ In n (closed_set st)) /\
  (forall n,
      In n (open_set st) ->
      exists p, In p (closed_set st) /\ In n (neighbours graph p)).

(** The corners of a list of portals. *)
Definition corners {point : Type} (portals : list (Portal point)) : list point :=
  flat_map (fun portal => [left portal; right portal]) portals.

(** The funnel and every apex it has reported lie in [allowed]. *)
Definition within {point : Type} (allowed : list point) (f : Funnel point)
  : Prop :=
  In (funnel_left f) allowed /\ In (funnel_right f) allowed /\
  In (apex f) allowed /\ Forall (fun p => In p allowed) (apexes f).

End PathSpecs.

(** ** Concrete registries used as examples *)

Module SignalScenarios.
Import Py Signals.

(** The state of an outcome that carries one. *)
Definition state_of (o : outcome) : State :=
  match o with
  | Returned s => s
  | Raised _ s => s
  | OutOfFuel => initial_state
  end.

(** A callback that stages nothing. *)
Definition plain_callback (name : nat) (signals : list (SignalClass * bool))
  : Callback :=
  mkCallback name signals false true (fun _ _ => []).

(** A contextual listener of [DisconnectSignal] that, when called, stages
    one mutation of every kind. *)
Definition meddling_callback : Callback :=
  mkCallback 1 [(DisconnectSignal, true)] true true
    (fun _ _ =>
       [ OpSubscribe 5 (plain_callback 2 [(DisconnectSignal, false)]);
         OpUnsubscribe 1 (plain_callback 1 [(DisconnectSignal, true)]);
         OpSetParent DisconnectSignal 6 1;
         OpRemoveParent DisconnectSignal 4 1 ]).

(** Listener [1] subscribed contextually, with child [4], and the queues
    flushed. *)
Definition meddling_state : State :=
  state_of
    (update_state 2 DisconnectSignal
       (set_parent DisconnectSignal 4 1
          (subscribe 1 meddling_callback initial_state))).

(** Parent [10] with child [11] with grandchild [12] in the forest of
    [DisconnectSignal]; only the grandchild listens, contextually. *)
Definition grandchild_callback : Callback :=
  plain_callback 3 [(DisconnectSignal, true)].

Definition family_state : State :=
  state_of
    (update_state 2 DisconnectSignal
       (set_parent DisconnectSignal 12 11
          (set_parent DisconnectSignal 11 10
             (subscribe 12 grandchild_callback initial_state)))).

(** [ReplicableRegisteredSignal] invoked twice with a listener on
    [CachedSignal] and one on [Signal]; then listener [9] subscribes
    globally to [ReplicableRegisteredSignal], not yet flushed. *)
Definition state_or (s : State) (o : option State) : State :=
  match o with Some t => t | None => s end.

Definition latecomer_callback : Callback :=
  plain_callback 3 [(ReplicableRegisteredSignal, false)].

Definition replicated_state : State :=
  let s :=
    subscribe 7 (plain_callback 1 [(Signal, false)])
      (subscribe 8 (plain_callback 2 [(CachedSignal, false)]) initial_state) in
  let s := state_of (update_state 2 Signal s) in
  let s := state_of (update_state 2 CachedSignal s) in
  let s :=
    state_or s
      (invoke 2 ReplicableRegisteredSignal [VInt 0] None None
         [("k"%string, VInt 9)] s) in
  let s :=
    state_or s
      (invoke 2 ReplicableRegisteredSignal [VInt 1] None (Some 3) [] s) in
  subscribe 9 latecomer_callback s.

(** Parent [1] with the applied child [2] on [Signal]. *)
Definition one_child_state : State :=
  state_of (update_state 1 Signal (set_parent Signal 2 1 initial_state)).

(** Two listeners methods of one object, both global listeners of
    [DisconnectSignal], subscribed in the two possible orders. *)
Definition first_callback : Callback :=
  plain_callback 1 [(DisconnectSignal, false)].
Definition second_callback : Callback :=
  plain_callback 2 [(DisconnectSignal, false)].

Definition first_then_second : list Staged :=
  [StSubscribe 1 first_callback; StSubscribe 1 second_callback].
Definition second_then_first : list Staged :=
  [StSubscribe 1 second_callback; StSubscribe 1 first_callback].

(** A mixed batch: [1] subscribes globally and unsubscribes again, [2]
    subscribes contextually, [3] globally. *)
Definition mixed_batch : list Staged :=
  [ StSubscribe 1 first_callback;
    StSubscribe 2 (plain_callback 4 [(DisconnectSignal, true)]);
    StUnsubscribe 1 first_callback;
    StSubscribe 3 second_callback ].

End SignalScenarios.

(** ** Concrete graphs and path finders used as examples *)

Module PathScenarios.
Import Py Pathfinding.

(** Four nodes: the start [0] has the neighbours [1] (cost 1), [2]
    (cost 10) and [3] (cost 20); [1] has the neighbour [2] (cost 1).  The
    heuristic is [0] everywhere.  Node [2] is pushed with [f_score] 10,
    then relaxed through [1] and pushed again with [f_score] 2. *)
Definition stale_graph : Graph :=
  mkGraph
    (fun n => match n with 0 => [1; 2; 3] | 1 => [2] | _ => [] end)
    (fun neighbour current =>
       match current, neighbour with
       | 0, 2 => 10%Z
       | 0, 3 => 20%Z
       | _, _ => 1%Z
       end)
    (fun _ _ => 0%Z).

(** Two goal tests: the node itself, and none. *)
Definition at_goal (current goal : node) (path : dict node node) : bool :=
  Nat.eqb current goal.
Definition never_finished (current goal : node) (path : dict node node) : bool :=
  false.

(** A path finder over points and corridor nodes that are numbers: the
    low-fidelity algorithm returns the two end nodes, the high-fidelity
    algorithm has no [find_path]. *)
Definition two_ends : LowAlgorithm nat :=
  mkLow (Some (fun a b (_ : list nat) => Ok [a; b])).

Definition half_configured : PathfinderAlgorithm nat nat :=
  mkPathfinder two_ends (mkHigh None) (fun p => p).

(** Points of the integer plane, and the doubled signed area of a
    triangle as the sign of a cross product. *)
Definition plane_point : Type := (Z * Z)%type.

Definition plane_eqb (a b : plane_point) : bool :=
  (fst a =? fst b)%Z && (snd a =? snd b)%Z.

Definition plane_area (a b c : plane_point) : sign :=
  let area :=
    ((fst c - fst a) * (snd b - snd a) - (fst b - fst a) * (snd c - snd a))%Z in
  match area with
  | Z0 => Null
  | Zpos _ => Positive
  | Zneg _ => Negative
  end.

(** Corridor nodes are numbers; the portal between two of them spans the
    corridor at the height of the second. *)
Definition plane_portal (a b : nat) : Portal plane_point :=
  mkPortal (0%Z, Z.of_nat b) (2%Z, Z.of_nat b).

Definition plane_pathfinder (fuel : nat) : PathfinderAlgorithm plane_point nat :=
  mkPathfinder (mkLow (Some (fun a b (_ : list nat) => Ok [a; 1; 2; b])))
    (FunnelAlgorithm plane_eqb plane_area plane_portal fuel)
    (fun p => Z.to_nat (snd p)).

End PathScenarios.

(** ** Further registries used as examples *)

Module MoreScenarios.
Import Py Signals SignalScenarios.

(** Listeners [1] and [2], each registered as the child of the other. *)
Definition looped_state : State :=
  state_of
    (update_state 1 DisconnectSignal
       (set_parent DisconnectSignal 1 2
          (set_parent DisconnectSignal 2 1 initial_state))).

(** A removal staged for a parent that was never given a child, and a
    subscription pending on another class. *)
Definition blocked_state : State :=
  subscribe 7 (plain_callback 1 [(ConnectionErrorSignal, false)])
    (remove_parent DisconnectSignal 2 1 initial_state).

(** A listener with two callbacks: one global on [DisconnectSignal], one
    contextual on [DisconnectSignal] and global on
    [ConnectionErrorSignal]. *)
Definition door_listener : SignalListener :=
  mkSignalListener 5
    [ plain_callback 1 [(DisconnectSignal, false)];
      plain_callback 2 [(DisconnectSignal, true); (ConnectionErrorSignal, false)] ].

(** The same listener registered, and [DisconnectSignal] flushed. *)
Definition registered_state : State :=
  state_of
    (update_state 3 DisconnectSignal
       (register_signals door_listener initial_state)).

(** Two listeners without callbacks, to be made children. *)
Definition first_child : SignalListener := mkSignalListener 6 [].
Definition second_child : SignalListener := mkSignalListener 7 [].

(** The registered listener with [first_child] applied as its child. *)
Definition family_listener_state : State :=
  state_of
    (update_state 1 DisconnectSignal
       (register_child door_listener first_child None false registered_state)).

End MoreScenarios.

(** ** A further graph used as an example *)

Module MorePathScenarios.
Import Py Pathfinding.

(** Three nodes in a row: [0] leads to [1] and [1] to [2], at cost 1. *)
Definition chain_graph : Graph :=
  mkGraph (fun n => match n with 0 => [1] | 1 => [2] | _ => [] end)
    (fun _ _ => 1%Z) (fun _ _ => 0%Z).

End MorePathScenarios.

(** ** Properties of the signal system *)

Module SignalFacts.
Import Py Signals.

(** *** Bookkeeping lemmas *)

Lemma upd_same {A : Type} (c : SignalClass) (v : A) (f : SignalClass -> A) :
  upd c v f c = v.
Proof. unfold upd. destruct (eq_dec c c); congruence. Qed.

Lemma upd_other {A : Type} (c c' : SignalClass) (v : A) (f : SignalClass -> A) :
  c' <> c -> upd c v f c' = f c'.
Proof. unfold upd. intros Hne. destruct (eq_dec c' c); congruence. Qed.

Lemma fold_option_none {A : Type} (F : A -> State -> option State) (l : list A) :
  fold_left
    (fun (acc : option State) (x : A) =>
       match acc with Some s => F x s | None => None end) l None = None.
Proof. induction l as [ | x l IH]; simpl; auto. Qed.

Lemma fold_option_inv {A : Type} (F : A -> State -> option State)
  (P : State -> Prop) (l : list A) :
  (forall x s s', In x l -> P s -> F x s = Some s' -> P s') ->
  forall s s',
    P s ->
    fold_left
      (fun (acc : option State) (x : A) =>
         match acc with Some s => F x s | None => None end) l (Some s)
    = Some s' ->
    P s'.
Proof.
  induction l as [ | x l IH]; simpl; intros HF s s' HP Hfold.
  - congruence.
  - destruct (F x s) as [s1 | ] eqn:E.
    + apply IH with (s := s1); auto.
      * intros y t t' Hy. apply HF. now right.
      * apply HF with (x := x) (s := s); auto.
    + rewrite fold_option_none in Hfold. discriminate.
Qed.

Lemma fold_option_total {A : Type} (F : A -> State -> option State)
  (P : State -> Prop) (l : list A) :
  (forall x s, In x l -> P s -> exists s', F x s = Some s' /\ P s') ->
  forall s,
    P s ->
    exists s',
      fold_left
        (fun (acc : option State) (x : A) =>
           match acc with Some s => F x s | None => None end) l (Some s)
      = Some s' /\ P s'.
Proof.
  induction l as [ | x l IH]; simpl; intros HF s HP.
  - eauto.
  - destruct (HF x s (or_introl eq_refl) HP) as [s1 [E HP1]].
    rewrite E. apply IH; auto.
Qed.

Lemma fold_left_inv {A : Type} (f : State -> A -> State) (P : State -> Prop)
  (l : list A) :
  (forall s x, In x l -> P s -> P (f s x)) ->
  forall s, P s -> P (fold_left f l s).
Proof.
  induction l as [ | x l IH]; simpl; intros Hf s HP; [ assumption | ].
  apply IH; [ intros t y Hy; apply Hf; now right | apply Hf; auto; now left ].
Qed.

(** *** Invariants of a dispatch

    [P] is kept by [invoke] when it is kept by every call of a callback
    the dispatch can make and by the caching of an invocation; [Q] is what
    is known of the subscribers met on the way. *)

Section DispatchInvariant.
Variable P : State -> Prop.
Variable Q : Data -> Prop.
Variable C : SignalClass -> Prop.

Hypothesis P_signal :
  forall a args target kwargs cb ss st s,
    C a -> Q (cb, ss, st) -> P s ->
    P (invoke_signal a args target kwargs cb ss st s).
Hypothesis P_isolated :
  forall s a i d,
    C a -> P s -> dict_get i (isolated_subscribers (regs s a)) = Some d -> Q d.
Hypothesis P_subscribers :
  forall s a d,
    C a -> P s -> In d (dict_values (subscribers (regs s a))) -> Q d.
Hypothesis P_cache :
  forall s a e, C a -> is_cached a = true -> P s -> P (cache_append a e s).

Lemma invoke_targets_inv (fuel : nat) :
  forall a args target addressee kwargs s s',
    C a -> P s ->
    invoke_targets fuel a (fun s => isolated_subscribers (regs s a)) args
      target addressee kwargs s = Some s' ->
    P s'.
Proof.
  induction fuel as [ | fuel IH]; simpl; intros a args target addressee kwargs
    s s' Ha HP Hrun; [ discriminate | ].
  destruct (match addressee with None => target | Some _ => addressee end)
    as [addr | ]; [ | injection Hrun as <-; exact HP ].
  set (s1 := match dict_get addr (isolated_subscribers (regs s a)) with
             | Some (callback, supply_signal, supply_target) =>
                 invoke_signal a args target kwargs callback supply_signal
                   supply_target s
             | None => s
             end) in *.
  assert (HP1 : P s1).
  { subst s1. destruct (dict_get addr (isolated_subscribers (regs s a)))
      as [[[cb ss] st] | ] eqn:E; auto.
    apply P_signal; auto. eapply P_isolated; eauto. }
  clearbody s1.
  destruct (dict_get addr (children (regs s1 a))) as [kids | ];
    [ | injection Hrun as <-; exact HP1 ].
  revert Hrun. apply fold_option_inv with (P := P); auto.
  intros child t t' _ Ht Hchild. eapply IH; eauto.
Qed.

Lemma invoke_general_inv :
  forall a d args target kwargs s,
    C a -> Forall Q (dict_values d) -> P s ->
    P (invoke_general a d args target kwargs s).
Proof.
  intros a d args target kwargs s Ha HQ HP. unfold invoke_general.
  apply fold_left_inv; auto.
  intros t [[cb ss] st] Hin Ht. apply P_signal; auto.
  rewrite Forall_forall in HQ. auto.
Qed.

Lemma invoke_inv (fuel : nat) :
  forall cls args subscriber_data target kwargs s s',
    (forall a, In a (cls :: ancestors cls) -> C a) ->
    (forall d, subscriber_data = Some d -> Forall Q (dict_values d)) ->
    P s ->
    invoke fuel cls args subscriber_data target kwargs s = Some s' ->
    P s'.
Proof.
  induction cls as [ | name base IH];
    intros args sd target kwargs s s' HC Hsd HP Hrun.
  - (* Signal: not cached, no parent *)
    simpl in Hrun.
    assert (Ha : C Signal) by (apply HC; now left).
    destruct target as [t | ].
    + destruct (invoke_targets fuel Signal _ args (Some t) None kwargs s)
        as [s1 | ] eqn:E; [ | discriminate ].
      injection Hrun as <-.
      assert (HP1 : P s1) by (eapply invoke_targets_inv; eauto).
      apply invoke_general_inv; auto.
      rewrite Forall_forall. intros d Hd. eapply P_subscribers; eauto.
    + injection Hrun as <-.
      apply invoke_general_inv; auto.
      rewrite Forall_forall. intros d Hd. eapply P_subscribers; eauto.
  - assert (Ha : C (Derived name base)) by (apply HC; now left).
    assert (HCb : forall a, In a (base :: ancestors base) -> C a).
    { intros a Hin. apply HC. right. exact Hin. }
    assert (Hup : forall t t',
               P t -> invoke fuel base args None target kwargs t = Some t' ->
               P t').
    { intros t t' Ht Hinv.
      eapply IH with (subscriber_data := @None (dict ident Data));
        [ exact HCb | intros d Hd; discriminate | exact Ht | exact Hinv ]. }
    assert (Hgen : forall t, P t ->
               P (invoke_general (Derived name base)
                    (subscribers (regs t (Derived name base))) args target
                    kwargs t)).
    { intros t Ht. apply invoke_general_inv; auto.
      rewrite Forall_forall. intros d Hd. eapply P_subscribers; eauto. }
    cbn [invoke] in Hrun.
    destruct (is_cached (Derived name base)) eqn:Ecached.
    + destruct sd as [info | ].
      * eapply Hup; [ | exact Hrun ].
        apply invoke_general_inv; auto.
      * set (s0 := cache_append (Derived name base) (args, target, kwargs) s)
          in *.
        assert (HP0 : P s0) by (apply P_cache; auto).
        clearbody s0.
        destruct (invoke_targets fuel (Derived name base) _ args target None
                    kwargs s0) as [s1 | ] eqn:E; [ | discriminate ].
        eapply Hup; [ | exact Hrun ].
        apply Hgen. eapply invoke_targets_inv; eauto.
    + destruct target as [t | ].
      * destruct (invoke_targets fuel (Derived name base) _ args (Some t) None
                    kwargs s) as [s1 | ] eqn:E; [ | discriminate ].
        eapply Hup; [ | exact Hrun ].
        apply Hgen. eapply invoke_targets_inv; eauto.
      * eapply Hup; [ | exact Hrun ]. apply Hgen; auto.
Qed.

(** With the forests known and shallow enough for [fuel], the dispatch
    returns. *)

Variable forest : SignalClass -> dict ident (list ident).
Hypothesis P_children :
  forall s a, C a -> P s -> children (regs s a) = forest a.

Lemma invoke_targets_total (fuel : nat) :
  forall a args target addressee kwargs s,
    C a -> P s ->
    targets_ok fuel (forest a)
      (match addressee with None => target | Some _ => addressee end) = true ->
    exists s',
      invoke_targets fuel a (fun s => isolated_subscribers (regs s a)) args
        target addressee kwargs s = Some s' /\ P s'.
Proof.
  induction fuel as [ | fuel IH]; intros a args target addressee kwargs s Ha HP
    Hok.
  - destruct (match addressee with None => target | Some _ => addressee end);
      discriminate.
  - cbn [invoke_targets].
    destruct (match addressee with None => target | Some _ => addressee end)
      as [addr | ]; [ | eauto ].
    set (s1 := match dict_get addr (isolated_subscribers (regs s a)) with
               | Some (callback, supply_signal, supply_target) =>
                   invoke_signal a args target kwargs callback supply_signal
                     supply_target s
               | None => s
               end) in *.
    assert (HP1 : P s1).
    { subst s1. destruct (dict_get addr (isolated_subscribers (regs s a)))
        as [[[cb ss] st] | ] eqn:E; auto.
      apply P_signal; auto. eapply P_isolated; eauto. }
    clearbody s1.
    rewrite (P_children Ha HP1).
    cbn [targets_ok height_le] in Hok.
    destruct (dict_get addr (forest a)) as [kids | ]; [ | eauto ].
    rewrite forallb_forall in Hok.
    apply fold_option_total with (P := P); auto.
    intros child t Hin Ht. apply IH; auto.
    cbn [targets_ok]. apply Hok, Hin.
Qed.

Lemma invoke_total (fuel : nat) :
  forall cls args subscriber_data target kwargs s,
    (forall a, In a (cls :: ancestors cls) -> C a) ->
    (forall d, subscriber_data = Some d -> Forall Q (dict_values d)) ->
    P s ->
    ((is_cached cls = true -> subscriber_data = None) ->
     targets_ok fuel (forest cls) target = true) ->
    forallb (fun a => targets_ok fuel (forest a) target) (ancestors cls) = true ->
    exists s',
      invoke fuel cls args subscriber_data target kwargs s = Some s' /\ P s'.
Proof.
  induction cls as [ | name base IH];
    intros args sd target kwargs s HC Hsd HP Hself Hanc.
  - assert (Ha : C Signal) by (apply HC; now left).
    assert (Hgen : forall t, P t ->
               P (invoke_general Signal (subscribers (regs t Signal)) args
                    target kwargs t)).
    { intros t Ht. apply invoke_general_inv; auto.
      rewrite Forall_forall. intros d Hd. eapply P_subscribers; eauto. }
    cbn [invoke is_cached].
    destruct target as [t | ]; [ | eauto ].
    destruct (@invoke_targets_total fuel Signal args (Some t) None kwargs s)
      as [s1 [E HP1]]; auto.
    { apply Hself. cbn. discriminate. }
    rewrite E. eauto.
  - assert (Ha : C (Derived name base)) by (apply HC; now left).
    assert (HCb : forall a, In a (base :: ancestors base) -> C a).
    { intros a Hin. apply HC. right. exact Hin. }
    cbn [ancestors forallb] in Hanc. apply andb_prop in Hanc.
    destruct Hanc as [Hbase Hanc].
    assert (Hup : forall t,
               P t ->
               exists t',
                 invoke fuel base args None target kwargs t = Some t' /\ P t').
    { intros t Ht.
      apply IH; auto. intros d Hd; discriminate. }
    assert (Hgen : forall t, P t ->
               P (invoke_general (Derived name base)
                    (subscribers (regs t (Derived name base))) args target
                    kwargs t)).
    { intros t Ht. apply invoke_general_inv; auto.
      rewrite Forall_forall. intros d Hd. eapply P_subscribers; eauto. }
    cbn [invoke].
    destruct (is_cached (Derived name base)) eqn:Ecached.
    + destruct sd as [info | ].
      * apply Hup. apply invoke_general_inv; auto.
      * set (s0 := cache_append (Derived name base) (args, target, kwargs) s).
        assert (HP0 : P s0) by (apply P_cache; auto).
        clearbody s0.
        destruct (@invoke_targets_total fuel (Derived name base) args target
                    None kwargs s0) as [s1 [E HP1]]; auto.
        rewrite E. apply Hup. apply Hgen, HP1.
    + destruct target as [t | ].
      * destruct (@invoke_targets_total fuel (Derived name base) args (Some t)
                    None kwargs s) as [s1 [E HP1]]; auto.
        { apply Hself. discriminate. }
        rewrite E. apply Hup. apply Hgen, HP1.
      * apply Hup. apply Hgen, HP.
Qed.
End DispatchInvariant.

(** *** The live registry is frozen between two [update_state] *)


Lemma frozen_refl (s : State) : frozen s s.
Proof.
  split; [ intros c; reflexivity | ].
  exists []. split; [ now rewrite app_nil_r | constructor ].
Qed.

Lemma frozen_trans (s0 s1 s2 : State) :
  frozen s0 s1 -> frozen s1 s2 -> frozen s0 s2.
Proof.
  intros [L1 [n1 [E1 F1]]] [L2 [n2 [E2 F2]]]. split.
  - intros c. rewrite L2. apply L1.
  - exists (n1 ++ n2). split.
    + rewrite E2, E1. now rewrite app_assoc.
    + apply Forall_app. split; [ exact F1 | ].
      rewrite Forall_forall in *. intros e He c. rewrite (F2 e He c). apply L1.
Qed.

Lemma set_reg_frozen (c : SignalClass) (cs : ClassState) (s : State) :
  live cs = live (regs s c) -> frozen s (set_reg c cs s).
Proof.
  intros Hlive. split.
  - intros c'. cbn [set_reg regs]. unfold upd.
    destruct (eq_dec c' c) as [-> | Hne]; auto.
  - exists []. cbn [set_reg log]. split; [ now rewrite app_nil_r | constructor ].
Qed.

Lemma set_parent_frozen (cls : SignalClass) (i p : ident) (s : State) :
  frozen s (set_parent cls i p s).
Proof. unfold set_parent. apply set_reg_frozen. reflexivity. Qed.

Lemma remove_parent_frozen (cls : SignalClass) (i p : ident) (s : State) :
  frozen s (remove_parent cls i p s).
Proof. unfold remove_parent. apply set_reg_frozen. reflexivity. Qed.

Lemma fold_left_frozen {A : Type} (f : State -> A -> State) (l : list A) :
  (forall s x, frozen s (f s x)) ->
  forall s, frozen s (fold_left f l s).
Proof.
  intros Hf s. apply fold_left_inv with (P := frozen s).
  - intros t x _ Ht. eapply frozen_trans; [ exact Ht | apply Hf ].
  - apply frozen_refl.
Qed.

Lemma subscribe_frozen (i : ident) (cb : Callback) (s : State) :
  frozen s (subscribe i cb s).
Proof.
  unfold subscribe. apply fold_left_frozen.
  intros t [signal_cls [ | ]]; apply set_reg_frozen; reflexivity.
Qed.

Lemma unsubscribe_one_frozen (i : ident) (s : State) (sig : SignalClass * bool) :
  frozen s (unsubscribe_one i s sig).
Proof.
  destruct sig as [signal_cls is_context]. unfold unsubscribe_one.
  set (s1 := if is_context then _ else _).
  assert (H1 : frozen s s1).
  { subst s1. destruct is_context; apply set_reg_frozen; reflexivity. }
  clearbody s1.
  set (s2 := match dict_get i (children (regs s1 signal_cls)) with
             | Some kids => _
             | None => s1
             end).
  assert (H2 : frozen s1 s2).
  { subst s2. destruct (dict_get i (children (regs s1 signal_cls))).
    - apply fold_left_frozen. intros t child. apply remove_parent_frozen.
    - apply frozen_refl. }
  clearbody s2.
  eapply frozen_trans; [ exact H1 | ].
  eapply frozen_trans; [ exact H2 | ].
  apply fold_left_frozen. intros t [parent next_children].
  destruct (set_mem i next_children);
    [ apply remove_parent_frozen | apply frozen_refl ].
Qed.

Lemma unsubscribe_frozen (i : ident) (cb : Callback) (s : State) :
  frozen s (unsubscribe i cb s).
Proof. unfold unsubscribe. apply fold_left_frozen, unsubscribe_one_frozen. Qed.

Lemma run_op_frozen (s : State) (o : Op) : frozen s (run_op s o).
Proof.
  destruct o; cbn [run_op].
  - apply subscribe_frozen.
  - apply unsubscribe_frozen.
  - apply set_parent_frozen.
  - apply remove_parent_frozen.
Qed.

Lemma run_ops_frozen (ops : list Op) (s : State) : frozen s (run_ops ops s).
Proof. unfold run_ops. apply fold_left_frozen, run_op_frozen. Qed.

Lemma invoke_signal_frozen (cls : SignalClass) (args : pyargs)
  (target : option ident) (kwargs : pykwargs) (cb : Callback) (ss st : bool)
  (s : State) :
  frozen s (invoke_signal cls args target kwargs cb ss st s).
Proof.
  unfold invoke_signal.
  eapply frozen_trans; [ | apply run_ops_frozen ].
  split; [ intros c; reflexivity | ].
  eexists. cbn [log]. split; [ reflexivity | ].
  constructor; [ | constructor ]. intros c. reflexivity.
Qed.

Lemma cache_append_frozen (cls : SignalClass) (e : CacheEntry) (s : State) :
  frozen s (cache_append cls e s).
Proof.
  split; [ intros c; reflexivity | ].
  exists []. cbn [cache_append log]. split; [ now rewrite app_nil_r | constructor ].
Qed.

Lemma invoke_frozen (fuel : nat) (cls : SignalClass) (args : pyargs)
  (sd : option (dict ident Data)) (target : option ident) (kwargs : pykwargs)
  (s s' : State) :
  invoke fuel cls args sd target kwargs s = Some s' -> frozen s s'.
Proof.
  apply invoke_inv
    with (P := frozen s) (Q := fun _ => True) (C := fun _ => True).
  - intros a ar tg kw cb ss st t _ _ Ht.
    eapply frozen_trans; [ exact Ht | apply invoke_signal_frozen ].
  - trivial.
  - trivial.
  - intros t a e _ _ Ht.
    eapply frozen_trans; [ exact Ht | apply cache_append_frozen ].
  - trivial.
  - intros d _. rewrite Forall_forall. trivial.
  - apply frozen_refl.
Qed.

Lemma invoke_returns (fuel : nat) (cls : SignalClass) (args : pyargs)
  (sd : option (dict ident Data)) (target : option ident) (kwargs : pykwargs)
  (s : State) :
  ((is_cached cls = true -> sd = None) ->
   targets_ok fuel (children (regs s cls)) target = true) ->
  forallb (fun a => targets_ok fuel (children (regs s a)) target)
    (ancestors cls) = true ->
  exists s', invoke fuel cls args sd target kwargs s = Some s' /\ frozen s s'.
Proof.
  intros Hself Hanc.
  apply invoke_total
    with (P := frozen s) (Q := fun _ => True) (C := fun _ => True)
         (forest := fun a => children (regs s a)).
  - intros a ar tg kw cb ss st t _ _ Ht.
    eapply frozen_trans; [ exact Ht | apply invoke_signal_frozen ].
  - trivial.
  - trivial.
  - intros t a e _ _ Ht.
    eapply frozen_trans; [ exact Ht | apply cache_append_frozen ].
  - intros t a _ [Hlive _]. specialize (Hlive a). unfold live in Hlive.
    congruence.
  - trivial.
  - intros d _. rewrite Forall_forall. trivial.
  - apply frozen_refl.
  - exact Hself.
  - exact Hanc.
Qed.

(** [invoke] is its body over [invoke_parent]. *)
Lemma invoke_unfold (fuel : nat) (cls : SignalClass) (args : pyargs)
  (sd : option (dict ident Data)) (target : option ident) (kwargs : pykwargs)
  (s : State) :
  invoke fuel cls args sd target kwargs s
  = invoke_with (invoke_parent fuel cls args target kwargs) fuel cls args sd
      target kwargs s.
Proof. destruct cls; reflexivity. Qed.

(** *** Staging touches neither the log nor the caches *)

Lemma untouched_refl (s : State) : untouched s s.
Proof. split; reflexivity. Qed.

Lemma untouched_trans (s t u : State) :
  untouched s t -> untouched t u -> untouched s u.
Proof. intros [A B] [A' B']. split; congruence. Qed.

Lemma fold_left_untouched {A : Type} (f : State -> A -> State) (l : list A) :
  (forall s x, untouched s (f s x)) ->
  forall s, untouched s (fold_left f l s).
Proof.
  intros Hf s. apply fold_left_inv with (P := untouched s).
  - intros t x _ Ht. eapply untouched_trans; [ exact Ht | apply Hf ].
  - apply untouched_refl.
Qed.

Lemma set_reg_untouched (c : SignalClass) (cs : ClassState) (s : State) :
  untouched s (set_reg c cs s).
Proof. split; reflexivity. Qed.

Lemma remove_parent_untouched (cls : SignalClass) (i p : ident) (s : State) :
  untouched s (remove_parent cls i p s).
Proof. apply set_reg_untouched. Qed.

Lemma run_op_untouched (s : State) (o : Op) : untouched s (run_op s o).
Proof.
  destruct o; cbn [run_op].
  - unfold subscribe. apply fold_left_untouched.
    intros t [signal_cls [ | ]]; apply set_reg_untouched.
  - unfold unsubscribe. apply fold_left_untouched.
    intros t [signal_cls is_context]. unfold unsubscribe_one.
    eapply untouched_trans; [ | apply fold_left_untouched ].
    + eapply untouched_trans.
      * instantiate (1 := if is_context then _ else _).
        destruct is_context; apply set_reg_untouched.
      * match goal with
        | |- untouched _ (match ?x with _ => _ end) => destruct x
        end.
        -- apply fold_left_untouched. intros u child.
           apply remove_parent_untouched.
        -- apply untouched_refl.
    + intros u [parent next_children].
      destruct (set_mem identifier next_children);
        [ apply remove_parent_untouched | apply untouched_refl ].
  - apply set_reg_untouched.
  - apply set_reg_untouched.
Qed.

Lemma run_ops_untouched (ops : list Op) (s : State) :
  untouched s (run_ops ops s).
Proof. unfold run_ops. apply fold_left_untouched, run_op_untouched. Qed.

Lemma invoke_signal_log (cls : SignalClass) (args : pyargs)
  (target : option ident) (kwargs : pykwargs) (cb : Callback) (ss st : bool)
  (s : State) :
  log (invoke_signal cls args target kwargs cb ss st s)
  = log s ++ [mkEvent (the_call cls args target kwargs (cb, ss, st)) (regs s)
                (caches s)]
  /\ caches (invoke_signal cls args target kwargs cb ss st s) = caches s.
Proof.
  unfold invoke_signal.
  match goal with
  | |- context [run_ops ?ops ?t] => destruct (run_ops_untouched ops t) as [L K]
  end.
  rewrite L, K. split; reflexivity.
Qed.

(** *** The calls of a dispatch are determined by the live registry *)

Lemma logged_refl (s : State) : logged s s [].
Proof. exists []. split; [ now rewrite app_nil_r | reflexivity ]. Qed.

Lemma logged_trans (s t u : State) (L1 L2 : list Call) :
  logged s t L1 -> logged t u L2 -> logged s u (L1 ++ L2).
Proof.
  intros [n1 [E1 C1]] [n2 [E2 C2]]. exists (n1 ++ n2). split.
  - rewrite E2, E1. now rewrite app_assoc.
  - unfold calls in *. rewrite map_app. congruence.
Qed.

Lemma invoke_signal_logged (cls : SignalClass) (args : pyargs)
  (target : option ident) (kwargs : pykwargs) (cb : Callback) (ss st : bool)
  (s : State) :
  logged s (invoke_signal cls args target kwargs cb ss st s)
    [the_call cls args target kwargs (cb, ss, st)].
Proof.
  destruct (invoke_signal_log cls args target kwargs cb ss st s) as [L _].
  eexists. split; [ exact L | reflexivity ].
Qed.

Lemma invoke_general_frozen (cls : SignalClass) (d : dict ident Data)
  (args : pyargs) (target : option ident) (kwargs : pykwargs) (s : State) :
  frozen s (invoke_general cls d args target kwargs s).
Proof.
  unfold invoke_general. apply fold_left_frozen.
  intros t [[cb ss] st]. apply invoke_signal_frozen.
Qed.

Lemma invoke_targets_frozen (fuel : nat) (a : SignalClass) (args : pyargs)
  (target addressee : option ident) (kwargs : pykwargs) (s s' : State) :
  invoke_targets fuel a (fun s => isolated_subscribers (regs s a)) args target
    addressee kwargs s = Some s' ->
  frozen s s'.
Proof.
  apply invoke_targets_inv
    with (P := frozen s) (Q := fun _ => True) (C := fun _ => True).
  - intros b ar tg kw cb ss st t _ _ Ht.
    eapply frozen_trans; [ exact Ht | apply invoke_signal_frozen ].
  - trivial.
  - trivial.
  - apply frozen_refl.
Qed.

Lemma frozen_children (s t : State) (a : SignalClass) :
  frozen s t -> children (regs t a) = children (regs s a).
Proof. intros [L _]. specialize (L a). unfold live in L. congruence. Qed.

Lemma frozen_isolated (s t : State) (a : SignalClass) :
  frozen s t -> isolated_subscribers (regs t a) = isolated_subscribers (regs s a).
Proof. intros [L _]. specialize (L a). unfold live in L. congruence. Qed.

Lemma frozen_subscribers (s t : State) (a : SignalClass) :
  frozen s t -> subscribers (regs t a) = subscribers (regs s a).
Proof. intros [L _]. specialize (L a). unfold live in L. congruence. Qed.

Lemma invoke_general_logged (cls : SignalClass) (d : dict ident Data)
  (args : pyargs) (target : option ident) (kwargs : pykwargs) (s : State) :
  logged s (invoke_general cls d args target kwargs s)
    (general_calls cls d args target kwargs).
Proof.
  unfold invoke_general, general_calls.
  generalize (dict_values d) as l. intros l. revert s.
  induction l as [ | [[cb ss] st] l IH]; intros s; cbn [fold_left map].
  - apply logged_refl.
  - change (the_call cls args target kwargs (cb, ss, st) :: map _ l)
      with ([the_call cls args target kwargs (cb, ss, st)]
              ++ map (the_call cls args target kwargs) l).
    eapply logged_trans; [ apply invoke_signal_logged | apply IH ].
Qed.

Lemma invoke_targets_logged (fuel : nat) :
  forall a args target addressee kwargs s s',
    invoke_targets fuel a (fun s => isolated_subscribers (regs s a)) args
      target addressee kwargs s = Some s' ->
    logged s s'
      (targets_calls fuel a (isolated_subscribers (regs s a))
         (children (regs s a)) args target addressee kwargs).
Proof.
  induction fuel as [ | fuel IH]; intros a args target addressee kwargs s s'
    Hrun; [ discriminate | ].
  cbn [invoke_targets targets_calls] in *.
  destruct (match addressee with None => target | Some _ => addressee end)
    as [addr | ]; [ | injection Hrun as <-; apply logged_refl ].
  set (s1 := match dict_get addr (isolated_subscribers (regs s a)) with
             | Some (callback, supply_signal, supply_target) =>
                 invoke_signal a args target kwargs callback supply_signal
                   supply_target s
             | None => s
             end) in *.
  assert (H1 : frozen s s1 /\
               logged s s1
                 (match dict_get addr (isolated_subscribers (regs s a)) with
                  | Some d => [the_call a args target kwargs d]
                  | None => []
                  end)).
  { subst s1. destruct (dict_get addr (isolated_subscribers (regs s a)))
      as [[[cb ss] st] | ].
    - split; [ apply invoke_signal_frozen | apply invoke_signal_logged ].
    - split; [ apply frozen_refl | apply logged_refl ]. }
  destruct H1 as [F1 L1]. clearbody s1.
  rewrite (frozen_children a F1) in Hrun.
  eapply logged_trans; [ exact L1 | ].
  destruct (dict_get addr (children (regs s a))) as [kids | ];
    [ | injection Hrun as <-; apply logged_refl ].
  clear L1. revert s1 F1 Hrun.
  induction kids as [ | kid kids IHk]; intros t Ft Hrun; cbn [fold_left flat_map]
    in *.
  - injection Hrun as <-. apply logged_refl.
  - destruct (invoke_targets fuel a _ args target (Some kid) kwargs t)
      as [t1 | ] eqn:E; [ | rewrite fold_option_none in Hrun; discriminate ].
    eapply logged_trans.
    + pose proof (IH _ _ _ _ _ _ _ E) as Hk.
      rewrite (frozen_children a Ft), (frozen_isolated a Ft) in Hk. exact Hk.
    + apply IHk; [ | exact Hrun ].
      eapply frozen_trans; [ exact Ft | ].
      eapply invoke_targets_frozen; exact E.
Qed.

Lemma targets_calls_target_none (fuel : nat) (cls : SignalClass)
  (iso : dict ident Data) (forest : dict ident (list ident)) (args : pyargs)
  (kwargs : pykwargs) :
  targets_calls fuel cls iso forest args None None kwargs = [].
Proof. destruct fuel; reflexivity. Qed.

Lemma invoke_calls_ext (fuel : nat) (r r' : SignalClass -> ClassState) :
  (forall c, live (r c) = live (r' c)) ->
  forall cls args sd target kwargs,
    invoke_calls fuel r cls args sd target kwargs
    = invoke_calls fuel r' cls args sd target kwargs.
Proof.
  intros Hlive. induction cls as [ | name base IH]; intros args sd target kwargs;
    cbn [invoke_calls]; unfold own_calls.
  - pose proof (Hlive Signal) as H. unfold live in H.
    injection H as H1 H2 H3. rewrite H1, H2, H3. reflexivity.
  - pose proof (Hlive (Derived name base)) as H. unfold live in H.
    injection H as H1 H2 H3. rewrite H1, H2, H3, IH. reflexivity.
Qed.

Lemma invoke_logged (fuel : nat) :
  forall cls args sd target kwargs s s',
    invoke fuel cls args sd target kwargs s = Some s' ->
    logged s s' (invoke_calls fuel (regs s) cls args sd target kwargs).
Proof.
  induction cls as [ | name base IH]; intros args sd target kwargs s s' Hrun.
  - cbn [invoke invoke_calls is_cached] in *. unfold own_calls.
    cbn [is_cached]. rewrite app_nil_r.
    destruct target as [t | ].
    + destruct (invoke_targets fuel Signal _ args (Some t) None kwargs s)
        as [s1 | ] eqn:E; [ | discriminate ].
      injection Hrun as <-.
      eapply logged_trans; [ apply (invoke_targets_logged _ _ _ _ _ _ _ E) | ].
      rewrite <- (frozen_subscribers Signal (invoke_targets_frozen _ _ _ _ _ _ _ E)).
      apply invoke_general_logged.
    + injection Hrun as <-. apply invoke_general_logged.
  - cbn [invoke invoke_calls] in *. unfold own_calls.
    set (cls := Derived name base) in *.
    assert (Hup : forall t t',
               frozen s t ->
               invoke fuel base args None target kwargs t = Some t' ->
               logged t t' (invoke_calls fuel (regs s) base args None target
                              kwargs)).
    { intros t t' Ft Ht. rewrite (@invoke_calls_ext fuel (regs s) (regs t)).
      - apply IH, Ht.
      - intros c. symmetry. apply Ft. }
    destruct (is_cached cls).
    + destruct sd as [info | ].
      * eapply logged_trans; [ apply invoke_general_logged | ].
        apply Hup; [ apply invoke_general_frozen | exact Hrun ].
      * set (s0 := cache_append cls (args, target, kwargs) s) in *.
        destruct (invoke_targets fuel cls _ args target None kwargs s0)
          as [s1 | ] eqn:E; [ | discriminate ].
        pose proof (invoke_targets_frozen _ _ _ _ _ _ _ E) as F1.
        rewrite <- app_assoc.
        eapply logged_trans; [ | eapply logged_trans ].
        -- destruct (invoke_targets_logged _ _ _ _ _ _ _ E) as [new [EL EC]].
           exists new. split; [ exact EL | exact EC ].
        -- pose proof (frozen_subscribers cls F1) as Hs.
           change (regs s0 cls) with (regs s cls) in Hs. rewrite <- Hs.
           apply invoke_general_logged.
        -- apply Hup; [ | exact Hrun ].
           eapply frozen_trans;
             [ apply (cache_append_frozen cls (args, target, kwargs) s) | ].
           eapply frozen_trans; [ exact F1 | apply invoke_general_frozen ].
    + destruct target as [t | ].
      * destruct (invoke_targets fuel cls _ args (Some t) None kwargs s)
          as [s1 | ] eqn:E; [ | discriminate ].
        pose proof (invoke_targets_frozen _ _ _ _ _ _ _ E) as F1.
        rewrite <- app_assoc.
        eapply logged_trans; [ | eapply logged_trans ].
        -- apply (invoke_targets_logged _ _ _ _ _ _ _ E).
        -- rewrite <- (frozen_subscribers cls F1).
           apply invoke_general_logged.
        -- apply Hup; [ | exact Hrun ].
           eapply frozen_trans; [ exact F1 | apply invoke_general_frozen ].
      * cbn [app].
        eapply logged_trans; [ apply invoke_general_logged | ].
        apply Hup; [ apply invoke_general_frozen | exact Hrun ].
Qed.

(** *** Counting the calls of one callback *)

Lemma call_callback_the_call (cls : SignalClass) (args : pyargs)
  (target : option ident) (kwargs : pykwargs) (d : Data) :
  call_callback (the_call cls args target kwargs d) = data_name d.
Proof. destruct d as [[cb ss] st]. reflexivity. Qed.

Lemma call_cls_the_call (cls : SignalClass) (args : pyargs)
  (target : option ident) (kwargs : pykwargs) (d : Data) :
  call_cls (the_call cls args target kwargs d) = cls.
Proof. destruct d as [[cb ss] st]. reflexivity. Qed.

Lemma dict_get_In_values {V : Type} (i : ident) (d : dict ident V) (v : V) :
  dict_get i d = Some v -> In v (dict_values d).
Proof.
  induction d as [ | [k w] d IH]; cbn [dict_get dict_values map]; intros H.
  - discriminate.
  - destruct (eq_dec i k).
    + injection H as ->. now left.
    + right. apply IH, H.
Qed.

Lemma filter_none {A : Type} (f : A -> bool) (l : list A) :
  Forall (fun x => f x = false) l -> filter f l = [].
Proof.
  induction 1 as [ | x l Hx _ IH]; cbn [filter]; [ reflexivity | ].
  now rewrite Hx.
Qed.

Lemma targets_calls_sources (fuel : nat) (cls : SignalClass)
  (iso : dict ident Data) (forest : dict ident (list ident)) (args : pyargs)
  (target : option ident) (kwargs : pykwargs) (R : Data -> Prop) :
  Forall R (dict_values iso) ->
  forall addressee,
    Forall (fun c => exists d, R d /\ c = the_call cls args target kwargs d)
      (targets_calls fuel cls iso forest args target addressee kwargs).
Proof.
  intros HR. induction fuel as [ | fuel IH]; intros addressee;
    cbn [targets_calls]; [ constructor | ].
  destruct (match addressee with None => target | Some _ => addressee end)
    as [a | ]; [ | constructor ].
  apply Forall_app. split.
  - destruct (dict_get a iso) as [d | ] eqn:E; [ | constructor ].
    constructor; [ | constructor ]. exists d. split; [ | reflexivity ].
    rewrite Forall_forall in HR. apply HR. eapply dict_get_In_values, E.
  - destruct (dict_get a forest) as [kids | ]; [ | constructor ].
    induction kids as [ | kid kids IHk]; cbn [flat_map]; [ constructor | ].
    apply Forall_app. split; [ apply IH | exact IHk ].
Qed.

Lemma general_calls_sources (cls : SignalClass) (d : dict ident Data)
  (args : pyargs) (target : option ident) (kwargs : pykwargs)
  (R : Data -> Prop) :
  Forall R (dict_values d) ->
  Forall (fun c => exists x, R x /\ c = the_call cls args target kwargs x)
    (general_calls cls d args target kwargs).
Proof.
  unfold general_calls. generalize (dict_values d). intros l HR.
  induction HR as [ | x l Hx _ IH]; cbn [map]; constructor; eauto.
Qed.

(** Every call of a dispatch is the call of a subscriber of the class that
    makes it. *)
Lemma invoke_calls_sources (fuel : nat) (r : SignalClass -> ClassState)
  (R : SignalClass -> Data -> Prop) :
  forall cls args sd target kwargs,
    (forall info, sd = Some info -> Forall (R cls) (dict_values info)) ->
    Forall
      (fun a =>
         Forall (R a) (dict_values (isolated_subscribers (r a))) /\
         Forall (R a) (dict_values (subscribers (r a))))
      (cls :: ancestors cls) ->
    Forall
      (fun c =>
         exists a d,
           In a (cls :: ancestors cls) /\ R a d /\
           c = the_call a args target kwargs d)
      (invoke_calls fuel r cls args sd target kwargs).
Proof.
  induction cls as [ | name base IH]; intros args sd target kwargs Hsd Hall;
    cbn [invoke_calls]; apply Forall_app.
  - split; [ | constructor ].
    inversion Hall as [ | x l [Hiso Hsub] _ ]; subst.
    unfold own_calls. cbn [is_cached].
    apply Forall_app. split.
    + destruct target as [t | ]; [ | constructor ].
      eapply Forall_impl;
        [ | apply targets_calls_sources with (R := R Signal); exact Hiso ].
      intros c [d [Hd ->]]. exists Signal, d. cbn. auto.
    + eapply Forall_impl;
        [ | apply general_calls_sources with (R := R Signal); exact Hsub ].
      intros c [d [Hd ->]]. exists Signal, d. cbn. auto.
  - inversion Hall as [ | x l [Hiso Hsub] Hrest ]; subst.
    set (cls := Derived name base) in *.
    assert (Ht : forall addressee,
               Forall
                 (fun c =>
                    exists a d,
                      In a (cls :: ancestors cls) /\ R a d /\
                      c = the_call a args target kwargs d)
                 (targets_calls fuel cls (isolated_subscribers (r cls))
                    (children (r cls)) args target addressee kwargs)).
    { intros addressee.
      eapply Forall_impl;
        [ | apply targets_calls_sources with (R := R cls); exact Hiso ].
      intros c [d [Hd ->]]. exists cls, d. cbn. auto. }
    assert (Hg : forall info,
               Forall (R cls) (dict_values info) ->
               Forall
                 (fun c =>
                    exists a d,
                      In a (cls :: ancestors cls) /\ R a d /\
                      c = the_call a args target kwargs d)
                 (general_calls cls info args target kwargs)).
    { intros info Hinfo.
      eapply Forall_impl;
        [ | apply general_calls_sources with (R := R cls); exact Hinfo ].
      intros c [d [Hd ->]]. exists cls, d. cbn. auto. }
    split.
    + unfold own_calls. destruct (is_cached cls).
      * destruct sd as [info | ].
        -- apply Hg. apply Hsd. reflexivity.
        -- apply Forall_app. split; [ apply Ht | apply Hg, Hsub ].
      * apply Forall_app. split; [ | apply Hg, Hsub ].
        destruct target; [ apply Ht | constructor ].
    + eapply Forall_impl; [ | apply IH; [ discriminate | exact Hrest ] ].
      intros c [a [d [Ha [Hd ->]]]]. exists a, d.
      split; [ right; exact Ha | auto ].
Qed.

(** *** Dictionaries *)

Section DictFacts.
Context {K V : Type} `{EqDec K}.

Lemma dict_get_set (i k : K) (v : V) (d : dict K V) :
  dict_get i (dict_set k v d) = if eq_dec i k then Some v else dict_get i d.
Proof.
  induction d as [ | [k' v'] d IH]; cbn [dict_set dict_get].
  - destruct (eq_dec i k); reflexivity.
  - destruct (eq_dec k k') as [-> | Hk]; cbn [dict_get].
    + destruct (eq_dec i k'); reflexivity.
    + destruct (eq_dec i k') as [-> | Hi].
      * destruct (eq_dec k' k); [ congruence | reflexivity ].
      * exact IH.
Qed.

Lemma dict_get_pop (i k : K) (d : dict K V) :
  dict_get i (dict_pop k d) = if eq_dec i k then None else dict_get i d.
Proof.
  induction d as [ | [k' v'] d IH]; cbn [dict_pop dict_get].
  - destruct (eq_dec i k); reflexivity.
  - destruct (eq_dec k k') as [-> | Hk]; cbn [dict_get].
    + rewrite IH. destruct (eq_dec i k'); reflexivity.
    + destruct (eq_dec i k') as [-> | Hi].
      * destruct (eq_dec k' k); [ congruence | reflexivity ].
      * exact IH.
Qed.

Lemma dict_popitem_last (d : dict K V) (kv : K * V) :
  dict_popitem (d ++ [kv]) = Some (kv, d).
Proof.
  induction d as [ | x d IH]; cbn [app dict_popitem].
  - reflexivity.
  - rewrite IH. reflexivity.
Qed.

Lemma dict_get_assign_all (i : K) (l : list (K * V)) (d : dict K V) :
  dict_get i (fold_left (fun acc kv => dict_set (fst kv) (snd kv) acc) l d)
  = match last_assigned i l with
    | Some v => Some v
    | None => dict_get i d
    end.
Proof.
  revert d. induction l as [ | [k v] l IH]; intros d; cbn [fold_left last_assigned].
  - reflexivity.
  - rewrite IH. cbn [fst snd]. destruct (last_assigned i l); [ reflexivity | ].
    rewrite dict_get_set. destruct (eq_dec i k); reflexivity.
Qed.

Lemma last_assigned_app (i : K) (l1 l2 : list (K * V)) :
  last_assigned i (l1 ++ l2)
  = match last_assigned i l2 with
    | Some v => Some v
    | None => last_assigned i l1
    end.
Proof.
  induction l1 as [ | [k v] l1 IH]; cbn [app last_assigned].
  - destruct (last_assigned i l2); reflexivity.
  - rewrite IH. destruct (last_assigned i l2); reflexivity.
Qed.

(** Applying a dictionary's items last first leaves, under each key, what
    the dictionary holds under it. *)
Lemma last_assigned_rev (i : K) (d : dict K V) :
  last_assigned i (rev d) = dict_get i d.
Proof.
  induction d as [ | [k v] d IH]; cbn [rev dict_get last_assigned].
  - reflexivity.
  - rewrite last_assigned_app. cbn [last_assigned].
    destruct (eq_dec i k); [ reflexivity | exact IH ].
Qed.
End DictFacts.

Lemma dict_get_pop_all {V : Type} (i : ident) (keys : list ident)
  (d : dict ident V) :
  dict_get i (pop_all keys d) = if set_mem i keys then None else dict_get i d.
Proof.
  unfold pop_all. revert d.
  induction keys as [ | k keys IH]; intros d; cbn [fold_left set_mem].
  - reflexivity.
  - rewrite IH. rewrite dict_get_pop.
    destruct (eq_dec i k); [ | reflexivity ].
    destruct (set_mem i keys); reflexivity.
Qed.

(** *** Quiet callbacks leave every attribute alone *)

Lemma invoke_signal_quiet (cls : SignalClass) (args : pyargs)
  (target : option ident) (kwargs : pykwargs) (cb : Callback) (ss st : bool)
  (s : State) :
  quiet (cb, ss, st) ->
  regs (invoke_signal cls args target kwargs cb ss st s) = regs s.
Proof.
  intros Hq. unfold invoke_signal. rewrite (Hq args _). reflexivity.
Qed.

Lemma depth_ancestors (cls a : SignalClass) :
  In a (ancestors cls) -> depth a < depth cls.
Proof.
  induction cls as [ | name base IH]; cbn [ancestors depth]; intros Hin.
  - contradiction.
  - destruct Hin as [<- | Hin]; [ lia | ]. specialize (IH Hin). lia.
Qed.

Lemma not_own_ancestor (cls : SignalClass) : ~ In cls (ancestors cls).
Proof. intros Hin. apply depth_ancestors in Hin. lia. Qed.

Lemma invoke_quiet_regs (fuel : nat) (cls : SignalClass) (args : pyargs)
  (sd : option (dict ident Data)) (target : option ident) (kwargs : pykwargs)
  (s s' : State) :
  (forall info, sd = Some info -> Forall quiet (dict_values info)) ->
  Forall (fun a => quiet_live (regs s a))
    (if is_cached cls
     then match sd with Some _ => ancestors cls | None => cls :: ancestors cls end
     else cls :: ancestors cls) ->
  invoke fuel cls args sd target kwargs s = Some s' ->
  regs s' = regs s.
Proof.
  intros Hsd Hq Hrun.
  assert (Hsig : forall a ar tg kw cb ss st t,
             quiet (cb, ss, st) -> regs t = regs s ->
             regs (invoke_signal a ar tg kw cb ss st t) = regs s).
  { intros a ar tg kw cb ss st t Hcb Ht.
    rewrite invoke_signal_quiet; assumption. }
  assert (Hchain : forall base t t',
             Forall (fun a => quiet_live (regs s a)) (base :: ancestors base) ->
             regs t = regs s ->
             invoke fuel base args None target kwargs t = Some t' ->
             regs t' = regs s).
  { intros base t t' Hb Ht Hinv. rewrite Forall_forall in Hb.
    revert Hinv. apply invoke_inv
      with (P := fun u => regs u = regs s) (Q := quiet)
           (C := fun a => In a (base :: ancestors base)).
    - intros a ar tg kw cb ss st u _. apply Hsig.
    - intros u a i d Ha Hu Hget. rewrite Hu in Hget.
      destruct (Hb a Ha) as [_ Hiso]. rewrite Forall_forall in Hiso.
      apply Hiso. eapply dict_get_In_values, Hget.
    - intros u a d Ha Hu Hin. rewrite Hu in Hin.
      destruct (Hb a Ha) as [Hsub _]. rewrite Forall_forall in Hsub.
      apply Hsub, Hin.
    - intros u a e _ _ Hu. exact Hu.
    - auto.
    - discriminate.
    - exact Ht. }
  destruct (is_cached cls) eqn:Ecached; [ destruct sd as [info | ] | ].
  - (* replay: only the new subscriber is called at [cls] *)
    destruct cls as [ | name base]; [ discriminate | ].
    cbn [invoke] in Hrun. rewrite Ecached in Hrun.
    eapply Hchain; [ exact Hq | | exact Hrun ].
    apply invoke_general_inv
      with (P := fun u => regs u = regs s) (Q := quiet) (C := fun _ => True);
      [ intros a ar tg kw cb ss st u _; apply Hsig
      | trivial
      | apply Hsd; reflexivity
      | reflexivity ].
  - eapply Hchain; [ exact Hq | reflexivity | exact Hrun ].
  - destruct sd as [info | ].
    + (* a plain class handed [subscriber_data] dispatches as usual *)
      rewrite Forall_forall in Hq. revert Hrun. apply invoke_inv
        with (P := fun u => regs u = regs s) (Q := quiet)
             (C := fun a => In a (cls :: ancestors cls)).
      * intros a ar tg kw cb ss st u _. apply Hsig.
      * intros u a i d Ha Hu Hget. rewrite Hu in Hget.
        destruct (Hq a Ha) as [_ Hiso]. rewrite Forall_forall in Hiso.
        apply Hiso. eapply dict_get_In_values, Hget.
      * intros u a d Ha Hu Hin. rewrite Hu in Hin.
        destruct (Hq a Ha) as [Hsub _]. rewrite Forall_forall in Hsub.
        apply Hsub, Hin.
      * intros u a e _ _ Hu. exact Hu.
      * auto.
      * exact Hsd.
      * reflexivity.
    + eapply Hchain; [ exact Hq | reflexivity | exact Hrun ].
Qed.

(** *** What a dispatch does to the caches *)

Lemma invoke_targets_caches (fuel : nat) (a : SignalClass) (args : pyargs)
  (target addressee : option ident) (kwargs : pykwargs) (s s' : State) :
  invoke_targets fuel a (fun s => isolated_subscribers (regs s a)) args target
    addressee kwargs s = Some s' ->
  caches s' = caches s.
Proof.
  apply invoke_targets_inv
    with (P := fun t => caches t = caches s) (Q := fun _ => True)
         (C := fun _ => True);
    [ | trivial | trivial | reflexivity ].
  intros b ar tg kw cb ss st t _ _ Ht.
  destruct (invoke_signal_log b ar tg kw cb ss st t) as [_ K]. congruence.
Qed.

Lemma invoke_general_caches (cls : SignalClass) (d : dict ident Data)
  (args : pyargs) (target : option ident) (kwargs : pykwargs) (s : State) :
  caches (invoke_general cls d args target kwargs s) = caches s.
Proof.
  apply invoke_general_inv
    with (P := fun t => caches t = caches s) (Q := fun _ => True)
         (C := fun _ => True);
    [ | trivial | rewrite Forall_forall; trivial | reflexivity ].
  intros b ar tg kw cb ss st t _ _ Ht.
  destruct (invoke_signal_log b ar tg kw cb ss st t) as [_ K]. congruence.
Qed.

Lemma invoke_caches_eq (fuel : nat) :
  forall cls args sd target kwargs s s',
    invoke fuel cls args sd target kwargs s = Some s' ->
    caches s'
    = invoke_caches cls (match sd with None => true | Some _ => false end)
        (args, target, kwargs) (caches s).
Proof.
  induction cls as [ | name base IH]; intros args sd target kwargs s s' Hrun.
  - cbn [invoke invoke_caches is_cached andb] in *.
    destruct target as [t | ].
    + destruct (invoke_targets fuel Signal _ args (Some t) None kwargs s)
        as [s1 | ] eqn:E; [ | discriminate ].
      injection Hrun as <-. rewrite invoke_general_caches.
      eapply invoke_targets_caches, E.
    + injection Hrun as <-. apply invoke_general_caches.
  - cbn [invoke invoke_caches] in *.
    set (cls := Derived name base) in *.
    destruct (is_cached cls); cbn [andb].
    + destruct sd as [info | ].
      * rewrite (IH _ _ _ _ _ _ Hrun), invoke_general_caches. reflexivity.
      * destruct (invoke_targets fuel cls _ args target None kwargs
                    (cache_append cls (args, target, kwargs) s))
          as [s1 | ] eqn:E; [ | discriminate ].
        rewrite (IH _ _ _ _ _ _ Hrun), invoke_general_caches.
        rewrite (invoke_targets_caches _ _ _ _ _ _ _ E). reflexivity.
    + assert (Hmid : forall t,
                 match target with
                 | Some _ =>
                     invoke_targets fuel cls
                       (fun s => isolated_subscribers (regs s cls)) args
                       target None kwargs s
                 | None => Some s
                 end = Some t -> caches t = caches s).
      { intros t Ht. destruct target; [ | congruence ].
        eapply invoke_targets_caches, Ht. }
      destruct (match target with
                | Some _ => _
                | None => Some s
                end) as [s1 | ] eqn:E; [ | discriminate ].
      rewrite (IH _ _ _ _ _ _ Hrun), invoke_general_caches.
      rewrite (Hmid s1 eq_refl). reflexivity.
Qed.

Lemma invoke_caches_outside (cls c : SignalClass) (fresh : bool)
  (e : CacheEntry) (k : SignalClass -> list CacheEntry) :
  ~ In c (cls :: ancestors cls) -> invoke_caches cls fresh e k c = k c.
Proof.
  revert fresh k. induction cls as [ | name base IH]; intros fresh k Hout;
    cbn [invoke_caches].
  - cbn [is_cached andb]. reflexivity.
  - rewrite IH.
    + destruct (is_cached (Derived name base) && fresh); [ | reflexivity ].
      apply upd_other. intros ->. apply Hout. now left.
    + intros Hin. apply Hout. right. exact Hin.
Qed.

(** A fresh invocation is appended to the cache of the class, once; a
    replay leaves that cache alone. *)
Lemma invoke_caches_own (cls : SignalClass) (fresh : bool) (e : CacheEntry)
  (k : SignalClass -> list CacheEntry) :
  invoke_caches cls fresh e k cls
  = if is_cached cls && fresh then k cls ++ [e] else k cls.
Proof.
  destruct cls as [ | name base]; cbn [invoke_caches].
  - reflexivity.
  - rewrite invoke_caches_outside.
    + destruct (is_cached (Derived name base) && fresh);
        [ apply upd_same | reflexivity ].
    + apply (not_own_ancestor (Derived name base)).
Qed.

(** *** The subscription loops of [update_state] *)

Lemma on_subscribed_contextual (fuel : nat) (cls : SignalClass) (i : ident)
  (d : Data) (s : State) :
  on_subscribed fuel cls true i d s = Some s.
Proof. unfold on_subscribed. destruct (is_cached cls); reflexivity. Qed.

Lemma own_calls_replay (fuel : nat) (r r' : SignalClass -> ClassState)
  (cls : SignalClass) (args : pyargs) (info : dict ident Data)
  (target : option ident) (kwargs : pykwargs) :
  is_cached cls = true ->
  own_calls fuel r cls args (Some info) target kwargs
  = own_calls fuel r' cls args (Some info) target kwargs.
Proof. intros Hc. unfold own_calls. rewrite Hc. reflexivity. Qed.

Lemma invoke_calls_chain (fuel : nat) (r r' : SignalClass -> ClassState) :
  forall cls args sd target kwargs,
    (forall a, In a (cls :: ancestors cls) -> r a = r' a) ->
    invoke_calls fuel r cls args sd target kwargs
    = invoke_calls fuel r' cls args sd target kwargs.
Proof.
  induction cls as [ | name base IH]; intros args sd target kwargs Hr;
    cbn [invoke_calls]; unfold own_calls.
  - rewrite (Hr Signal) by now left. reflexivity.
  - rewrite (Hr (Derived name base)) by now left.
    rewrite IH; [ reflexivity | ].
    intros a Ha. apply Hr. right. exact Ha.
Qed.

Lemma replay_calls_chain (fuel : nat) (r r' : SignalClass -> ClassState)
  (cls : SignalClass) (i : ident) (d : Data) (k : list CacheEntry) :
  (forall a, In a (ancestors cls) -> r a = r' a) ->
  replay_calls fuel r cls i d k = replay_calls fuel r' cls i d k.
Proof.
  intros Hr. unfold replay_calls.
  destruct (is_cached cls) eqn:Ec; [ | reflexivity ].
  induction k as [ | [[a t] kw] k IH]; cbn [flat_map]; [ reflexivity | ].
  rewrite IH. f_equal.
  destruct cls as [ | name base]; [ discriminate | ].
  cbn [invoke_calls]. rewrite (own_calls_replay fuel r r') by exact Ec.
  f_equal. apply invoke_calls_chain. exact Hr.
Qed.

(** The replay to one new global subscriber. *)
Lemma on_subscribed_replay (fuel : nat) (cls : SignalClass) (i : ident)
  (d : Data) (s : State) :
  quiet d ->
  Forall (fun a => quiet_live (regs s a)) (ancestors cls) ->
  Forall
    (fun e : CacheEntry =>
       forallb (fun a => targets_ok fuel (children (regs s a)) (snd (fst e)))
         (ancestors cls) = true)
    (caches s cls) ->
  exists s',
    on_subscribed fuel cls false i d s = Some s' /\
    regs s' = regs s /\
    caches s' cls = caches s cls /\
    logged s s' (replay_calls fuel (regs s) cls i d (caches s cls)).
Proof.
  intros Hq Hanc Htar. unfold on_subscribed, replay_calls.
  destruct (is_cached cls) eqn:Ec.
  2:{ exists s. repeat split. apply logged_refl. }
  assert (Hgen : forall k t,
             regs t = regs s -> caches t cls = caches s cls ->
             Forall
               (fun e : CacheEntry =>
                  forallb
                    (fun a =>
                       targets_ok fuel (children (regs s a)) (snd (fst e)))
                    (ancestors cls) = true) k ->
             exists s',
               fold_left
                 (fun (acc : option State) (e : CacheEntry) =>
                    let '(previous_args, target, previous_kwargs) := e in
                    match acc with
                    | Some s =>
                        invoke fuel cls previous_args
                          (Some (dict_set i d [])) target previous_kwargs s
                    | None => None
                    end) k (Some t) = Some s' /\
               regs s' = regs s /\
               caches s' cls = caches s cls /\
               logged t s'
                 (flat_map
                    (fun e : CacheEntry =>
                       let '(previous_args, target, previous_kwargs) := e in
                       invoke_calls fuel (regs s) cls previous_args
                         (Some (dict_set i d [])) target previous_kwargs) k)).
  { induction k as [ | [[a tg] kw] k IH]; intros t Hr Hk Hok;
      cbn [fold_left flat_map].
    - exists t. repeat split; auto. apply logged_refl.
    - inversion Hok as [ | e k' Hhead Hrest ]; subst. cbn [fst snd] in Hhead.
      destruct (@invoke_returns fuel cls a (Some (dict_set i d [])) tg kw t)
        as [t1 [E1 _]].
      { intros Habs. specialize (Habs Ec). discriminate. }
      { rewrite Hr. exact Hhead. }
      rewrite E1.
      assert (Hr1 : regs t1 = regs s).
      { rewrite <- Hr. eapply invoke_quiet_regs; [ | | exact E1 ].
        - intros info [= <-]. cbn. constructor; [ exact Hq | constructor ].
        - rewrite Ec, Hr. exact Hanc. }
      assert (Hk1 : caches t1 cls = caches s cls).
      { rewrite (invoke_caches_eq _ _ _ _ _ _ _ E1), invoke_caches_own.
        rewrite Bool.andb_false_r. exact Hk. }
      destruct (IH t1 Hr1 Hk1 Hrest) as [s' [E' [Hr' [Hk' L']]]].
      exists s'. repeat split; auto.
      eapply logged_trans; [ | exact L' ].
      rewrite <- Hr. apply invoke_logged, E1. }
  apply Hgen; auto.
Qed.

(** A flush that is [replay_ready] runs [on_subscribed] without any
    change of a class attribute. *)
Lemma on_subscribed_ready (fuel : nat) (cls : SignalClass) (s t : State)
  (i : ident) (d : Data) :
  replay_ready fuel cls s ->
  In (i, d) (to_subscribe_global (regs s cls)) ->
  (forall a, a <> cls -> regs t a = regs s a) ->
  caches t cls = caches s cls ->
  exists t',
    on_subscribed fuel cls false i d t = Some t' /\
    regs t' = regs t /\
    caches t' cls = caches t cls /\
    logged t t' (replay_calls fuel (regs s) cls i d (caches s cls)).
Proof.
  intros Hready Hin Hr Hk.
  assert (Hanc : forall a, In a (ancestors cls) -> regs t a = regs s a).
  { intros a Ha. apply Hr. intros ->. exact (not_own_ancestor _ Ha). }
  destruct Hready as [Hplain | [Hempty | (Hq & Hlive & Htar)]].
  - unfold on_subscribed, replay_calls. rewrite Hplain.
    exists t. repeat split. apply logged_refl.
  - exists t. unfold on_subscribed, replay_calls. rewrite Hk, Hempty.
    destruct (is_cached cls); (split; [ reflexivity | ]);
      (split; [ reflexivity | ]); (split; [ congruence | apply logged_refl ]).
  - destruct (@on_subscribed_replay fuel cls i d t) as [t' (E & R & K & L)].
    + rewrite Forall_forall in Hq. apply Hq.
      change d with (snd (i, d)). apply in_map, Hin.
    + rewrite Forall_forall in *. intros a Ha. rewrite (Hanc a Ha).
      apply Hlive, Ha.
    + rewrite Hk. eapply Forall_impl; [ | exact Htar ].
      intros e He. rewrite forallb_forall in *.
      intros a Ha. rewrite (Hanc a Ha). apply He, Ha.
    + exists t'. repeat split; auto.
      rewrite <- Hk. rewrite (replay_calls_chain fuel (regs s) (regs t)).
      * exact L.
      * intros a Ha. symmetry. apply Hanc, Ha.
Qed.

Lemma set_reg_same (c : SignalClass) (cs : ClassState) (s : State) :
  regs (set_reg c cs s) c = cs.
Proof. apply upd_same. Qed.

Lemma set_reg_other (c a : SignalClass) (cs : ClassState) (s : State) :
  a <> c -> regs (set_reg c cs s) a = regs s a.
Proof. intros Hne. cbn [set_reg regs]. apply upd_other, Hne. Qed.

Lemma set_reg_logged (c : SignalClass) (cs : ClassState) (s : State) :
  logged s (set_reg c cs s) [].
Proof. exists []. split; [ cbn; now rewrite app_nil_r | reflexivity ]. Qed.

Lemma applied_step (is_ctx : bool) (cs : ClassState) (p : dict ident Data)
  (i : ident) (d : Data) :
  pending_of is_ctx cs = p ++ [(i, d)] ->
  applied is_ctx
    (if is_ctx
     then with_isolated_subscribers
            (dict_set i d (isolated_subscribers cs))
            (with_to_subscribe_context p cs)
     else with_subscribers (dict_set i d (subscribers cs))
            (with_to_subscribe_global p cs))
  = applied is_ctx cs.
Proof.
  destruct cs, is_ctx; cbn; intros ->; unfold applied; cbn;
    rewrite rev_app_distr; reflexivity.
Qed.

(** One of the [while ...: popitem()] loops, given what [on_subscribed]
    does to the states the loop goes through. *)
Lemma apply_subscribes_spec (depth : nat) (cls : SignalClass) (is_ctx : bool)
  (s0 : State) (RC : ident -> Data -> list Call) :
  forall pending,
    (forall t i d,
        agrees cls s0 t -> In (i, d) pending ->
        exists t',
          on_subscribed depth cls is_ctx i d t = Some t' /\
          regs t' = regs t /\
          caches t' cls = caches t cls /\
          logged t t' (RC i d)) ->
    forall s fuel,
      agrees cls s0 s ->
      pending_of is_ctx (regs s cls) = pending ->
      List.length pending <= fuel ->
      exists s',
        apply_subscribes depth fuel cls is_ctx s = Some s' /\
        regs s' cls = applied is_ctx (regs s cls) /\
        agrees cls s0 s' /\
        logged s s' (flat_map (fun kv => RC (fst kv) (snd kv)) (rev pending)).
Proof.
  induction pending as [ | [i d] p IH] using rev_ind;
    intros Hhook s fuel Hag Hpend Hlen.
  - exists s. destruct fuel; cbn [apply_subscribes];
      fold (pending_of is_ctx (regs s cls)); rewrite Hpend; cbn [dict_popitem].
    + repeat split; try apply Hag; try apply logged_refl.
      unfold applied. destruct is_ctx, (regs s cls); cbn in *; subst; reflexivity.
    + repeat split; try apply Hag; try apply logged_refl.
      unfold applied. destruct is_ctx, (regs s cls); cbn in *; subst; reflexivity.
  - rewrite length_app in Hlen. cbn [List.length] in Hlen.
    destruct fuel as [ | fuel]; [ lia | ].
    cbn [apply_subscribes]. fold (pending_of is_ctx (regs s cls)).
    rewrite Hpend, dict_popitem_last.
    set (cs1 := if is_ctx then _ else _).
    set (s1 := set_reg cls cs1 s).
    assert (Hag1 : agrees cls s0 s1).
    { destruct Hag as [Hr Hk]. split.
      - intros a Ha. subst s1. rewrite set_reg_other by exact Ha. apply Hr, Ha.
      - exact Hk. }
    destruct (Hhook s1 i d Hag1) as [t' (E & R & K & L)].
    { apply in_or_app. right. now left. }
    rewrite E.
    assert (Hagt : agrees cls s0 t').
    { destruct Hag1 as [Hr Hk]. split.
      - intros a Ha. rewrite R. apply Hr, Ha.
      - congruence. }
    assert (Hcs : regs t' cls = cs1).
    { rewrite R. subst s1. apply set_reg_same. }
    destruct (IH (fun t j e Ht Hin => Hhook t j e Ht (in_or_app _ _ _ (or_introl Hin)))
                t' fuel Hagt) as [s' (E' & R' & A' & L')].
    { rewrite Hcs. subst cs1. destruct is_ctx, (regs s cls); reflexivity. }
    { lia. }
    exists s'. split; [ exact E' | ]. split; [ | split; [ exact A' | ] ].
    + rewrite R', Hcs. subst cs1. apply applied_step, Hpend.
    + rewrite rev_app_distr. cbn [rev app flat_map fst snd].
      change (RC i d ++ flat_map (fun kv => RC (fst kv) (snd kv)) (rev p))
        with ([] ++ RC i d ++ flat_map (fun kv => RC (fst kv) (snd kv)) (rev p)).
      eapply logged_trans; [ apply set_reg_logged | ].
      eapply logged_trans; [ exact L | exact L' ].
Qed.

(** *** [update_state] as a whole *)

Lemma update_state_unfold (fuel : nat) (cls : SignalClass) (s : State) :
  update_state fuel cls s
  = match apply_subscribes fuel fuel cls false s with
    | None => OutOfFuel
    | Some s1 =>
        match apply_subscribes fuel fuel cls true s1 with
        | None => OutOfFuel
        | Some s2 => finish cls (after_queues (regs s2 cls)) s2
        end
    end.
Proof. reflexivity. Qed.

Lemma agrees_refl (cls : SignalClass) (s : State) : agrees cls s s.
Proof. split; reflexivity. Qed.

Lemma finish_state (cls : SignalClass) (cs : ClassState) (s : State) :
  exists s',
    outcome_state (finish cls cs s) = Some s' /\
    subscribers (regs s' cls) = subscribers cs /\
    isolated_subscribers (regs s' cls) = isolated_subscribers cs /\
    agrees cls s s' /\
    log s' = log s.
Proof.
  unfold finish.
  destruct (remove_children (to_remove_child cs) (children cs)) as [f | f];
    eexists; (split; [ reflexivity | ]); rewrite set_reg_same;
    (split; [ reflexivity | ]); (split; [ reflexivity | ]);
    (split; [ | reflexivity ]);
    (split; [ intros a Ha; apply set_reg_other, Ha | reflexivity ]).
Qed.

(** A flush that is [replay_ready] reaches the end of [update_state]; the
    subscriber dictionaries it leaves are the old ones with the pending
    subscriptions assigned and the pending unsubscriptions popped, and the
    calls it makes are the replays to the new global subscribers, taken
    last staged first. *)
Lemma update_state_spec (fuel : nat) (cls : SignalClass) (s : State) :
  to_subscribe_global (regs s cls) = [] \/ replay_ready fuel cls s ->
  List.length (to_subscribe_global (regs s cls)) <= fuel ->
  List.length (to_subscribe_context (regs s cls)) <= fuel ->
  exists s2,
    update_state fuel cls s = finish cls (after_queues (regs s2 cls)) s2 /\
    regs s2 cls = applied true (applied false (regs s cls)) /\
    agrees cls s s2 /\
    logged s s2
      (flat_map
         (fun kv =>
            replay_calls fuel (regs s) cls (fst kv) (snd kv) (caches s cls))
         (rev (to_subscribe_global (regs s cls)))).
Proof.
  intros Hready Hg Hc. rewrite update_state_unfold.
  destruct (@apply_subscribes_spec fuel cls false s
              (fun i d => replay_calls fuel (regs s) cls i d (caches s cls))
              (to_subscribe_global (regs s cls)))
    with (s := s) (fuel := fuel) as [s1 (E1 & R1 & A1 & L1)].
  { intros t i d [Hr Hk] Hin.
    destruct Hready as [Hnone | Hready];
      [ rewrite Hnone in Hin; contradiction | ].
    apply on_subscribed_ready; auto. }
  { apply agrees_refl. }
  { reflexivity. }
  { exact Hg. }
  rewrite E1.
  destruct (@apply_subscribes_spec fuel cls true s1 (fun _ _ => [])
              (to_subscribe_context (regs s1 cls)))
    with (s := s1) (fuel := fuel) as [s2 (E2 & R2 & A2 & L2)].
  { intros t i d _ _. exists t. rewrite on_subscribed_contextual.
    repeat split. apply logged_refl. }
  { apply agrees_refl. }
  { reflexivity. }
  { rewrite R1. destruct (regs s cls); exact Hc. }
  rewrite E2. exists s2. split; [ reflexivity | ].
  split; [ rewrite R2, R1; reflexivity | ].
  split.
  - destruct A1 as [Hr1 Hk1], A2 as [Hr2 Hk2]. split.
    + intros a Ha. rewrite Hr2, Hr1 by exact Ha. reflexivity.
    + congruence.
  - rewrite <- (app_nil_r (flat_map _ _)).
    eapply logged_trans; [ exact L1 | ].
    replace (@nil Call)
      with (flat_map (fun kv : ident * Data => @nil Call)
              (rev (to_subscribe_context (regs s1 cls)))).
    + exact L2.
    + induction (rev (to_subscribe_context (regs s1 cls))); auto.
Qed.

Lemma flushed_subscribers (cs : ClassState) (i : ident) :
  dict_get i (subscribers (after_queues (applied true (applied false cs))))
  = if set_mem i (to_unsubscribe_context cs) then None
    else match dict_get i (to_subscribe_global cs) with
         | Some d => Some d
         | None => dict_get i (subscribers cs)
         end.
Proof.
  replace (subscribers (after_queues (applied true (applied false cs))))
    with (pop_all (to_unsubscribe_context cs)
            (assign_all (rev (to_subscribe_global cs)) (subscribers cs)))
    by (destruct cs; reflexivity).
  rewrite dict_get_pop_all. unfold assign_all.
  rewrite dict_get_assign_all, last_assigned_rev. reflexivity.
Qed.

Lemma flushed_isolated (cs : ClassState) (i : ident) :
  dict_get i
    (isolated_subscribers (after_queues (applied true (applied false cs))))
  = if set_mem i (to_unsubscribe_global cs) then None
    else match dict_get i (to_subscribe_context cs) with
         | Some d => Some d
         | None => dict_get i (isolated_subscribers cs)
         end.
Proof.
  replace (isolated_subscribers
             (after_queues (applied true (applied false cs))))
    with (pop_all (to_unsubscribe_global cs)
            (assign_all (rev (to_subscribe_context cs))
               (isolated_subscribers cs)))
    by (destruct cs; reflexivity).
  rewrite dict_get_pop_all. unfold assign_all.
  rewrite dict_get_assign_all, last_assigned_rev. reflexivity.
Qed.

(** *** What the replay delivers, and to whom *)

Lemma filter_flat_map {A B : Type} (f : B -> bool) (g : A -> list B)
  (l : list A) :
  filter f (flat_map g l) = flat_map (fun x => filter f (g x)) l.
Proof.
  induction l as [ | x l IH]; cbn [flat_map]; [ reflexivity | ].
  rewrite filter_app, IH. reflexivity.
Qed.

Lemma at_class_the_call (cls a : SignalClass) (args : pyargs)
  (target : option ident) (kwargs : pykwargs) (d : Data) :
  at_class cls (the_call a args target kwargs d)
  = if eq_dec a cls then true else false.
Proof. unfold at_class. rewrite call_cls_the_call. reflexivity. Qed.

(** The calls of a dispatch are made by the class and its ancestors. *)
Lemma invoke_calls_classes (fuel : nat) (r : SignalClass -> ClassState)
  (cls c : SignalClass) (args : pyargs) (target : option ident)
  (kwargs : pykwargs) :
  ~ In c (cls :: ancestors cls) ->
  filter (at_class c) (invoke_calls fuel r cls args None target kwargs) = [].
Proof.
  intros Hout. apply filter_none.
  eapply Forall_impl;
    [ | apply invoke_calls_sources with (R := fun _ _ => True) ].
  - intros x [a [d [Ha [_ ->]]]]. rewrite at_class_the_call.
    destruct (eq_dec a c) as [-> | ]; [ contradiction | reflexivity ].
  - discriminate.
  - rewrite Forall_forall. intros a _. split; rewrite Forall_forall; trivial.
Qed.

Lemma replay_calls_own (fuel : nat) (r : SignalClass -> ClassState)
  (cls : SignalClass) (i : ident) (d : Data) (k : list CacheEntry) :
  is_cached cls = true ->
  filter (at_class cls) (replay_calls fuel r cls i d k)
  = map (cached_call cls d) k.
Proof.
  intros Hc. unfold replay_calls. rewrite Hc.
  induction k as [ | [[a t] kw] k IH]; cbn [flat_map map]; [ reflexivity | ].
  rewrite filter_app, IH. f_equal.
  destruct cls as [ | name base]; [ discriminate | ].
  cbn [invoke_calls]. unfold own_calls. rewrite Hc.
  rewrite filter_app, invoke_calls_classes
    by apply (not_own_ancestor (Derived name base)).
  unfold general_calls. cbn [dict_set dict_values map filter].
  rewrite at_class_the_call.
  destruct (eq_dec (Derived name base) (Derived name base)); [ | congruence ].
  reflexivity.
Qed.

(** A dispatch calls every global subscriber of every class it escalates
    to. *)
Lemma invoke_calls_reach (fuel : nat) (r : SignalClass -> ClassState) :
  forall cls a args sd target kwargs da,
    In a (ancestors cls) ->
    In da (dict_values (subscribers (r a))) ->
    In (the_call a args target kwargs da)
      (invoke_calls fuel r cls args sd target kwargs).
Proof.
  assert (Hself : forall cls args target kwargs da,
             In da (dict_values (subscribers (r cls))) ->
             In (the_call cls args target kwargs da)
               (invoke_calls fuel r cls args None target kwargs)).
  { intros cls args target kwargs da Hin.
    assert (Hgen : In (the_call cls args target kwargs da)
                     (general_calls cls (subscribers (r cls)) args target
                        kwargs)).
    { unfold general_calls. apply in_map, Hin. }
    destruct cls as [ | name base]; cbn [invoke_calls]; apply in_or_app; left;
      unfold own_calls.
    - cbn [is_cached]. apply in_or_app. right. exact Hgen.
    - destruct (is_cached (Derived name base)); apply in_or_app; right;
        exact Hgen. }
  induction cls as [ | name base IH]; intros a args sd target kwargs da Ha Hin.
  - contradiction.
  - cbn [invoke_calls]. apply in_or_app. right.
    destruct Ha as [<- | Ha].
    + apply Hself, Hin.
    + apply IH; assumption.
Qed.

(** *** A fresh invocation is cached before it is dispatched *)

Lemma cache_seen_signal (cls a : SignalClass) (k : list CacheEntry)
  (s0 t : State) (args : pyargs) (target : option ident) (kwargs : pykwargs)
  (cb : Callback) (ss st : bool) :
  cache_seen cls k s0 t ->
  cache_seen cls k s0 (invoke_signal a args target kwargs cb ss st t).
Proof.
  intros [Hk [new [Hlog Hall]]].
  destruct (invoke_signal_log a args target kwargs cb ss st t) as [L K].
  split; [ rewrite K; exact Hk | ].
  eexists. split.
  - rewrite L, Hlog, <- app_assoc. reflexivity.
  - apply Forall_app. split; [ exact Hall | ].
    constructor; [ exact Hk | constructor ].
Qed.

Lemma fresh_invoke_cached_first (fuel : nat) (cls : SignalClass)
  (args : pyargs) (target : option ident) (kwargs : pykwargs) (s s' : State) :
  is_cached cls = true ->
  invoke fuel cls args None target kwargs s = Some s' ->
  cache_seen cls (caches s cls ++ [(args, target, kwargs)]) s s'.
Proof.
  intros Hc Hrun.
  destruct cls as [ | name base]; [ discriminate | ].
  cbn [invoke] in Hrun. rewrite Hc in Hrun.
  set (cls := Derived name base) in *.
  set (k := caches s cls ++ [(args, target, kwargs)]).
  set (s0 := cache_append cls (args, target, kwargs) s) in *.
  assert (H0 : cache_seen cls k s s0).
  { split; [ subst s0; cbn [cache_append caches]; apply upd_same | ].
    exists []. split; [ subst s0; cbn; now rewrite app_nil_r | constructor ]. }
  clearbody s0.
  destruct (invoke_targets fuel cls _ args target None kwargs s0)
    as [s1 | ] eqn:E; [ | discriminate ].
  assert (H1 : cache_seen cls k s s1).
  { revert E. apply invoke_targets_inv
      with (P := cache_seen cls k s) (Q := fun _ => True) (C := fun _ => True);
      [ | trivial | trivial | exact H0 ].
    intros a ar tg kw cb ss st t _ _. apply cache_seen_signal. }
  assert (H2 : cache_seen cls k s
                 (invoke_general cls (subscribers (regs s1 cls)) args target
                    kwargs s1)).
  { apply invoke_general_inv
      with (P := cache_seen cls k s) (Q := fun _ => True) (C := fun _ => True);
      [ | trivial | rewrite Forall_forall; trivial | exact H1 ].
    intros a ar tg kw cb ss st t _ _. apply cache_seen_signal. }
  revert Hrun. apply invoke_inv
    with (P := cache_seen cls k s) (Q := fun _ => True)
         (C := fun a => a <> cls).
  - intros a ar tg kw cb ss st t _ _. apply cache_seen_signal.
  - trivial.
  - trivial.
  - intros t a e Ha _ [Hk Hlog]. split; [ | exact Hlog ].
    cbn [cache_append caches]. rewrite upd_other; [ exact Hk | ].
    intros ->. apply Ha. reflexivity.
  - intros a Ha ->. apply (not_own_ancestor cls). exact Ha.
  - discriminate.
  - exact H2.
Qed.

(** *** What a batch of [subscribe] and [unsubscribe] stages *)

Section SetFacts.
Context {A : Type} `{EqDec A}.

Lemma set_mem_In (x : A) (l : list A) : set_mem x l = true <-> In x l.
Proof.
  induction l as [ | y l IH]; cbn [set_mem In].
  - split; [ discriminate | contradiction ].
  - destruct (eq_dec x y) as [-> | Hne].
    + split; auto.
    + rewrite IH. split; [ auto | intros [Heq | Hin]; congruence ].
Qed.

Lemma set_add_In (x y : A) (l : list A) :
  In x (set_add y l) <-> x = y \/ In x l.
Proof.
  unfold set_add. destruct (set_mem y l) eqn:E.
  - apply set_mem_In in E. split; [ auto | intros [-> | Hin]; auto ].
  - rewrite in_app_iff. cbn [In]. split.
    + intros [Hin | [-> | []]]; auto.
    + intros [-> | Hin]; auto.
Qed.

Lemma set_add_NoDup (y : A) (l : list A) : NoDup l -> NoDup (set_add y l).
Proof.
  intros Hnd. unfold set_add. destruct (set_mem y l) eqn:E; [ exact Hnd | ].
  assert (Hnot : ~ In y l).
  { intros Hin. apply set_mem_In in Hin. congruence. }
  clear E. induction Hnd as [ | z l Hz Hnd IH]; cbn [app].
  - constructor; [ intros [] | constructor ].
  - constructor.
    + rewrite in_app_iff. cbn [In]. intros [Hin | [<- | []]].
      * contradiction.
      * apply Hnot. now left.
    + apply IH. intros Hin. apply Hnot. now right.
Qed.

Lemma set_remove_In (x : A) (l : list A) :
  In x l ->
  exists r,
    set_remove x l = Some r /\ forall y, y <> x -> In y l -> In y r.
Proof.
  induction l as [ | z l IH]; cbn [In set_remove]; intros Hin; [ contradiction | ].
  destruct (eq_dec x z) as [-> | Hne].
  - exists l. split; [ reflexivity | ].
    intros y Hy [-> | Hl]; [ congruence | exact Hl ].
  - destruct Hin as [-> | Hin]; [ congruence | ].
    destruct (IH Hin) as [r [E Hr]]. rewrite E.
    exists (z :: r). split; [ reflexivity | ].
    intros y Hy [-> | Hl]; [ now left | right; apply Hr; assumption ].
Qed.
End SetFacts.

Lemma assign_all_app {V : Type} (l1 l2 : list (ident * V)) (d : dict ident V) :
  assign_all (l1 ++ l2) d = assign_all l2 (assign_all l1 d).
Proof. unfold assign_all. apply fold_left_app. Qed.

Lemma declares_true (c sc : SignalClass) (ctx b : bool) :
  declares c ctx (sc, b) = true <-> sc = c /\ b = ctx.
Proof.
  unfold declares. cbn [fst snd].
  destruct (eq_dec sc c) as [-> | Hne]; cbn [andb].
  - rewrite Bool.eqb_true_iff. tauto.
  - split; [ discriminate | intros [? _]; contradiction ].
Qed.

Lemma declares_other (c sc : SignalClass) (ctx b : bool) :
  sc <> c -> declares c ctx (sc, b) = false.
Proof.
  intros Hne. unfold declares. cbn [fst].
  destruct (eq_dec sc c); [ contradiction | reflexivity ].
Qed.

Lemma declares_same (c : SignalClass) (ctx b : bool) :
  declares c ctx (c, b) = Bool.eqb b ctx.
Proof.
  unfold declares. cbn [fst snd].
  destruct (eq_dec c c); [ reflexivity | congruence ].
Qed.

(** What a projection of the class attributes becomes under [set_reg]. *)
Lemma set_reg_proj {A : Type} (f : ClassState -> A) (c sc : SignalClass)
  (cs : ClassState) (s : State) :
  f (regs (set_reg sc cs s) c) = if eq_dec c sc then f cs else f (regs s c).
Proof.
  cbn [set_reg regs]. unfold upd. destruct (eq_dec c sc); reflexivity.
Qed.

Lemma remove_parent_proj {A : Type} (f : ClassState -> A) :
  (forall v cs, f (with_to_remove_child v cs) = f cs) ->
  forall sc a b t c, f (regs (remove_parent sc a b t) c) = f (regs t c).
Proof.
  intros Hf sc a b t c. unfold remove_parent. rewrite set_reg_proj.
  destruct (eq_dec c sc) as [-> | ]; [ apply Hf | reflexivity ].
Qed.

Lemma fold_left_proj {A B : Type} (f : ClassState -> A) (c : SignalClass)
  (step : State -> B -> State) (l : list B) :
  (forall t x, f (regs (step t x) c) = f (regs t c)) ->
  forall s, f (regs (fold_left step l s) c) = f (regs s c).
Proof.
  intros Hstep s.
  apply fold_left_inv with (P := fun t => f (regs t c) = f (regs s c)).
  - intros t x _ Ht. rewrite Hstep. exact Ht.
  - reflexivity.
Qed.

(** The part of [unsubscribe_one] that stages child removals keeps [f]. *)
Lemma unsubscribe_one_proj {A : Type} (f : ClassState -> A) :
  (forall v cs, f (with_to_remove_child v cs) = f cs) ->
  forall i s sc ctx c,
    f (regs (unsubscribe_one i s (sc, ctx)) c)
    = f (regs
           (if ctx
            then set_reg sc
                   (with_to_unsubscribe_global
                      (to_unsubscribe_global (regs s sc) ++ [i]) (regs s sc)) s
            else set_reg sc
                   (with_to_unsubscribe_context
                      (to_unsubscribe_context (regs s sc) ++ [i]) (regs s sc))
                   s) c).
Proof.
  intros Hf i s sc ctx c. unfold unsubscribe_one.
  set (s1 := if ctx then _ else _).
  rewrite fold_left_proj.
  - destruct (dict_get i (children (regs s1 sc))); [ | reflexivity ].
    apply fold_left_proj. intros t child. apply remove_parent_proj, Hf.
  - intros t [parent next_children].
    destruct (set_mem i next_children); [ | reflexivity ].
    apply remove_parent_proj, Hf.
Qed.

Lemma queues_inv (cs : ClassState) (g x : dict ident Data) (uc ug : list ident) :
  queues cs = (g, x, uc, ug) ->
  to_subscribe_global cs = g /\ to_subscribe_context cs = x /\
  to_unsubscribe_context cs = uc /\ to_unsubscribe_global cs = ug.
Proof. unfold queues. intros H. injection H as H1 H2 H3 H4. auto. Qed.

Lemma queues_subscribe_step (c : SignalClass) (i : ident) (data : Data)
  (s : State) (sc : SignalClass) (ctx : bool) :
  queues
    (regs
       (if ctx
        then set_reg sc
               (with_to_subscribe_context
                  (dict_set i data (to_subscribe_context (regs s sc)))
                  (regs s sc)) s
        else set_reg sc
               (with_to_subscribe_global
                  (dict_set i data (to_subscribe_global (regs s sc)))
                  (regs s sc)) s) c)
  = (assign_all (if declares c false (sc, ctx) then [(i, data)] else [])
       (to_subscribe_global (regs s c)),
     assign_all (if declares c true (sc, ctx) then [(i, data)] else [])
       (to_subscribe_context (regs s c)),
     to_unsubscribe_context (regs s c),
     to_unsubscribe_global (regs s c)).
Proof.
  destruct (eq_dec sc c) as [-> | Hne].
  - rewrite !declares_same.
    destruct ctx; rewrite set_reg_same; destruct (regs s c); reflexivity.
  - rewrite !declares_other by exact Hne.
    destruct ctx; rewrite set_reg_other by congruence; reflexivity.
Qed.

Lemma queues_subscribe (c : SignalClass) (i : ident) (cb : Callback)
  (s : State) :
  queues (regs (subscribe i cb s) c)
  = (assign_all (subscribed_by c false (StSubscribe i cb))
       (to_subscribe_global (regs s c)),
     assign_all (subscribed_by c true (StSubscribe i cb))
       (to_subscribe_context (regs s c)),
     to_unsubscribe_context (regs s c),
     to_unsubscribe_global (regs s c)).
Proof.
  unfold subscribe, subscribed_by. fold (data_of cb).
  generalize (get_signals cb) as sigs. intros sigs. revert s.
  induction sigs as [ | [sc ctx] sigs IH]; intros s; cbn [fold_left flat_map].
  - reflexivity.
  - rewrite IH. cbv beta iota. rewrite !assign_all_app.
    pose proof (queues_subscribe_step c i (data_of cb) s sc ctx) as Hstep.
    destruct (queues_inv Hstep) as (H1 & H2 & H3 & H4). unfold queues.
    rewrite H1, H2, H3, H4. reflexivity.
Qed.

Lemma queues_unsubscribe_step (c : SignalClass) (i : ident) (s : State)
  (sc : SignalClass) (ctx : bool) :
  queues (regs (unsubscribe_one i s (sc, ctx)) c)
  = (to_subscribe_global (regs s c),
     to_subscribe_context (regs s c),
     to_unsubscribe_context (regs s c)
       ++ (if declares c false (sc, ctx) then [i] else []),
     to_unsubscribe_global (regs s c)
       ++ (if declares c true (sc, ctx) then [i] else [])).
Proof.
  rewrite (unsubscribe_one_proj queues) by (intros v cs; reflexivity).
  destruct (eq_dec sc c) as [-> | Hne].
  - rewrite !declares_same.
    destruct ctx; rewrite set_reg_same; destruct (regs s c); cbn;
      rewrite ?app_nil_r; reflexivity.
  - rewrite !declares_other by exact Hne.
    destruct ctx; rewrite set_reg_other by congruence;
      rewrite !app_nil_r; reflexivity.
Qed.

Lemma queues_unsubscribe (c : SignalClass) (i : ident) (cb : Callback)
  (s : State) :
  queues (regs (unsubscribe i cb s) c)
  = (to_subscribe_global (regs s c),
     to_subscribe_context (regs s c),
     to_unsubscribe_context (regs s c)
       ++ unsubscribed_by c false (StUnsubscribe i cb),
     to_unsubscribe_global (regs s c)
       ++ unsubscribed_by c true (StUnsubscribe i cb)).
Proof.
  unfold unsubscribe, unsubscribed_by.
  generalize (get_signals cb) as sigs. intros sigs. revert s.
  induction sigs as [ | [sc ctx] sigs IH]; intros s; cbn [fold_left flat_map].
  - unfold queues. rewrite !app_nil_r. reflexivity.
  - rewrite IH.
    pose proof (queues_unsubscribe_step c i s sc ctx) as Hstep.
    destruct (queues_inv Hstep) as (H1 & H2 & H3 & H4). unfold queues.
    rewrite H1, H2, H3, H4, !app_assoc. reflexivity.
Qed.

(** The queues of [cls] after a batch. *)
Lemma queues_stage (c : SignalClass) (batch : list Staged) :
  forall s,
    queues (regs (stage batch s) c)
    = (assign_all (subscribed c false batch) (to_subscribe_global (regs s c)),
       assign_all (subscribed c true batch) (to_subscribe_context (regs s c)),
       to_unsubscribe_context (regs s c) ++ unsubscribed c false batch,
       to_unsubscribe_global (regs s c) ++ unsubscribed c true batch).
Proof.
  unfold stage, subscribed, unsubscribed.
  induction batch as [ | op batch IH]; intros s; cbn [fold_left flat_map].
  - unfold queues. rewrite !app_nil_r. reflexivity.
  - rewrite IH. rewrite !assign_all_app.
    assert (Hop : queues (regs (stage_one s op) c)
                  = (assign_all (subscribed_by c false op)
                       (to_subscribe_global (regs s c)),
                     assign_all (subscribed_by c true op)
                       (to_subscribe_context (regs s c)),
                     to_unsubscribe_context (regs s c)
                       ++ unsubscribed_by c false op,
                     to_unsubscribe_global (regs s c)
                       ++ unsubscribed_by c true op)).
    { destruct op as [i cb | i cb]; cbn [stage_one].
      - rewrite queues_subscribe. cbn [unsubscribed_by].
        rewrite !app_nil_r. reflexivity.
      - rewrite queues_unsubscribe. reflexivity. }
    destruct (queues_inv Hop) as (H1 & H2 & H3 & H4). unfold queues.
    rewrite H1, H2, H3, H4, !app_assoc. reflexivity.
Qed.

(** *** The child removals a batch stages can all be applied *)

Lemma dict_get_unique {V : Type} (k : ident) (v : V) (d : dict ident V) :
  NoDup (dict_keys d) -> In (k, v) d -> dict_get k d = Some v.
Proof.
  induction d as [ | [k' v'] d IH]; cbn [dict_keys map dict_get In];
    intros Hnd Hin; [ contradiction | ].
  inversion Hnd as [ | x l Hnot Hnd' ]; subst.
  destruct Hin as [[= -> ->] | Hin].
  - destruct (eq_dec k k); congruence.
  - destruct (eq_dec k k') as [-> | _]; [ | apply IH; assumption ].
    exfalso. apply Hnot. change k' with (fst (k', v)). apply in_map, Hin.
Qed.

Lemma remove_children_ok (edges : list (ident * ident)) :
  forall forest,
    NoDup edges -> edges_present edges forest ->
    exists f, remove_children edges forest = inl f.
Proof.
  induction edges as [ | [child parent] edges IH]; intros forest Hnd Hpres;
    cbn [remove_children]; [ eauto | ].
  inversion Hnd as [ | x l Hnot Hnd' ]; subst.
  destruct (Hpres child parent (or_introl eq_refl)) as [kids [Hget Hin]].
  rewrite Hget.
  destruct (set_remove_In child kids Hin) as [rest [Hrem Hrest]].
  rewrite Hrem.
  assert (Hnext : forall forest',
             (forall p, p <> parent -> dict_get p forest' = dict_get p forest) ->
             (rest <> [] -> dict_get parent forest' = Some rest) ->
             edges_present edges forest').
  { intros forest' Hother Hsame ch p Hedge.
    destruct (Hpres ch p (or_intror Hedge)) as [kids' [Hget' Hin']].
    destruct (eq_dec p parent) as [-> | Hp].
    - assert (kids' = kids) by congruence. subst kids'.
      assert (Hch : ch <> child).
      { intros ->. apply Hnot, Hedge. }
      pose proof (Hrest ch Hch Hin') as Hin_rest.
      exists rest. split; [ | exact Hin_rest ].
      apply Hsame. intros ->. contradiction.
    - exists kids'. split; [ | exact Hin' ].
      rewrite Hother by exact Hp. exact Hget'. }
  destruct rest as [ | r rest].
  - apply IH; [ exact Hnd' | ]. apply Hnext.
    + intros p Hp. rewrite dict_get_pop.
      destruct (eq_dec p parent); [ contradiction | reflexivity ].
    + congruence.
  - apply IH; [ exact Hnd' | ]. apply Hnext.
    + intros p Hp. rewrite dict_get_set.
      destruct (eq_dec p parent); [ contradiction | reflexivity ].
    + intros _. rewrite dict_get_set.
      destruct (eq_dec parent parent); congruence.
Qed.

Lemma removal_inv_set_reg (c sc : SignalClass) (cs : ClassState) (s t : State) :
  to_add_child cs = to_add_child (regs t sc) ->
  to_remove_child cs = to_remove_child (regs t sc) ->
  removal_inv c s t -> removal_inv c s (set_reg sc cs t).
Proof.
  intros Ha Hr (A & B & D). unfold removal_inv.
  rewrite (set_reg_proj to_add_child), (set_reg_proj to_remove_child).
  destruct (eq_dec c sc) as [-> | ]; [ | auto ].
  rewrite Ha, Hr. auto.
Qed.

Lemma removal_inv_remove_parent (c sc : SignalClass) (child parent : ident)
  (s t : State) :
  (sc = c ->
   exists kids,
     dict_get parent (children (regs s c)) = Some kids /\ In child kids) ->
  removal_inv c s t -> removal_inv c s (remove_parent sc child parent t).
Proof.
  intros Hedge (A & B & D). unfold removal_inv, remove_parent.
  rewrite (set_reg_proj to_add_child), (set_reg_proj to_remove_child).
  destruct (eq_dec c sc) as [-> | ]; [ | auto ].
  destruct (regs t sc) eqn:E; cbn in *.
  split; [ exact A | ]. split; [ apply set_add_NoDup, B | ].
  intros ch p Hin. apply set_add_In in Hin.
  destruct Hin as [[= -> ->] | Hin]; [ apply Hedge; reflexivity | apply D, Hin ].
Qed.

Lemma removal_inv_unsubscribe_one (c : SignalClass) (i : ident) (s t : State)
  (sig : SignalClass * bool) :
  NoDup (dict_keys (children (regs s c))) ->
  children (regs t c) = children (regs s c) ->
  removal_inv c s t -> removal_inv c s (unsubscribe_one i t sig).
Proof.
  intros Hkeys Hch Hinv. destruct sig as [sc ctx]. unfold unsubscribe_one.
  set (s1 := if ctx then _ else _).
  assert (H1 : removal_inv c s s1 /\
               children (regs s1 sc) = children (regs t sc)).
  { subst s1. destruct ctx; (split;
      [ apply removal_inv_set_reg; [ | | exact Hinv ];
        destruct (regs t sc); reflexivity
      | rewrite set_reg_same; destruct (regs t sc); reflexivity ]). }
  destruct H1 as [Hinv1 Hch1]. clearbody s1. rewrite Hch1.
  set (s2 := match dict_get i (children (regs t sc)) with
             | Some kids => _
             | None => s1
             end).
  assert (H2 : removal_inv c s s2).
  { subst s2. destruct (dict_get i (children (regs t sc))) as [kids | ] eqn:E;
      [ | exact Hinv1 ].
    apply fold_left_inv with (P := removal_inv c s); [ | exact Hinv1 ].
    intros u child Hin Hu. apply removal_inv_remove_parent; [ | exact Hu ].
    intros ->. exists kids. split; [ congruence | exact Hin ]. }
  clearbody s2.
  apply fold_left_inv with (P := removal_inv c s); [ | exact H2 ].
  intros u [parent next_children] Hin Hu.
  destruct (set_mem i next_children) eqn:Emem; [ | exact Hu ].
  apply removal_inv_remove_parent; [ | exact Hu ].
  intros ->. exists next_children. split.
  - rewrite Hch in Hin. apply dict_get_unique; assumption.
  - apply set_mem_In, Emem.
Qed.

Lemma stage_frozen (batch : list Staged) (s : State) :
  frozen s (stage batch s).
Proof.
  unfold stage. apply fold_left_frozen.
  intros t [i cb | i cb]; [ apply subscribe_frozen | apply unsubscribe_frozen ].
Qed.

Lemma stage_untouched (batch : list Staged) (s : State) :
  untouched s (stage batch s).
Proof.
  unfold stage. apply fold_left_untouched.
  intros t [i cb | i cb].
  - apply (run_op_untouched t (OpSubscribe i cb)).
  - apply (run_op_untouched t (OpUnsubscribe i cb)).
Qed.

Lemma removal_inv_stage (c : SignalClass) (batch : list Staged) (s : State) :
  NoDup (dict_keys (children (regs s c))) ->
  removal_inv c s s ->
  removal_inv c s (stage batch s).
Proof.
  intros Hkeys Hinv.
  assert (H : frozen s (stage batch s) /\ removal_inv c s (stage batch s));
    [ | apply H ].
  unfold stage.
  apply fold_left_inv
    with (P := fun t => frozen s t /\ removal_inv c s t);
    [ | split; [ apply frozen_refl | exact Hinv ] ].
  intros t op _ [Hf Hi]. split.
  - eapply frozen_trans; [ exact Hf | ].
    destruct op; [ apply subscribe_frozen | apply unsubscribe_frozen ].
  - destruct op as [i cb | i cb]; cbn [stage_one].
    + unfold subscribe.
      apply fold_left_inv with (P := removal_inv c s); [ | exact Hi ].
      intros u [sc ctx] _ Hu.
      destruct ctx; apply removal_inv_set_reg; try exact Hu;
        destruct (regs u sc); reflexivity.
    + unfold unsubscribe.
      assert (H : frozen t (fold_left (unsubscribe_one i) (get_signals cb) t)
                  /\ removal_inv c s
                       (fold_left (unsubscribe_one i) (get_signals cb) t));
        [ | apply H ].
      apply fold_left_inv
        with (P := fun u => frozen t u /\ removal_inv c s u);
        [ | split; [ apply frozen_refl | exact Hi ] ].
      intros u sig _ [Hfu Hu]. split.
      * eapply frozen_trans; [ exact Hfu | apply unsubscribe_one_frozen ].
      * apply removal_inv_unsubscribe_one; [ exact Hkeys | | exact Hu ].
        rewrite (frozen_children c Hfu). apply (frozen_children c Hf).
Qed.

(** *** The net effect of a batch *)

Lemma dict_set_length {V : Type} (k : ident) (v : V) (d : dict ident V) :
  List.length (dict_set k v d) <= S (List.length d).
Proof.
  induction d as [ | [k' v'] d IH]; cbn [dict_set List.length]; [ lia | ].
  destruct (eq_dec k k'); cbn [List.length]; lia.
Qed.

Lemma assign_all_length {V : Type} (l : list (ident * V)) (d : dict ident V) :
  List.length (assign_all l d) <= List.length d + List.length l.
Proof.
  unfold assign_all. revert d.
  induction l as [ | [k v] l IH]; intros d; cbn [fold_left List.length fst snd].
  - lia.
  - specialize (IH (dict_set k v d)).
    pose proof (dict_set_length k v d). lia.
Qed.

Lemma last_assigned_In {V : Type} (i : ident) (l : list (ident * V)) (v : V) :
  last_assigned i l = Some v -> In (i, v) l.
Proof.
  induction l as [ | [k w] l IH]; cbn [last_assigned In]; [ discriminate | ].
  destruct (last_assigned i l) as [w' | ].
  - intros [= ->]. right. apply IH. reflexivity.
  - destruct (eq_dec i k) as [-> | ]; [ | discriminate ].
    intros [= ->]. now left.
Qed.

Lemma last_assigned_None {V : Type} (i : ident) (l : list (ident * V)) :
  last_assigned i l = None -> forall v, ~ In (i, v) l.
Proof.
  induction l as [ | [k w] l IH]; cbn [last_assigned In]; [ tauto | ].
  destruct (last_assigned i l) as [w' | ]; [ discriminate | ].
  destruct (eq_dec i k) as [-> | Hne]; [ discriminate | ].
  intros _ v [[= -> ->] | Hin]; [ congruence | ].
  exact (IH eq_refl v Hin).
Qed.

Lemma last_assigned_perm {V : Type} (i : ident) (l l' : list (ident * V)) :
  (forall j d d', In (j, d) l -> In (j, d') l -> d = d') ->
  Permutation l l' ->
  last_assigned i l' = last_assigned i l.
Proof.
  intros Hcons Hperm.
  destruct (last_assigned i l') as [d' | ] eqn:E';
    destruct (last_assigned i l) as [d | ] eqn:E; try reflexivity.
  - apply last_assigned_In in E', E.
    apply (Permutation_in _ (Permutation_sym Hperm)) in E'.
    f_equal. eapply Hcons; eassumption.
  - apply last_assigned_In in E'.
    apply (Permutation_in _ (Permutation_sym Hperm)) in E'.
    exfalso. exact (last_assigned_None _ _ E _ E').
  - apply last_assigned_In in E.
    apply (Permutation_in _ Hperm) in E.
    exfalso. exact (last_assigned_None _ _ E' _ E).
Qed.

Lemma set_mem_perm (i : ident) (l l' : list ident) :
  Permutation l l' -> set_mem i l' = set_mem i l.
Proof.
  intros Hperm.
  destruct (set_mem i l') eqn:E'; destruct (set_mem i l) eqn:E; try reflexivity.
  - apply set_mem_In in E'.
    apply (Permutation_in _ (Permutation_sym Hperm)) in E'.
    apply set_mem_In in E'. congruence.
  - apply set_mem_In in E. apply (Permutation_in _ Hperm) in E.
    apply set_mem_In in E. congruence.
Qed.

Lemma net_effect_perm (cls : SignalClass) (ctx : bool)
  (batch batch' : list Staged) (old : dict ident Data) (i : ident) :
  Permutation batch batch' ->
  consistent (subscribed cls ctx batch) ->
  net_effect cls ctx batch' old i = net_effect cls ctx batch old i.
Proof.
  intros Hperm Hcons. unfold net_effect.
  rewrite (@set_mem_perm i (unsubscribed cls ctx batch)
             (unsubscribed cls ctx batch'))
    by (apply Permutation_flat_map, Hperm).
  rewrite (@last_assigned_perm _ i (subscribed cls ctx batch)
             (subscribed cls ctx batch'));
    [ reflexivity | exact Hcons | apply Permutation_flat_map, Hperm ].
Qed.

Lemma net_effect_unsubscribed (cls : SignalClass) (ctx : bool)
  (batch : list Staged) (old : dict ident Data) (i : ident) :
  In i (unsubscribed cls ctx batch) -> net_effect cls ctx batch old i = None.
Proof.
  intros Hin. unfold net_effect. apply set_mem_In in Hin. now rewrite Hin.
Qed.

(** The flush of a batch staged over empty queues. *)
Lemma flush_of_batch (fuel : nat) (cls : SignalClass) (batch : list Staged)
  (s : State) :
  queues (regs s cls) = ([], [], [], []) ->
  to_add_child (regs s cls) = [] ->
  to_remove_child (regs s cls) = [] ->
  NoDup (dict_keys (children (regs s cls))) ->
  replay_ready fuel cls (stage batch s) ->
  List.length (subscribed cls false batch) <= fuel ->
  List.length (subscribed cls true batch) <= fuel ->
  exists s',
    update_state fuel cls (stage batch s) = Returned s' /\
    (forall i,
        dict_get i (subscribers (regs s' cls))
        = net_effect cls false batch (subscribers (regs s cls)) i) /\
    (forall i,
        dict_get i (isolated_subscribers (regs s' cls))
        = net_effect cls true batch (isolated_subscribers (regs s cls)) i).
Proof.
  intros Hq Hadd Hrem Hkeys Hready Hg Hx.
  set (st := stage batch s) in *.
  destruct (queues_inv Hq) as (Q1 & Q2 & Q3 & Q4).
  pose proof (queues_stage cls batch s) as Hst. fold st in Hst.
  rewrite Q1, Q2, Q3, Q4 in Hst. cbn [app] in Hst.
  destruct (queues_inv Hst) as (S1 & S2 & S3 & S4).
  pose proof (stage_frozen batch s) as Hfr. fold st in Hfr.
  assert (Hinv : removal_inv cls s st).
  { apply removal_inv_stage; [ exact Hkeys | ].
    split; [ reflexivity | ]. rewrite Hrem. split; [ constructor | ].
    intros ch p []. }
  destruct Hinv as (Ha & Hnd & Hpres). rewrite Hadd in Ha.
  destruct (@update_state_spec fuel cls st (or_intror Hready))
    as [s2 (E & R & _ & _)].
  { rewrite S1. pose proof (assign_all_length (subscribed cls false batch) []).
    cbn [List.length] in *. lia. }
  { rewrite S2. pose proof (assign_all_length (subscribed cls true batch) []).
    cbn [List.length] in *. lia. }
  rewrite E, R. unfold finish.
  replace (to_remove_child
             (after_queues (applied true (applied false (regs st cls)))))
    with (to_remove_child (regs st cls)) by (destruct (regs st cls); reflexivity).
  replace (children
             (after_queues (applied true (applied false (regs st cls)))))
    with (children (regs s cls)).
  2:{ rewrite <- (frozen_children cls Hfr).
      destruct (regs st cls); cbn in *. subst. reflexivity. }
  destruct (remove_children_ok Hnd Hpres) as [f Hf]. rewrite Hf.
  eexists. split; [ reflexivity | ]. rewrite set_reg_same.
  split; intros i.
  - replace (subscribers
               (with_to_remove_child []
                  (with_children f
                     (after_queues (applied true (applied false (regs st cls)))))))
      with (subscribers
              (after_queues (applied true (applied false (regs st cls)))))
      by reflexivity.
    rewrite flushed_subscribers, S1, S3, (frozen_subscribers cls Hfr).
    unfold net_effect, assign_all. rewrite dict_get_assign_all.
    destruct (last_assigned i (subscribed cls false batch)); reflexivity.
  - replace (isolated_subscribers
               (with_to_remove_child []
                  (with_children f
                     (after_queues (applied true (applied false (regs st cls)))))))
      with (isolated_subscribers
              (after_queues (applied true (applied false (regs st cls)))))
      by reflexivity.
    rewrite flushed_isolated, S2, S4, (frozen_isolated cls Hfr).
    unfold net_effect, assign_all. rewrite dict_get_assign_all.
    destruct (last_assigned i (subscribed cls true batch)); reflexivity.
Qed.

(** *** The claims about the signal system *)

Import SignalScenarios.

(** C1. On every signal class, [subscribe], [unsubscribe], [set_parent]
    and [remove_parent] leave the live registry ([subscribers],
    [isolated_subscribers], [children]) of every class as it is: they only
    stage.  So does a whole [invoke], whatever its callbacks stage on the
    way: every callback of the dispatch is entered with the live registry
    the dispatch started with, and the dispatch ends with it.  A dispatch
    over forests shallow enough for the recursion limit does return. *)
Theorem staged_mutations_leave_live_registry :
  (forall i cb s c, live (regs (subscribe i cb s) c) = live (regs s c)) /\
  (forall i cb s c, live (regs (unsubscribe i cb s) c) = live (regs s c)) /\
  (forall cls i p s c,
      live (regs (set_parent cls i p s) c) = live (regs s c)) /\
  (forall cls i p s c,
      live (regs (remove_parent cls i p s) c) = live (regs s c)) /\
  (forall fuel cls args subscriber_data target kwargs s s',
      invoke fuel cls args subscriber_data target kwargs s = Some s' ->
      (forall c, live (regs s' c) = live (regs s c)) /\
      exists new,
        log s' = log s ++ new /\
        forall e, In e new -> forall c, live (ev_regs e c) = live (regs s c)) /\
  (forall fuel cls args target kwargs s,
      forallb (fun a => targets_ok fuel (children (regs s a)) target)
        (cls :: ancestors cls) = true ->
      invoke fuel cls args None target kwargs s <> None).
Proof.
  split; [ | split; [ | split; [ | split; [ | split ] ] ] ].
  - intros i cb s. apply (subscribe_frozen i cb s).
  - intros i cb s. apply (unsubscribe_frozen i cb s).
  - intros cls i p s. apply (set_parent_frozen cls i p s).
  - intros cls i p s. apply (remove_parent_frozen cls i p s).
  - intros fuel cls args sd target kwargs s s' H.
    destruct (invoke_frozen _ _ _ _ _ _ _ H) as [L [new [E F]]].
    split; [ exact L | ].
    exists new. split; [ exact E | ].
    rewrite Forall_forall in F. exact F.
  - intros fuel cls args target kwargs s Hok.
    cbn [forallb] in Hok. apply andb_prop in Hok. destruct Hok as [Hself Hanc].
    destruct (@invoke_returns fuel cls args None target kwargs s)
      as [s' [E _]]; auto.
    congruence.
Qed.

Lemma staged_mutations_leave_live_registry_witness :
  exists s',
    invoke 2 DisconnectSignal [VInt 7] None (Some 1) [] meddling_state = Some s' /\
    (forall c, live (regs s' c) = live (regs meddling_state c)) /\
    exists new,
      log s' = log meddling_state ++ new /\
      forall e, In e new ->
        forall c, live (ev_regs e c) = live (regs meddling_state c).
Proof.
  destruct (invoke 2 DisconnectSignal [VInt 7] None (Some 1) [] meddling_state)
    as [s' | ] eqn:E; [ | vm_compute in E; discriminate ].
  exists s'. split; [ reflexivity | ].
  destruct staged_mutations_leave_live_registry as (_ & _ & _ & _ & H & _).
  exact (H _ _ _ _ _ _ _ _ E).
Defined.




Lemma replicated_state_ready :
  replay_ready 2 ReplicableRegisteredSignal replicated_state.
Proof.
  right. right. split; [ | split ].
  - repeat constructor.
  - repeat constructor.
  - repeat constructor.
Qed.


(** C10. The replay a class below [CachedSignal] makes for a new global
    subscriber escalates: for every cached invocation, every live global
    subscriber of every ancestor class is called again.  Stated, as the
    replay of C3, for a flush whose replayed callbacks stage nothing. *)
Theorem replay_escalates_to_ancestors
  (fuel : nat) (cls : SignalClass) (s : State) (i : ident) (d : Data)
  (Hcached : is_cached cls = true)
  (Hready : replay_ready fuel cls s)
  (Hglobal : List.length (to_subscribe_global (regs s cls)) <= fuel)
  (Hcontext : List.length (to_subscribe_context (regs s cls)) <= fuel)
  (Hnew : In (i, d) (to_subscribe_global (regs s cls))) :
  exists s' new,
    outcome_state (update_state fuel cls s) = Some s' /\
    log s' = log s ++ new /\
    forall a da e,
      In a (ancestors cls) ->
      In da (dict_values (subscribers (regs s a))) ->
      In e (caches s cls) ->
      In (cached_call a da e) (calls new).
Proof.
  destruct (@update_state_spec fuel cls s (or_intror Hready) Hglobal Hcontext)
    as [s2 (E & _ & _ & [new [Hlog Hcalls]])].
  destruct (finish_state cls (after_queues (regs s2 cls)) s2)
    as [s' (Es & _ & _ & _ & Hl)].
  exists s', new. rewrite E. split; [ exact Es | ].
  split; [ congruence | ].
  intros a da [[args target] kwargs] Ha Hda He.
  rewrite Hcalls. apply in_flat_map. exists (i, d). split.
  - apply in_rev in Hnew. exact Hnew.
  - cbn [fst snd]. unfold replay_calls. rewrite Hcached.
    apply in_flat_map. exists (args, target, kwargs). split; [ exact He | ].
    apply invoke_calls_reach; assumption.
Qed.

Lemma replay_escalates_to_ancestors_witness :
  exists s' new,
    outcome_state (update_state 2 ReplicableRegisteredSignal replicated_state)
    = Some s' /\
    log s' = log replicated_state ++ new /\
    forall a da e,
      In a (ancestors ReplicableRegisteredSignal) ->
      In da (dict_values (subscribers (regs replicated_state a))) ->
      In e (caches replicated_state ReplicableRegisteredSignal) ->
      In (cached_call a da e) (calls new).
Proof.
  apply (@replay_escalates_to_ancestors 2 ReplicableRegisteredSignal
           replicated_state 9 (latecomer_callback, false, true)).
  - reflexivity.
  - exact replicated_state_ready.
  - vm_compute. lia.
  - vm_compute. lia.
  - vm_compute. left. reflexivity.
Defined.

(** What [update_state] does with one staged child when nothing else is
    pending: the staged set takes the place of the child set the parent
    had. *)
Lemma staged_child_set_replaces (fuel : nat) (cls : SignalClass) (s : State)
  (parent child : ident) :
  to_subscribe_global (regs s cls) = [] ->
  to_subscribe_context (regs s cls) = [] ->
  to_add_child (regs s cls) = [] ->
  to_remove_child (regs s cls) = [] ->
  exists s',
    update_state fuel cls (set_parent cls child parent s) = Returned s' /\
    dict_get parent (children (regs s' cls)) = Some [child].
Proof.
  intros Hg Hx Ha Hr.
  set (st := set_parent cls child parent s).
  assert (Hst : regs st cls
                = with_to_add_child [(parent, [child])] (regs s cls)).
  { subst st. unfold set_parent. rewrite set_reg_same, Ha. reflexivity. }
  destruct (@update_state_spec fuel cls st) as [s2 (E & R & _)].
  { left. rewrite Hst. destruct (regs s cls); exact Hg. }
  { rewrite Hst. destruct (regs s cls); cbn in *; subst; cbn; lia. }
  { rewrite Hst. destruct (regs s cls); cbn in *; subst; cbn; lia. }
  rewrite E, R, Hst. clear E R Hst.
  destruct (regs s cls); cbn in Hg, Hx, Ha, Hr; subst.
  unfold finish. cbn.
  eexists. split; [ reflexivity | ].
  rewrite set_reg_same. cbn.
  rewrite dict_get_set. destruct (eq_dec parent parent); congruence.
Qed.

(** C5 (the code departs from it).  Parent [1] has the applied child [2];
    staging child [3] with [set_parent] and running [update_state] leaves
    parent [1] with the child set [{3}]: child [2] is gone. *)
Theorem staged_child_drops_applied_children :
  children (regs one_child_state Signal) = [(1, [2])] /\
  match update_state 1 Signal (set_parent Signal 3 1 one_child_state) with
  | Returned s' => children (regs s' Signal) = [(1, [3])]
  | _ => False
  end.
Proof. split; vm_compute; reflexivity. Qed.




End SignalFacts.

(** ** Properties of the path finders *)

Module PathFacts.
Import Py Pathfinding PathScenarios.

(** C6 (the code departs from it).  On [stale_graph] the goal [3] is a
    neighbour of the start [0], yet [find_path] raises [KeyError]: the
    entry of node [2] left in the heap by its relaxation is popped after
    [2] was closed, while [3] is still open, and [open_set.remove] fails.
    Whatever fuel is left makes no difference. *)
Theorem stale_heap_entry_raises_key_error :
  forall k : nat,
    find_path stale_graph at_goal (4 + k) 3 (Some 0) = Raise KeyError.
Proof. intros k. reflexivity. Qed.

(** C7 (the code departs from it).  With a goal test that never holds,
    the search of [stale_graph] does not end in [PathNotFoundException]:
    the same stale heap entry raises [KeyError] before the open set is
    exhausted.  An omitted start does default to the goal. *)
Theorem exhaustion_preempted_by_key_error :
  (forall k : nat,
      find_path stale_graph never_finished (4 + k) 3 (Some 0) = Raise KeyError) /\
  (forall graph is_finished fuel goal,
      find_path graph is_finished fuel goal None
      = find_path graph is_finished fuel goal (Some goal)).
Proof. split; [ intros k | intros graph is_finished fuel goal ]; reflexivity. Qed.

(** C8, as stated, fails: with [low_resolution=True] a path finder whose
    high-fidelity algorithm has no [find_path] returns the corridor. *)
Lemma missing_high_fidelity_unnoticed :
  ~ (forall (point cnode : Type) (self : PathfinderAlgorithm point cnode)
       (source destination : point) (nodes : list cnode) (flag : bool),
        low_find_path (low_resolution self) = None \/
        high_find_path (high_resolution self) = None ->
        pathfinder_find_path self source destination nodes flag
        = Raise AlgorithmNotImplementedException).
Proof.
  intros H.
  specialize (H nat nat half_configured 0 1 [] true (or_intror eq_refl)).
  discriminate H.
Qed.

(** C8, amended.  [find_path] fails with
    [AlgorithmNotImplementedException] whenever the low-fidelity algorithm
    has no [find_path], for every value of the flag; and whenever the
    high-fidelity algorithm has none, the flag is [False] and the
    low-fidelity pass returned a corridor.  With [low_resolution=True] the
    high-fidelity algorithm is not looked at. *)
Theorem missing_algorithm_is_reported
  (point cnode : Type) (self : PathfinderAlgorithm point cnode)
  (source destination : point) (nodes : list cnode) :
  (low_find_path (low_resolution self) = None ->
   forall flag,
     pathfinder_find_path self source destination nodes flag
     = Raise AlgorithmNotImplementedException) /\
  (forall path_finder corridor,
      low_find_path (low_resolution self) = Some path_finder ->
      path_finder (spatial_lookup self source) (spatial_lookup self destination)
        nodes = Ok corridor ->
      high_find_path (high_resolution self) = None ->
      pathfinder_find_path self source destination nodes false
      = Raise AlgorithmNotImplementedException /\
      pathfinder_find_path self source destination nodes true
      = Ok (inl corridor)).
Proof.
  split.
  - intros Hlow flag. unfold pathfinder_find_path. rewrite Hlow. reflexivity.
  - intros path_finder corridor Hlow Hrun Hhigh.
    unfold pathfinder_find_path. rewrite Hlow, Hrun, Hhigh. split; reflexivity.
Qed.

Lemma missing_algorithm_is_reported_witness :
  pathfinder_find_path half_configured 0 1 [] false
  = Raise AlgorithmNotImplementedException /\
  pathfinder_find_path half_configured 0 1 [] true = Ok (inl [0; 1]).
Proof.
  destruct (missing_algorithm_is_reported half_configured 0 1 []) as [_ H].
  apply (H (fun a b (_ : list nat) => Ok [a; b]) [0; 1]); reflexivity.
Defined.

(** *** The funnel terminates *)

Section FunnelFacts.
Variable point : Type.
Variable point_eqb : point -> point -> bool.
Variable triangle_area_squared : point -> point -> point -> sign.

(** A vector equals itself, and a triangle with two corners in one point
    has no area: what holds of vectors without NaN components. *)
Hypothesis point_eqb_refl : forall a, point_eqb a a = true.
Hypothesis degenerate_area : forall a c, triangle_area_squared a a c = Null.

Local Open Scope Z_scope.

Ltac solve_funnel_inv :=
  repeat split; intros; first [ lia | exfalso; lia | reflexivity ].

Lemma update_step_progress (n base : Z) (f : Funnel point)
  (portal : Portal point) :
  funnel_inv n base f ->
  index f + 1 < n ->
  exists base',
    funnel_inv n base'
      (update_step point_eqb triangle_area_squared portal
         (with_index (index f + 1) f)) /\
    weight n base'
      (update_step point_eqb triangle_area_squared portal
         (with_index (index f + 1) f)) < weight n base f /\
    exists extra,
      apexes
        (update_step point_eqb triangle_area_squared portal
           (with_index (index f + 1) f)) = apexes f ++ extra.
Proof.
  intros (Hbase & Hidx & Hfresh & Hset) Hnext.
  destruct f as [fl fr ap aps i li ri]. cbn [index] in *.
  unfold update_step, with_index, funnel_inv, weight.
  cbn [index apex funnel_left funnel_right left_index right_index apexes].
  destruct (Z.eq_dec i base) as [-> | Hne].
  - (* the funnel is the point it restarted from *)
    destruct (Hfresh eq_refl) as [Hl Hr]. cbn in Hl, Hr. subst fl fr.
    rewrite degenerate_area, point_eqb_refl. cbn.
    rewrite degenerate_area, point_eqb_refl. cbn.
    exists base. split; [ | split ].
    + solve_funnel_inv.
    + nia.
    + exists []. now rewrite app_nil_r.
  - assert (Hlt : base < i) by lia.
    destruct (Hset Hlt) as [Hli Hri]. cbn in Hli, Hri.
    destruct (ge0 (triangle_area_squared ap fl (left portal)));
      [ destruct (point_eqb ap fl
                  || lt0 (triangle_area_squared ap fr (left portal))) | ];
      cbn [index apex funnel_left funnel_right left_index right_index apexes].
    + (* left side narrowed *)
      destruct (le0 (triangle_area_squared ap fr (right portal)));
        [ destruct (point_eqb ap fr
                    || gt0 (triangle_area_squared ap (left portal)
                              (right portal))) | ];
        cbn [index apex funnel_left funnel_right left_index right_index apexes].
      * exists base. split; [ | split ];
          [ solve_funnel_inv | nia | exists []; now rewrite app_nil_r ].
      * exists (i + 1). split; [ | split ];
          [ solve_funnel_inv | nia | eexists; reflexivity ].
      * exists base. split; [ | split ];
          [ solve_funnel_inv | nia | exists []; now rewrite app_nil_r ].
    + (* the left side crossed the right one: restart from the right *)
      exists ri. split; [ | split ];
        [ solve_funnel_inv | nia | eexists; reflexivity ].
    + destruct (le0 (triangle_area_squared ap fr (right portal)));
        [ destruct (point_eqb ap fr
                    || gt0 (triangle_area_squared ap fl (right portal))) | ];
        cbn [index apex funnel_left funnel_right left_index right_index apexes].
      * exists base. split; [ | split ];
          [ solve_funnel_inv | nia | exists []; now rewrite app_nil_r ].
      * exists li. split; [ | split ];
          [ solve_funnel_inv | nia | eexists; reflexivity ].
      * exists base. split; [ | split ];
          [ solve_funnel_inv | nia | exists []; now rewrite app_nil_r ].
Qed.

Lemma weight_nonneg (n base : Z) (f : Funnel point) :
  funnel_inv n base f -> 0 <= weight n base f.
Proof. intros (Hbase & Hidx & _). unfold weight. nia. Qed.

Lemma update_loop_total (portals : list (Portal point)) (fuel : nat) :
  forall (f : Funnel point) (base : Z),
    funnel_inv (Z.of_nat (List.length portals)) base f ->
    weight (Z.of_nat (List.length portals)) base f < Z.of_nat fuel ->
    exists f',
      update_loop point_eqb triangle_area_squared fuel portals f = Some f' /\
      exists extra, apexes f' = apexes f ++ extra.
Proof.
  induction fuel as [ | fuel IH]; intros f base Hinv Hw.
  - pose proof (weight_nonneg Hinv). lia.
  - cbn [update_loop]. unfold iterator_next.
    destruct (nth_error portals (Z.to_nat (index f + 1))) as [portal | ] eqn:E.
    + assert (Hnext : index f + 1 < Z.of_nat (List.length portals)).
      { assert (Hsome : nth_error portals (Z.to_nat (index f + 1)) <> None)
          by congruence.
        apply nth_error_Some in Hsome.
        destruct Hinv as (Hbase & _). lia. }
      destruct (update_step_progress portal Hinv Hnext)
        as [base' (Hinv' & Hw' & [extra Hextra])].
      destruct (IH _ base' Hinv') as [f' [Hrun [extra' Hextra']]]; [ lia | ].
      exists f'. split; [ exact Hrun | ].
      exists (extra ++ extra'). rewrite Hextra', Hextra, app_assoc. reflexivity.
    + exists f. split; [ reflexivity | ].
      exists []. now rewrite app_nil_r.
Qed.

Variable cnode : Type.
Variable get_portal_to : cnode -> cnode -> Portal point.

Lemma look_ahead_length (nodes : list cnode) :
  (List.length (look_ahead nodes) <= List.length nodes)%nat.
Proof.
  induction nodes as [ | a [ | b rest] IH]; cbn [look_ahead List.length] in *;
    lia.
Qed.

(** The funnel algorithm returns, and what it returns starts at the
    source and ends at the destination. *)
Lemma funnel_find_path_ends (fuel : nat) (source destination : point)
  (nodes : list cnode) :
  ((List.length nodes + 2) * (List.length nodes + 2) <= fuel)%nat ->
  exists middle,
    funnel_find_path point_eqb triangle_area_squared get_portal_to fuel source
      destination nodes
    = Ok (source :: middle ++ [destination]).
Proof.
  intros Hfuel. unfold funnel_find_path, update.
  set (portals := map _ (look_ahead nodes) ++ [EndPortal destination destination]).
  assert (Hlen : (List.length portals <= List.length nodes + 1)%nat).
  { subst portals. rewrite length_app, length_map. cbn [List.length].
    pose proof (look_ahead_length nodes). lia. }
  destruct (@update_loop_total portals fuel
              (mkFunnel source source source [source] iterator_start
                 iterator_start iterator_start) (-1))
    as [f' [Hrun [extra Hextra]]].
  - unfold funnel_inv, iterator_start. cbn. repeat split; intros; lia.
  - unfold weight, iterator_start. cbn [index]. nia.
  - rewrite Hrun. exists extra. rewrite Hextra. reflexivity.
Qed.
End FunnelFacts.


Lemma plane_eqb_refl (a : plane_point) : plane_eqb a a = true.
Proof. unfold plane_eqb. now rewrite !Z.eqb_refl. Qed.

Lemma plane_area_degenerate (a c : plane_point) : plane_area a a c = Null.
Proof.
  unfold plane_area.
  replace ((fst c - fst a) * (snd a - snd a)
           - (fst a - fst a) * (snd c - snd a))%Z with 0%Z by ring.
  reflexivity.
Qed.


End PathFacts.

(** ** Further properties of the signal system *)

Module SignalExtras.
Import Py Signals SignalSpecs SignalScenarios MoreScenarios SignalFacts.

(** *** [SignalValue] *)

Lemma write_all_single_set (v : pyval) (vs : list pyval) :
  write_all vs (mkSignalValue v true true)
  = (mkSignalValue v true true, List.length vs).
Proof.
  induction vs as [ | w vs IH]; [ reflexivity | ].
  cbn [write_all set_value _single_value _changed andb List.length].
  rewrite IH. reflexivity.
Qed.

Lemma last_nonempty {A : Type} (vs : list A) :
  forall x d d' : A, last (x :: vs) d = last (x :: vs) d'.
Proof.
  induction vs as [ | y vs IH]; intros x d d'; [ reflexivity | ].
  change (last (y :: vs) d = last (y :: vs) d'). apply IH.
Qed.

Lemma write_all_multi (vs : list pyval) :
  forall (v : pyval) (c : bool),
    write_all vs (mkSignalValue v c false)
    = (mkSignalValue (last vs v)
         (c || negb (Nat.eqb (List.length vs) 0)) false, 0).
Proof.
  induction vs as [ | w vs IH]; intros v c.
  - cbn. rewrite orb_false_r. reflexivity.
  - cbn [write_all set_value _single_value _changed andb]. rewrite IH.
    cbn [List.length Nat.eqb negb]. rewrite orb_true_r.
    destruct vs as [ | p vs]; [ reflexivity | ].
    rewrite (last_nonempty vs p w v). reflexivity.
Qed.

(** X1. A [SignalValue] made with [single_value=True] takes its first
    write only: of the writes [v :: vs] made one after the other to a new
    object, the first sets the value and marks the object changed, and
    every later one raises [ValueError] and leaves the value as it is. *)
Theorem single_value_takes_first_write_only (default v : pyval)
  (vs : list pyval) :
  write_all (v :: vs) (new_signal_value default true)
  = (mkSignalValue v true true, List.length vs) /\
  forall w, set_value w (mkSignalValue v true true) = None.
Proof.
  split; [ | reflexivity ].
  cbn [write_all new_signal_value set_value _single_value _changed andb].
  apply write_all_single_set.
Qed.

(** X2. A [SignalValue] made without [single_value] takes every write:
    no write raises, the value read back is the one written last (the
    default when nothing was written), and [changed] tells whether
    anything was written.  What the closure of [create_setter] writes is
    what the closure of [create_getter] then reads. *)
Theorem multi_value_keeps_last_write (default : pyval) (vs : list pyval) :
  (let (final, errors) := write_all vs (new_signal_value default false) in
   errors = 0 /\
   value final = last vs default /\
   changed final = negb (Nat.eqb (List.length vs) 0)) /\
  forall (self : SignalValue) (v : pyval),
    _single_value self = false ->
    exists self',
      create_setter v self = Some self' /\
      create_getter self' = v /\ changed self' = true.
Proof.
  split.
  - unfold new_signal_value. rewrite write_all_multi. cbn. auto.
  - intros self v Hs. unfold create_setter, set_value. rewrite Hs. cbn.
    eexists; split; [ reflexivity | split; reflexivity ].
Qed.

Lemma multi_value_keeps_last_write_witness :
  exists self',
    create_setter (VInt 3) (new_signal_value VNone false) = Some self' /\
    create_getter self' = VInt 3 /\ changed self' = true.
Proof.
  apply (proj2 (multi_value_keeps_last_write VNone [])
           (new_signal_value VNone false) (VInt 3)).
  reflexivity.
Defined.

(** *** Dispatch without a target *)

Lemma invoke_calls_untargeted (fuel : nat) (r : SignalClass -> ClassState)
  (args : pyargs) (kwargs : pykwargs) (cls : SignalClass) :
  invoke_calls fuel r cls args None None kwargs
  = flat_map (fun a => general_calls a (subscribers (r a)) args None kwargs)
      (cls :: ancestors cls).
Proof.
  induction cls as [ | n base IH].
  - cbn. rewrite app_nil_r. reflexivity.
  - cbn [invoke_calls ancestors flat_map]. rewrite IH. f_equal.
    unfold own_calls. rewrite targets_calls_target_none.
    destruct (is_cached (Derived n base)); reflexivity.
Qed.


(** *** Dispatch to a target *)

Lemma flat_map_flat_map {A B D : Type} (f : B -> list D) (g : A -> list B)
  (l : list A) :
  flat_map f (flat_map g l) = flat_map (fun x => flat_map f (g x)) l.
Proof.
  induction l as [ | x l IH]; cbn; [ reflexivity | ].
  rewrite flat_map_app, IH. reflexivity.
Qed.

Lemma targets_calls_walk (cls : SignalClass) (iso : dict ident Data)
  (forest : dict ident (list ident)) (args : pyargs) (target : option ident)
  (kwargs : pykwargs) (fuel : nat) :
  forall addressee a,
    match addressee with None => target | Some _ => addressee end = Some a ->
    targets_calls fuel cls iso forest args target addressee kwargs
    = flat_map (contextual_call cls iso args target kwargs)
        (walk forest fuel a).
Proof.
  induction fuel as [ | fuel IH]; intros addressee a Ha; [ reflexivity | ].
  cbn [targets_calls walk flat_map]. rewrite Ha. unfold contextual_call at 1.
  f_equal. destruct (dict_get a forest) as [kids | ]; [ | reflexivity ].
  rewrite flat_map_flat_map. apply flat_map_ext. intros k.
  apply IH. reflexivity.
Qed.

Lemma walk_below (f : dict ident (list ident)) (n : nat) :
  forall a i, In i (walk f n a) -> below f a i.
Proof.
  induction n as [ | n IH]; intros a i Hin; [ destruct Hin | ].
  cbn [walk] in Hin. destruct Hin as [<- | Hin]; [ constructor | ].
  destruct (dict_get a f) as [kids | ] eqn:Hkids; [ | destruct Hin ].
  apply in_flat_map in Hin. destruct Hin as (k & Hk & Hi).
  eapply below_child; eauto.
Qed.

Lemma below_walk (f : dict ident (list ident)) (a i : ident) :
  below f a i -> forall n, height_le f n a = true -> In i (walk f n a).
Proof.
  induction 1 as [a | a k i kids Hkids Hk Hbelow IH]; intros [ | n] Hh;
    try discriminate.
  - left; reflexivity.
  - cbn [walk]. right. cbn [height_le] in Hh. rewrite Hkids in *.
    apply in_flat_map. exists k. split; [ exact Hk | ].
    apply IH. rewrite forallb_forall in Hh. auto.
Qed.



(** *** A forest with a cycle *)

Lemma fold_option_fails {A : Type} (F : A -> State -> option State)
  (P : State -> Prop) (l : list A) (k : A) :
  In k l ->
  (forall x s s', P s -> F x s = Some s' -> P s') ->
  (forall s, P s -> F k s = None) ->
  forall s,
    P s ->
    fold_left
      (fun (acc : option State) (x : A) =>
         match acc with Some s => F x s | None => None end) l (Some s)
    = None.
Proof.
  induction l as [ | x l IH]; intros Hin Hstep Hk s HP; [ destruct Hin | ].
  cbn [fold_left]. destruct Hin as [-> | Hin].
  - rewrite (Hk s HP). apply fold_option_none.
  - destruct (F x s) as [t | ] eqn:E; [ | apply fold_option_none ].
    apply IH; eauto.
Qed.

Lemma cyclic_targets_overflow (C : ident -> Prop) (cls : SignalClass)
  (s0 : State)
  (Hcycle : forall x, C x ->
      exists kids k,
        dict_get x (children (regs s0 cls)) = Some kids /\ In k kids /\ C k)
  (fuel : nat) :
  forall args target addressee kwargs a s,
    children (regs s cls) = children (regs s0 cls) ->
    match addressee with None => target | Some _ => addressee end = Some a ->
    C a ->
    invoke_targets fuel cls (fun s => isolated_subscribers (regs s cls)) args
      target addressee kwargs s = None.
Proof.
  induction fuel as [ | fuel IH]; simpl;
    intros args target addressee kwargs a s Hch Haddr Ha; [ reflexivity | ].
  rewrite Haddr.
  set (s1 := match dict_get a (isolated_subscribers (regs s cls)) with
             | Some (callback, supply_signal, supply_target) =>
                 invoke_signal cls args target kwargs callback supply_signal
                   supply_target s
             | None => s
             end).
  assert (Hch1 : children (regs s1 cls) = children (regs s0 cls)).
  { subst s1.
    destruct (dict_get a (isolated_subscribers (regs s cls)))
      as [[[cb ss] st] | ]; [ | exact Hch ].
    rewrite <- Hch. apply frozen_children, invoke_signal_frozen. }
  clearbody s1.
  destruct (Hcycle a Ha) as (kids & k & Hkids & Hk & HCk).
  rewrite Hch1, Hkids.
  apply fold_option_fails
    with (F := fun child t =>
                 invoke_targets fuel cls
                   (fun s => isolated_subscribers (regs s cls)) args target
                   (Some child) kwargs t)
         (P := fun t => children (regs t cls) = children (regs s0 cls))
         (k := k); [ exact Hk | | | exact Hch1 ].
  - intros x t t' Ht Hrun. rewrite <- Ht.
    apply frozen_children. eapply invoke_targets_frozen. exact Hrun.
  - intros t Ht. eapply IH; [ exact Ht | reflexivity | exact HCk ].
Qed.



(** *** A removal staged for an edge that is not there *)

Lemma last_assigned_absent {V : Type} (i : ident) (d : dict ident V) :
  dict_get i d = None -> last_assigned i d = None.
Proof.
  induction d as [ | [k v] d IH]; cbn; [ reflexivity | ].
  destruct (eq_dec i k); [ discriminate | ].
  intros Hd. rewrite (IH Hd). reflexivity.
Qed.

Lemma dict_get_update_absent {V : Type} (i : ident) (d other : dict ident V) :
  dict_get i other = None -> dict_get i (dict_update d other) = dict_get i d.
Proof.
  intros Hother. unfold dict_update.
  rewrite dict_get_assign_all, (last_assigned_absent _ _ Hother). reflexivity.
Qed.

Lemma remove_children_dangling (edges : list (ident * ident))
  (child parent : ident) :
  forall forest,
    In (child, parent) edges -> dict_get parent forest = None ->
    exists f, remove_children edges forest = inr f /\ dict_get parent f = None.
Proof.
  induction edges as [ | [c p] edges IH]; intros forest Hin Hnone;
    [ destruct Hin | ].
  cbn [remove_children].
  destruct (dict_get p forest) as [kids | ] eqn:Hp; [ | exists forest; auto ].
  assert (Hne : parent <> p) by congruence.
  destruct Hin as [Heq | Hin]; [ congruence | ].
  destruct (set_remove c kids) as [[ | k rest] | ]; [ | | exists forest; auto ].
  - apply IH; [ exact Hin | ].
    rewrite dict_get_pop. destruct (eq_dec parent p); congruence.
  - apply IH; [ exact Hin | ].
    rewrite dict_get_set. destruct (eq_dec parent p); congruence.
Qed.

Lemma dangling_flush (fuel : nat) (cls : SignalClass) (s : State) :
  dangling_removal cls s ->
  to_subscribe_global (regs s cls) = [] \/ replay_ready fuel cls s ->
  List.length (to_subscribe_global (regs s cls)) <= fuel ->
  List.length (to_subscribe_context (regs s cls)) <= fuel ->
  exists s',
    update_state fuel cls s = Raised KeyError s' /\
    dangling_removal cls s' /\
    to_subscribe_global (regs s' cls) = [] /\
    to_subscribe_context (regs s' cls) = [] /\
    to_remove_child (regs s' cls) = to_remove_child (regs s cls) /\
    (forall a, a <> cls -> regs s' a = regs s a).
Proof.
  intros (child & parent & Hin & Hlive & Hstaged) Hready Hg Hc.
  destruct (update_state_spec Hready Hg Hc)
    as (s2 & Hrun & Hregs & [Hothers _] & _).
  rewrite Hrun. unfold finish.
  set (cs := after_queues (regs s2 cls)).
  assert (Hrem : to_remove_child cs = to_remove_child (regs s cls)).
  { subst cs. rewrite Hregs. reflexivity. }
  assert (Hch : children cs
                = dict_update (children (regs s cls))
                    (to_add_child (regs s cls))).
  { subst cs. rewrite Hregs. reflexivity. }
  assert (Hadd : to_add_child cs = []).
  { subst cs. reflexivity. }
  assert (Hsg : to_subscribe_global cs = []).
  { subst cs. rewrite Hregs. reflexivity. }
  assert (Hsc : to_subscribe_context cs = []).
  { subst cs. rewrite Hregs. reflexivity. }
  clearbody cs.
  destruct (remove_children_dangling (to_remove_child cs) child parent
              (children cs)) as (f & Hf & Hnone).
  - rewrite Hrem. exact Hin.
  - rewrite Hch, dict_get_update_absent; assumption.
  - rewrite Hf. eexists. split; [ reflexivity | ].
    rewrite set_reg_same.
    split; [ | split; [ exact Hsg | split; [ exact Hsc | split ] ] ].
    + exists child, parent. rewrite set_reg_same.
      split; [ cbn; rewrite Hrem; exact Hin | split; [ exact Hnone | ] ].
      cbn. rewrite Hadd. reflexivity.
    + cbn. exact Hrem.
    + intros a Ha. rewrite set_reg_other by exact Ha. apply Hothers, Ha.
Qed.

(** X6. A staged removal of a child from a parent that has no children,
    applied or staged, breaks the flush of its class for good:
    [update_state] raises [KeyError] at [children[parent]]; by then the
    pending subscriptions are applied, but [to_remove_child] is not
    cleared, so the removal is still staged and the next [update_state]
    raises again, and so does every one after it. *)
Theorem dangling_removal_raises_at_every_flush (fuel : nat)
  (cls : SignalClass) (s : State)
  (Hdangling : dangling_removal cls s)
  (Hready : to_subscribe_global (regs s cls) = [] \/ replay_ready fuel cls s)
  (Hglobal : List.length (to_subscribe_global (regs s cls)) <= fuel)
  (Hcontext : List.length (to_subscribe_context (regs s cls)) <= fuel) :
  exists s',
    update_state fuel cls s = Raised KeyError s' /\
    to_subscribe_global (regs s' cls) = [] /\
    to_subscribe_context (regs s' cls) = [] /\
    to_remove_child (regs s' cls) = to_remove_child (regs s cls) /\
    dangling_removal cls s' /\
    forall fuel',
      exists s'',
        update_state fuel' cls s' = Raised KeyError s'' /\
        dangling_removal cls s''.
Proof.
  destruct (dangling_flush Hdangling Hready Hglobal Hcontext)
    as (s' & Hrun & Hd & Hsg & Hsc & Hrem & _).
  exists s'. split; [ exact Hrun | ].
  split; [ exact Hsg | split; [ exact Hsc | split; [ exact Hrem | ] ] ].
  split; [ exact Hd | ].
  intros fuel'.
  destruct (@dangling_flush fuel' cls s' Hd) as (s'' & Hrun' & Hd' & _).
  - left; exact Hsg.
  - rewrite Hsg. apply Nat.le_0_l.
  - rewrite Hsc. apply Nat.le_0_l.
  - exists s''. split; assumption.
Qed.

Lemma dangling_removal_raises_at_every_flush_witness :
  exists s',
    update_state 1 DisconnectSignal blocked_state = Raised KeyError s' /\
    to_subscribe_global (regs s' DisconnectSignal) = [] /\
    to_subscribe_context (regs s' DisconnectSignal) = [] /\
    to_remove_child (regs s' DisconnectSignal)
    = to_remove_child (regs blocked_state DisconnectSignal) /\
    dangling_removal DisconnectSignal s' /\
    forall fuel',
      exists s'',
        update_state fuel' DisconnectSignal s' = Raised KeyError s'' /\
        dangling_removal DisconnectSignal s''.
Proof.
  apply (@dangling_removal_raises_at_every_flush 1 DisconnectSignal
           blocked_state).
  - exists 2, 1. vm_compute. auto.
  - left. reflexivity.
  - vm_compute. lia.
  - vm_compute. lia.
Defined.

(** *** [update_graph] *)

Lemma update_graph_app (fuel : nat) (pre rest : list SignalClass) :
  forall s,
    update_graph fuel (pre ++ rest) s
    = match update_graph fuel pre s with
      | Returned s1 => update_graph fuel rest s1
      | o => o
      end.
Proof.
  induction pre as [ | c pre IH]; intros s; [ reflexivity | ].
  cbn [app update_graph].
  destruct (update_state fuel c s); [ apply IH | reflexivity | reflexivity ].
Qed.

(** X7. [update_graph] flushes the classes one after the other and
    stops at the first that raises: when the class [cls] carries a
    dangling removal once the classes before it are flushed,
    [update_graph] raises [KeyError] there and the classes after [cls]
    are left with everything that was staged on them; a further
    [update_graph] from [cls] on raises at [cls] again and leaves them
    untouched again. *)
Theorem update_graph_stops_at_the_first_error (fuel : nat)
  (pre rest : list SignalClass) (cls : SignalClass) (s s1 : State)
  (Hpre : update_graph fuel pre s = Returned s1)
  (Hdangling : dangling_removal cls s1)
  (Hready : to_subscribe_global (regs s1 cls) = [] \/ replay_ready fuel cls s1)
  (Hglobal : List.length (to_subscribe_global (regs s1 cls)) <= fuel)
  (Hcontext : List.length (to_subscribe_context (regs s1 cls)) <= fuel) :
  exists s',
    update_graph fuel (pre ++ cls :: rest) s = Raised KeyError s' /\
    (forall a, a <> cls -> regs s' a = regs s1 a) /\
    forall fuel',
      exists s'',
        update_graph fuel' (cls :: rest) s' = Raised KeyError s'' /\
        forall a, a <> cls -> regs s'' a = regs s1 a.
Proof.
  destruct (dangling_flush Hdangling Hready Hglobal Hcontext)
    as (s' & Hrun & Hd & Hsg & Hsc & _ & Hothers).
  exists s'. split; [ | split; [ exact Hothers | ] ].
  - rewrite update_graph_app, Hpre. cbn [update_graph]. rewrite Hrun.
    reflexivity.
  - intros fuel'.
    destruct (@dangling_flush fuel' cls s' Hd)
      as (s'' & Hrun' & _ & _ & _ & _ & Hothers').
    + left; exact Hsg.
    + rewrite Hsg. apply Nat.le_0_l.
    + rewrite Hsc. apply Nat.le_0_l.
    + exists s''. split.
      * cbn [update_graph]. rewrite Hrun'. reflexivity.
      * intros a Ha. rewrite Hothers' by exact Ha. apply Hothers, Ha.
Qed.

Lemma update_graph_stops_at_the_first_error_witness :
  exists s',
    update_graph 1 ([] ++ DisconnectSignal :: [ConnectionErrorSignal])
      blocked_state = Raised KeyError s' /\
    (forall a, a <> DisconnectSignal -> regs s' a = regs blocked_state a) /\
    forall fuel',
      exists s'',
        update_graph fuel' (DisconnectSignal :: [ConnectionErrorSignal]) s'
        = Raised KeyError s'' /\
        forall a, a <> DisconnectSignal -> regs s'' a = regs blocked_state a.
Proof.
  apply (@update_graph_stops_at_the_first_error 1 [] [ConnectionErrorSignal]
           DisconnectSignal blocked_state blocked_state).
  - reflexivity.
  - exists 2, 1. vm_compute. auto.
  - left. reflexivity.
  - vm_compute. lia.
  - vm_compute. lia.
Defined.

(** *** Listeners *)

Lemma fold_left_map_in {A B S : Type} (f : S -> B -> S) (g : A -> B)
  (l : list A) :
  forall s, fold_left f (map g l) s = fold_left (fun s x => f s (g x)) l s.
Proof.
  induction l as [ | x l IH]; intros s; [ reflexivity | apply IH ].
Qed.

Lemma register_signals_stage (self : SignalListener) (s : State) :
  register_signals self s
  = stage (map (StSubscribe (listener_id self)) (signal_callbacks self)) s.
Proof.
  unfold register_signals, stage. rewrite fold_left_map_in. reflexivity.
Qed.

Lemma unregister_signals_stage (self : SignalListener) (s : State) :
  unregister_signals self s
  = stage (map (StUnsubscribe (listener_id self)) (signal_callbacks self)) s.
Proof.
  unfold unregister_signals, stage. rewrite fold_left_map_in. reflexivity.
Qed.

Lemma stage_app (b1 b2 : list Staged) (s : State) :
  stage (b1 ++ b2) s = stage b2 (stage b1 s).
Proof. unfold stage. apply fold_left_app. Qed.

Lemma in_subscribed (cls : SignalClass) (ctx : bool) (batch : list Staged)
  (j : ident) (d : Data) :
  In (j, d) (subscribed cls ctx batch) <->
  exists cb,
    In (StSubscribe j cb) batch /\ In (cls, ctx) (get_signals cb) /\
    d = data_of cb.
Proof.
  unfold subscribed. rewrite in_flat_map. split.
  - intros ([i cb | i cb] & Hop & Hin); [ | destruct Hin ].
    cbn [subscribed_by] in Hin. apply in_flat_map in Hin.
    destruct Hin as ([sc b] & Hsig & Hin).
    destruct (declares cls ctx (sc, b)) eqn:Hdecl; [ | destruct Hin ].
    apply declares_true in Hdecl. destruct Hdecl as [-> ->].
    destruct Hin as [Heq | []]. injection Heq as <- <-.
    exists cb. auto.
  - intros (cb & Hop & Hsig & ->). exists (StSubscribe j cb).
    split; [ exact Hop | ]. cbn [subscribed_by]. apply in_flat_map.
    exists (cls, ctx). split; [ exact Hsig | ].
    replace (declares cls ctx (cls, ctx)) with true;
      [ left; reflexivity | ].
    symmetry. apply declares_true. auto.
Qed.

Lemma in_unsubscribed (cls : SignalClass) (ctx : bool) (batch : list Staged)
  (j : ident) :
  In j (unsubscribed cls ctx batch) <->
  exists cb, In (StUnsubscribe j cb) batch /\ In (cls, ctx) (get_signals cb).
Proof.
  unfold unsubscribed. rewrite in_flat_map. split.
  - intros ([i cb | i cb] & Hop & Hin); [ destruct Hin | ].
    cbn [unsubscribed_by] in Hin. apply in_flat_map in Hin.
    destruct Hin as ([sc b] & Hsig & Hin).
    destruct (declares cls ctx (sc, b)) eqn:Hdecl; [ | destruct Hin ].
    apply declares_true in Hdecl. destruct Hdecl as [-> ->].
    destruct Hin as [<- | []]. exists cb. auto.
  - intros (cb & Hop & Hsig). exists (StUnsubscribe j cb).
    split; [ exact Hop | ]. cbn [unsubscribed_by]. apply in_flat_map.
    exists (cls, ctx). split; [ exact Hsig | ].
    replace (declares cls ctx (cls, ctx)) with true;
      [ left; reflexivity | ].
    symmetry. apply declares_true. auto.
Qed.

Lemma filtered_length {A B : Type} (f : A -> bool) (g : A -> B) (l : list A) :
  List.length (flat_map (fun x => if f x then [g x] else []) l)
  <= List.length l.
Proof.
  induction l as [ | x l IH]; cbn [flat_map List.length]; [ lia | ].
  rewrite length_app. destruct (f x); cbn [List.length]; lia.
Qed.

Lemma subscribed_length (cls : SignalClass) (ctx : bool) (batch : list Staged) :
  List.length (subscribed cls ctx batch)
  <= List.length (flat_map declared_by batch).
Proof.
  induction batch as [ | op batch IH]; cbn [subscribed flat_map List.length];
    [ lia | ].
  fold (subscribed cls ctx batch). rewrite !length_app.
  assert (List.length (subscribed_by cls ctx op)
          <= List.length (declared_by op)); [ | lia ].
  destruct op as [i cb | i cb]; cbn [subscribed_by declared_by List.length];
    [ | lia ].
  apply filtered_length with (g := fun _ => (i, data_of cb)).
Qed.

Lemma declared_by_subscribes (i : ident) (cbs : list Callback) :
  flat_map declared_by (map (StSubscribe i) cbs) = flat_map get_signals cbs.
Proof.
  induction cbs as [ | cb cbs IH]; cbn; [ reflexivity | ].
  rewrite IH. reflexivity.
Qed.

Lemma declared_by_unsubscribes (i : ident) (cbs : list Callback) :
  flat_map declared_by (map (StUnsubscribe i) cbs) = flat_map get_signals cbs.
Proof.
  induction cbs as [ | cb cbs IH]; cbn; [ reflexivity | ].
  rewrite IH. reflexivity.
Qed.

Lemma listens_in_spec (cls : SignalClass) (ctx : bool) (self : SignalListener) :
  listens_in cls ctx self = true <->
  exists cb, In cb (signal_callbacks self) /\ In (cls, ctx) (get_signals cb).
Proof.
  unfold listens_in. rewrite existsb_exists. split.
  - intros ([sc b] & Hin & Hdecl). apply in_flat_map in Hin.
    destruct Hin as (cb & Hcb & Hsig).
    apply declares_true in Hdecl. destruct Hdecl as [-> ->]. eauto.
  - intros (cb & Hcb & Hsig). exists (cls, ctx). split.
    + apply in_flat_map. eauto.
    + apply declares_true. auto.
Qed.

Lemma last_assigned_some {V : Type} (i : ident) (l : list (ident * V)) (v : V) :
  In (i, v) l -> exists w, last_assigned i l = Some w.
Proof.
  intros Hin. destruct (last_assigned i l) as [w | ] eqn:E; [ eauto | ].
  exfalso. exact (last_assigned_None _ _ E v Hin).
Qed.

Lemma set_mem_false (i : ident) (l : list ident) :
  ~ In i l -> set_mem i l = false.
Proof.
  intros Hnot. destruct (set_mem i l) eqn:E; [ | reflexivity ].
  exfalso. apply Hnot. apply set_mem_In. exact E.
Qed.

Lemma scope_lookup (cls : SignalClass) (ctx : bool) (s s' : State)
  (batch : list Staged) :
  (forall i,
      dict_get i (subscribers (regs s' cls))
      = net_effect cls false batch (subscribers (regs s cls)) i) ->
  (forall i,
      dict_get i (isolated_subscribers (regs s' cls))
      = net_effect cls true batch (isolated_subscribers (regs s cls)) i) ->
  forall i,
    dict_get i (scope cls ctx s')
    = net_effect cls ctx batch (scope cls ctx s) i.
Proof.
  intros Hg Hc i. destruct ctx; cbn [scope]; auto.
Qed.

(** X8. [register_signals] subscribes the listener under its own
    identity with every callback it has: staged over empty queues and
    flushed by one [update_state] of a class, it leaves the listener
    subscribed in each scope of the class that one of its callbacks
    declares, with one of the callbacks that declare it; in a scope none
    of them declares the listener is as before, and so is every other
    identifier in both scopes. *)
Theorem registered_listener_is_subscribed (fuel : nat) (cls : SignalClass)
  (self : SignalListener) (s : State)
  (Hqueues : queues (regs s cls) = ([], [], [], []))
  (Hadd : to_add_child (regs s cls) = [])
  (Hremove : to_remove_child (regs s cls) = [])
  (Hkeys : NoDup (dict_keys (children (regs s cls))))
  (Hready : replay_ready fuel cls (register_signals self s))
  (Hfuel : List.length (flat_map get_signals (signal_callbacks self)) <= fuel) :
  exists s',
    update_state fuel cls (register_signals self s) = Returned s' /\
    (forall ctx,
        listens_in cls ctx self = true ->
        exists cb,
          In cb (signal_callbacks self) /\ In (cls, ctx) (get_signals cb) /\
          dict_get (listener_id self) (scope cls ctx s') = Some (data_of cb)) /\
    (forall ctx,
        listens_in cls ctx self = false ->
        dict_get (listener_id self) (scope cls ctx s')
        = dict_get (listener_id self) (scope cls ctx s)) /\
    (forall ctx j,
        j <> listener_id self ->
        dict_get j (scope cls ctx s') = dict_get j (scope cls ctx s)).
Proof.
  rewrite register_signals_stage in *.
  set (batch := map (StSubscribe (listener_id self)) (signal_callbacks self))
    in *.
  assert (Hdecl : flat_map declared_by batch
                  = flat_map get_signals (signal_callbacks self)).
  { subst batch. apply declared_by_subscribes. }
  assert (Hlen : forall ctx, List.length (subscribed cls ctx batch) <= fuel).
  { intros ctx. etransitivity; [ apply subscribed_length | ].
    rewrite Hdecl. exact Hfuel. }
  destruct (@flush_of_batch fuel cls batch s Hqueues Hadd Hremove Hkeys Hready
              (Hlen false) (Hlen true)) as (s' & Hrun & Hg & Hc).
  assert (Hnone : forall ctx j, set_mem j (unsubscribed cls ctx batch) = false).
  { intros ctx j. apply set_mem_false. intros Hin.
    apply in_unsubscribed in Hin. destruct Hin as (cb & Hin & _).
    subst batch. apply in_map_iff in Hin. destruct Hin as (x & Heq & _).
    discriminate. }
  assert (Hmine : forall ctx j d,
             In (j, d) (subscribed cls ctx batch) ->
             j = listener_id self /\
             exists cb,
               In cb (signal_callbacks self) /\
               In (cls, ctx) (get_signals cb) /\ d = data_of cb).
  { intros ctx j d Hin. apply in_subscribed in Hin.
    destruct Hin as (cb & Hin & Hsig & ->).
    subst batch. apply in_map_iff in Hin. destruct Hin as (x & Heq & Hx).
    injection Heq as <- ->. eauto. }
  exists s'. split; [ exact Hrun | ].
  split; [ | split ].
  - intros ctx Hlistens.
    apply listens_in_spec in Hlistens. destruct Hlistens as (cb & Hcb & Hsig).
    assert (Hin : In (listener_id self, data_of cb) (subscribed cls ctx batch)).
    { apply in_subscribed. exists cb. split; [ | auto ].
      subst batch. apply in_map. exact Hcb. }
    destruct (last_assigned_some _ _ _ Hin) as (w & Hw).
    destruct (Hmine ctx _ _ (last_assigned_In _ _ Hw))
      as (_ & cb' & Hcb' & Hsig' & ->).
    exists cb'. split; [ exact Hcb' | split; [ exact Hsig' | ] ].
    rewrite (scope_lookup cls ctx s s' batch Hg Hc).
    unfold net_effect. rewrite Hnone, Hw. reflexivity.
  - intros ctx Hlistens.
    rewrite (scope_lookup cls ctx s s' batch Hg Hc).
    unfold net_effect. rewrite Hnone.
    destruct (last_assigned (listener_id self) (subscribed cls ctx batch))
      as [w | ] eqn:Hw; [ | reflexivity ].
    destruct (Hmine ctx _ _ (last_assigned_In _ _ Hw))
      as (_ & cb' & Hcb' & Hsig' & _).
    assert (listens_in cls ctx self = true)
      by (apply listens_in_spec; eauto).
    congruence.
  - intros ctx j Hj.
    rewrite (scope_lookup cls ctx s s' batch Hg Hc).
    unfold net_effect. rewrite Hnone.
    destruct (last_assigned j (subscribed cls ctx batch)) as [w | ] eqn:Hw;
      [ | reflexivity ].
    destruct (Hmine ctx _ _ (last_assigned_In _ _ Hw)) as (Heq & _).
    contradiction.
Qed.

Lemma registered_listener_is_subscribed_witness :
  exists s',
    update_state 3 DisconnectSignal
      (register_signals door_listener initial_state) = Returned s' /\
    (forall ctx,
        listens_in DisconnectSignal ctx door_listener = true ->
        exists cb,
          In cb (signal_callbacks door_listener) /\
          In (DisconnectSignal, ctx) (get_signals cb) /\
          dict_get (listener_id door_listener) (scope DisconnectSignal ctx s')
          = Some (data_of cb)) /\
    (forall ctx,
        listens_in DisconnectSignal ctx door_listener = false ->
        dict_get (listener_id door_listener) (scope DisconnectSignal ctx s')
        = dict_get (listener_id door_listener)
            (scope DisconnectSignal ctx initial_state)) /\
    (forall ctx j,
        j <> listener_id door_listener ->
        dict_get j (scope DisconnectSignal ctx s')
        = dict_get j (scope DisconnectSignal ctx initial_state)).
Proof.
  apply (@registered_listener_is_subscribed 3 DisconnectSignal door_listener
           initial_state).
  - reflexivity.
  - reflexivity.
  - reflexivity.
  - constructor.
  - left. reflexivity.
  - cbn. lia.
Defined.

(** X9. A listener that registers and unregisters its signals within
    one tick ends up unsubscribed: after the [update_state] of a class
    it is absent from every scope of the class that one of its callbacks
    declares -- also when it was subscribed there before -- and every
    other identifier is as before. *)
Theorem unregistered_listener_is_absent (fuel : nat) (cls : SignalClass)
  (self : SignalListener) (s : State)
  (Hqueues : queues (regs s cls) = ([], [], [], []))
  (Hadd : to_add_child (regs s cls) = [])
  (Hremove : to_remove_child (regs s cls) = [])
  (Hkeys : NoDup (dict_keys (children (regs s cls))))
  (Hready :
     replay_ready fuel cls (unregister_signals self (register_signals self s)))
  (Hfuel :
     2 * List.length (flat_map get_signals (signal_callbacks self)) <= fuel) :
  exists s',
    update_state fuel cls (unregister_signals self (register_signals self s))
    = Returned s' /\
    (forall ctx,
        listens_in cls ctx self = true ->
        dict_get (listener_id self) (scope cls ctx s') = None) /\
    (forall ctx j,
        j <> listener_id self ->
        dict_get j (scope cls ctx s') = dict_get j (scope cls ctx s)).
Proof.
  rewrite register_signals_stage, unregister_signals_stage, <- stage_app in *.
  set (batch :=
         map (StSubscribe (listener_id self)) (signal_callbacks self)
         ++ map (StUnsubscribe (listener_id self)) (signal_callbacks self))
    in *.
  assert (Hdecl : List.length (flat_map declared_by batch)
                  = 2 * List.length
                          (flat_map get_signals (signal_callbacks self))).
  { subst batch. rewrite flat_map_app, length_app.
    rewrite declared_by_subscribes, declared_by_unsubscribes. lia. }
  assert (Hlen : forall ctx, List.length (subscribed cls ctx batch) <= fuel).
  { intros ctx. etransitivity; [ apply subscribed_length | ].
    rewrite Hdecl. exact Hfuel. }
  destruct (@flush_of_batch fuel cls batch s Hqueues Hadd Hremove Hkeys Hready
              (Hlen false) (Hlen true)) as (s' & Hrun & Hg & Hc).
  assert (Hmine : forall op,
             In op batch ->
             exists cb,
               In cb (signal_callbacks self) /\
               (op = StSubscribe (listener_id self) cb \/
                op = StUnsubscribe (listener_id self) cb)).
  { intros op Hin. subst batch. apply in_app_or in Hin.
    destruct Hin as [Hin | Hin]; apply in_map_iff in Hin;
      destruct Hin as (cb & <- & Hcb); eauto. }
  exists s'. split; [ exact Hrun | split ].
  - intros ctx Hlistens.
    apply listens_in_spec in Hlistens. destruct Hlistens as (cb & Hcb & Hsig).
    rewrite (scope_lookup cls ctx s s' batch Hg Hc).
    apply net_effect_unsubscribed. apply in_unsubscribed.
    exists cb. split; [ | exact Hsig ].
    subst batch. apply in_or_app. right. apply in_map. exact Hcb.
  - intros ctx j Hj.
    rewrite (scope_lookup cls ctx s s' batch Hg Hc).
    unfold net_effect. rewrite set_mem_false.
    + destruct (last_assigned j (subscribed cls ctx batch)) as [w | ] eqn:Hw;
        [ | reflexivity ].
      apply last_assigned_In, in_subscribed in Hw.
      destruct Hw as (cb & Hin & _).
      destruct (Hmine _ Hin) as (cb' & _ & [Heq | Heq]);
        [ injection Heq as -> _; contradiction | discriminate ].
    + intros Hin. apply in_unsubscribed in Hin.
      destruct Hin as (cb & Hin & _).
      destruct (Hmine _ Hin) as (cb' & _ & [Heq | Heq]);
        [ discriminate | injection Heq as -> _; contradiction ].
Qed.

Lemma unregistered_listener_is_absent_witness :
  exists s',
    update_state 6 DisconnectSignal
      (unregister_signals door_listener
         (register_signals door_listener registered_state)) = Returned s' /\
    (forall ctx,
        listens_in DisconnectSignal ctx door_listener = true ->
        dict_get (listener_id door_listener) (scope DisconnectSignal ctx s')
        = None) /\
    (forall ctx j,
        j <> listener_id door_listener ->
        dict_get j (scope DisconnectSignal ctx s')
        = dict_get j (scope DisconnectSignal ctx registered_state)).
Proof.
  apply (@unregistered_listener_is_absent 6 DisconnectSignal door_listener
           registered_state).
  - reflexivity.
  - reflexivity.
  - reflexivity.
  - constructor.
  - left. reflexivity.
  - cbn. lia.
Defined.

(** *** Children registered within one tick *)

Lemma set_parent_proj {A : Type} (f : ClassState -> A) :
  (forall v cs, f (with_to_add_child v cs) = f cs) ->
  forall sc c p t cls, f (regs (set_parent sc c p t) cls) = f (regs t cls).
Proof.
  intros Hf sc c p t cls. unfold set_parent. rewrite (set_reg_proj f).
  destruct (eq_dec cls sc) as [-> | ]; [ apply Hf | reflexivity ].
Qed.

Lemma to_add_child_set_parent (cls sc : SignalClass) (c p : ident) (t : State) :
  to_add_child (regs (set_parent sc c p t) cls)
  = if eq_dec cls sc
    then dict_set p (set_add c (staged_children cls p t))
           (to_add_child (regs t cls))
    else to_add_child (regs t cls).
Proof.
  unfold set_parent. rewrite (set_reg_proj to_add_child).
  destruct (eq_dec cls sc) as [-> | ]; reflexivity.
Qed.

Lemma set_add_twice {A : Type} `{EqDec A} (c : A) (l : list A) :
  set_add c (set_add c l) = set_add c l.
Proof.
  unfold set_add at 2 3. destruct (set_mem c l) eqn:E.
  - unfold set_add. rewrite E. reflexivity.
  - unfold set_add.
    replace (set_mem c (l ++ [c])) with true; [ reflexivity | ].
    symmetry. apply set_mem_In. apply in_or_app. right. left. reflexivity.
Qed.

Lemma fold_left_flat_map {A B S : Type} (f : S -> B -> S) (g : A -> list B)
  (l : list A) :
  forall s,
    fold_left f (flat_map g l) s
    = fold_left (fun s x => fold_left f (g x) s) l s.
Proof.
  induction l as [ | x l IH]; intros s; [ reflexivity | ].
  cbn [flat_map fold_left]. rewrite fold_left_app. apply IH.
Qed.

Lemma set_parents_staged (cls : SignalClass) (c p : ident)
  (sigs : list (SignalClass * bool)) :
  forall t q,
    dict_get q
      (to_add_child
         (regs (fold_left (fun s sig => set_parent (fst sig) c p s) sigs t) cls))
    = if existsb (names cls) sigs && (if eq_dec q p then true else false)
      then Some (set_add c (staged_children cls p t))
      else dict_get q (to_add_child (regs t cls)).
Proof.
  induction sigs as [ | [sc b] sigs IH]; intros t q; [ reflexivity | ].
  cbn [fold_left existsb fst]. rewrite IH.
  unfold staged_children. rewrite !to_add_child_set_parent.
  unfold names at 2. cbn [fst].
  destruct (eq_dec sc cls) as [-> | Hsc].
  - destruct (eq_dec cls cls) as [_ | Hne]; [ | congruence ].
    rewrite !dict_get_set. destruct (eq_dec p p) as [_ | Hne]; [ | congruence ].
    fold (staged_children cls p t). rewrite set_add_twice.
    cbn [orb]. destruct (eq_dec q p) as [-> | Hq].
    + rewrite andb_true_r. cbn [andb]. destruct (existsb (names cls) sigs);
        reflexivity.
    + rewrite andb_false_r. reflexivity.
  - destruct (eq_dec cls sc) as [Heq | _]; [ congruence | ].
    cbn [orb]. reflexivity.
Qed.

Lemma set_parent_for_flat (store : SignalListener) (c p : ident) (s : State) :
  set_parent_for store c p s
  = fold_left (fun s sig => set_parent (fst sig) c p s)
      (flat_map get_signals (signal_callbacks store)) s.
Proof. unfold set_parent_for. rewrite fold_left_flat_map. reflexivity. Qed.

Lemma register_child_proj {A : Type} (f : ClassState -> A)
  (Hf : forall v cs, f (with_to_add_child v cs) = f cs)
  (self child : SignalListener) (store : option SignalListener)
  (greedy : bool) (cls : SignalClass) (t : State) :
  f (regs (register_child self child store greedy t) cls) = f (regs t cls).
Proof.
  assert (Hfor : forall st c p u,
             f (regs (set_parent_for st c p u) cls) = f (regs u cls)).
  { intros st c p u. rewrite set_parent_for_flat. apply fold_left_proj.
    intros u' sig. apply set_parent_proj. exact Hf. }
  unfold register_child. destruct greedy; rewrite !Hfor; reflexivity.
Qed.

Lemma register_children_staged (cls : SignalClass) (self : SignalListener)
  (Hlistens : listens_to cls self = true) (kids : list SignalListener) :
  forall t q,
    dict_get q
      (to_add_child
         (regs
            (fold_left
               (fun s child => register_child self child None false s) kids t)
            cls))
    = if eq_dec q (listener_id self)
      then match kids with
           | [] => dict_get q (to_add_child (regs t cls))
           | _ :: _ =>
               Some
                 (fold_left (fun acc x => set_add x acc) (map listener_id kids)
                    (staged_children cls (listener_id self) t))
           end
      else dict_get q (to_add_child (regs t cls)).
Proof.
  induction kids as [ | k kids IH]; intros t q.
  - cbn. destruct (eq_dec q (listener_id self)); reflexivity.
  - cbn [fold_left map]. rewrite IH.
    unfold register_child at 1 2 3. unfold staged_children at 1.
    rewrite set_parent_for_flat, !set_parents_staged.
    unfold listens_to in Hlistens. rewrite Hlistens. cbn [andb].
    destruct (eq_dec (listener_id self) (listener_id self)) as [_ | Hne];
      [ | congruence ].
    destruct (eq_dec q (listener_id self)) as [-> | Hq]; [ | reflexivity ].
    destruct kids; reflexivity.
Qed.

Lemma dict_set_keys {V : Type} (k i : ident) (v : V) (d : dict ident V) :
  In i (dict_keys (dict_set k v d)) <-> i = k \/ In i (dict_keys d).
Proof.
  induction d as [ | [k0 v0] d IH]; cbn.
  - intuition.
  - destruct (eq_dec k k0) as [-> | Hk]; cbn; [ intuition | ].
    rewrite IH. intuition.
Qed.

Lemma dict_set_NoDup {V : Type} (k : ident) (v : V) (d : dict ident V) :
  NoDup (dict_keys d) -> NoDup (dict_keys (dict_set k v d)).
Proof.
  induction d as [ | [k0 v0] d IH]; cbn; intros Hd.
  - constructor; [ intros [] | constructor ].
  - inversion Hd as [ | x l Hnot Hrest ]; subst.
    destruct (eq_dec k k0) as [-> | Hk]; cbn.
    + constructor; assumption.
    + constructor; [ | apply IH; exact Hrest ].
      intros Hin. apply dict_set_keys in Hin. destruct Hin; [ congruence | ].
      contradiction.
Qed.

Lemma last_assigned_keys {V : Type} (i : ident) (d : dict ident V) :
  NoDup (dict_keys d) -> last_assigned i d = dict_get i d.
Proof.
  induction d as [ | [k v] d IH]; cbn; intros Hd; [ reflexivity | ].
  inversion Hd as [ | x l Hnot Hrest ]; subst.
  destruct (last_assigned i d) as [w | ] eqn:Hw.
  - destruct (eq_dec i k) as [-> | Hi].
    + exfalso. apply Hnot. apply last_assigned_In in Hw.
      apply in_map with (f := fst) in Hw. exact Hw.
    + rewrite <- IH by exact Hrest. reflexivity.
  - destruct (eq_dec i k); [ reflexivity | ].
    rewrite <- IH by exact Hrest. reflexivity.
Qed.

Lemma register_children_keys (cls : SignalClass) (self : SignalListener)
  (kids : list SignalListener) (t : State) :
  NoDup (dict_keys (to_add_child (regs t cls))) ->
  NoDup
    (dict_keys
       (to_add_child
          (regs
             (fold_left
                (fun s child => register_child self child None false s) kids t)
             cls))).
Proof.
  apply fold_left_inv
    with (P := fun u => NoDup (dict_keys (to_add_child (regs u cls)))).
  intros u child _ Hu. unfold register_child. rewrite set_parent_for_flat.
  revert Hu.
  apply fold_left_inv
    with (P := fun u => NoDup (dict_keys (to_add_child (regs u cls)))).
  intros u' sig _ Hu'. rewrite to_add_child_set_parent.
  destruct (eq_dec cls (fst sig)); [ apply dict_set_NoDup | ]; exact Hu'.
Qed.

(** X10. The children a listener registers within one tick are all
    applied by the next flush: after [register_child] for each of [kids]
    and one [update_state] of a class the listener has a callback for, the
    child set of the listener in that class is exactly the set of
    [kids].  They replace whatever children the listener had there; the
    children of every other parent are as before, and nothing is left
    staged. *)
Theorem children_registered_in_one_tick_are_applied (fuel : nat)
  (cls : SignalClass) (self : SignalListener) (kids : list SignalListener)
  (s : State)
  (Hlistens : listens_to cls self = true)
  (Hkids : kids <> [])
  (Hglobal : to_subscribe_global (regs s cls) = [])
  (Hcontext : to_subscribe_context (regs s cls) = [])
  (Hadd : to_add_child (regs s cls) = [])
  (Hremove : to_remove_child (regs s cls) = []) :
  exists s',
    update_state fuel cls
      (fold_left (fun s child => register_child self child None false s)
         kids s) = Returned s' /\
    dict_get (listener_id self) (children (regs s' cls))
    = Some (set_of (map listener_id kids)) /\
    (forall p,
        p <> listener_id self ->
        dict_get p (children (regs s' cls))
        = dict_get p (children (regs s cls))) /\
    to_add_child (regs s' cls) = [].
Proof.
  set (t := fold_left (fun s child => register_child self child None false s)
              kids s).
  assert (Hproj : forall (A : Type) (f : ClassState -> A),
             (forall v cs, f (with_to_add_child v cs) = f cs) ->
             f (regs t cls) = f (regs s cls)).
  { intros A f Hf. subst t. apply fold_left_proj.
    intros u child. apply register_child_proj. exact Hf. }
  assert (Htg : to_subscribe_global (regs t cls) = []).
  { rewrite (Hproj _ to_subscribe_global); [ exact Hglobal | reflexivity ]. }
  assert (Htc : to_subscribe_context (regs t cls) = []).
  { rewrite (Hproj _ to_subscribe_context); [ exact Hcontext | reflexivity ]. }
  assert (Htr : to_remove_child (regs t cls) = []).
  { rewrite (Hproj _ to_remove_child); [ exact Hremove | reflexivity ]. }
  assert (Hch : children (regs t cls) = children (regs s cls)).
  { apply (Hproj _ children). reflexivity. }
  destruct (@update_state_spec fuel cls t) as (s2 & Hrun & Hregs & _).
  { left; exact Htg. }
  { rewrite Htg. apply Nat.le_0_l. }
  { rewrite Htc. apply Nat.le_0_l. }
  rewrite Hrun. unfold finish.
  set (cs := after_queues (regs s2 cls)).
  assert (Hrem : to_remove_child cs = []).
  { subst cs. rewrite Hregs. exact Htr. }
  assert (Hforest : children cs
                    = dict_update (children (regs s cls))
                        (to_add_child (regs t cls))).
  { subst cs. rewrite Hregs, <- Hch. reflexivity. }
  assert (Hnone : to_add_child cs = []) by reflexivity.
  clearbody cs. rewrite Hrem. cbn [remove_children].
  eexists. split; [ reflexivity | ].
  rewrite set_reg_same. cbn [children with_to_remove_child with_children
                               to_add_child].
  assert (Hlookup : forall q,
             dict_get q (children cs)
             = match dict_get q (to_add_child (regs t cls)) with
               | Some v => Some v
               | None => dict_get q (children (regs s cls))
               end).
  { intros q. rewrite Hforest. unfold dict_update.
    rewrite dict_get_assign_all, last_assigned_keys; [ reflexivity | ].
    subst t. apply register_children_keys. rewrite Hadd. constructor. }
  split; [ | split; [ | exact Hnone ] ].
  - rewrite Hlookup. subst t.
    rewrite (register_children_staged cls self Hlistens).
    destruct (eq_dec (listener_id self) (listener_id self)) as [_ | Hne];
      [ | congruence ].
    destruct kids as [ | k kids]; [ congruence | ].
    unfold staged_children. rewrite Hadd. reflexivity.
  - intros p Hp. rewrite Hlookup. subst t.
    rewrite (register_children_staged cls self Hlistens).
    destruct (eq_dec p (listener_id self)) as [Heq | _]; [ congruence | ].
    rewrite Hadd. reflexivity.
Qed.

Lemma children_registered_in_one_tick_are_applied_witness :
  exists s',
    update_state 1 DisconnectSignal
      (fold_left
         (fun s child => register_child door_listener child None false s)
         [first_child; second_child; first_child] registered_state)
    = Returned s' /\
    dict_get (listener_id door_listener) (children (regs s' DisconnectSignal))
    = Some
        (set_of (map listener_id [first_child; second_child; first_child])) /\
    (forall p,
        p <> listener_id door_listener ->
        dict_get p (children (regs s' DisconnectSignal))
        = dict_get p (children (regs registered_state DisconnectSignal))) /\
    to_add_child (regs s' DisconnectSignal) = [].
Proof.
  apply (@children_registered_in_one_tick_are_applied 1 DisconnectSignal
           door_listener [first_child; second_child; first_child]
           registered_state).
  - reflexivity.
  - discriminate.
  - reflexivity.
  - reflexivity.
  - reflexivity.
  - reflexivity.
Defined.

(** *** What a replay does to the caches *)

Lemma invoke_caches_above (e : CacheEntry) (cls a : SignalClass) :
  forall fresh k,
    In a (ancestors cls) ->
    invoke_caches cls fresh e k a = if is_cached a then k a ++ [e] else k a.
Proof.
  induction cls as [ | n base IH]; intros fresh k Ha; [ destruct Ha | ].
  assert (Hne : a <> Derived n base).
  { intros ->. exact (not_own_ancestor _ Ha). }
  cbn [invoke_caches].
  set (k' := if is_cached (Derived n base) && fresh
             then upd (Derived n base)
                    (k (Derived n base) ++ [e]) k
             else k).
  assert (Hk' : k' a = k a).
  { subst k'. destruct (is_cached (Derived n base) && fresh);
      [ apply upd_other; exact Hne | reflexivity ]. }
  clearbody k'. cbn [ancestors] in Ha. destruct Ha as [<- | Ha].
  - rewrite invoke_caches_own, andb_true_r, Hk'. reflexivity.
  - rewrite IH by exact Ha. rewrite Hk'. reflexivity.
Qed.

Lemma replay_fold_none (fuel : nat) (cls : SignalClass)
  (info : dict ident Data) (entries : list CacheEntry) :
  fold_left
    (fun (acc : option State) (e : CacheEntry) =>
       let '(previous_args, target, previous_kwargs) := e in
       match acc with
       | Some s =>
           invoke fuel cls previous_args (Some info) target previous_kwargs s
       | None => None
       end) entries None = None.
Proof.
  induction entries as [ | [[pa tg] kw] entries IH]; [ reflexivity | exact IH ].
Qed.

Lemma replay_caches (fuel : nat) (cls a : SignalClass) (info : dict ident Data)
  (Hcached : is_cached cls = true) (Ha : In a (ancestors cls))
  (Hca : is_cached a = true) (entries : list CacheEntry) :
  forall s s',
    fold_left
      (fun (acc : option State) (e : CacheEntry) =>
         let '(previous_args, target, previous_kwargs) := e in
         match acc with
         | Some s =>
             invoke fuel cls previous_args (Some info) target previous_kwargs s
         | None => None
         end) entries (Some s) = Some s' ->
    caches s' a = caches s a ++ entries.
Proof.
  induction entries as [ | [[pa tg] kw] entries IH]; intros s s' Hrun.
  - injection Hrun as <-. rewrite app_nil_r. reflexivity.
  - cbn [fold_left] in Hrun.
    destruct (invoke fuel cls pa (Some info) tg kw s) as [s1 | ] eqn:E1;
      [ | rewrite replay_fold_none in Hrun; discriminate ].
    rewrite (IH _ _ Hrun).
    rewrite (invoke_caches_eq _ _ _ _ _ _ _ E1).
    rewrite invoke_caches_above by exact Ha. rewrite Hca.
    rewrite <- app_assoc. reflexivity.
Qed.

Lemma on_subscribed_recaches (fuel : nat) (cls a : SignalClass) (i : ident)
  (d : Data) (s s' : State) :
  is_cached cls = true -> In a (ancestors cls) -> is_cached a = true ->
  on_subscribed fuel cls false i d s = Some s' ->
  caches s' a = caches s a ++ caches s cls.
Proof.
  intros Hcached Ha Hca. unfold on_subscribed. rewrite Hcached.
  apply replay_caches; assumption.
Qed.

Lemma apply_subscribes_recaches (depth : nat) (cls a : SignalClass)
  (s0 : State) (Hcached : is_cached cls = true) (Ha : In a (ancestors cls))
  (Hca : is_cached a = true) (Hready : replay_ready depth cls s0) :
  forall pending s fuel,
    agrees cls s0 s ->
    to_subscribe_global (regs s cls) = pending ->
    (forall kv, In kv pending -> In kv (to_subscribe_global (regs s0 cls))) ->
    List.length pending <= fuel ->
    exists s',
      apply_subscribes depth fuel cls false s = Some s' /\
      caches s' cls = caches s0 cls /\
      caches s' a
      = caches s a ++ List.concat (repeat (caches s0 cls) (List.length pending)).
Proof.
  induction pending as [ | [i d] p IH] using rev_ind;
    intros s fuel Hag Hpend Hsub Hlen.
  - exists s. destruct Hag as [_ Hk].
    destruct fuel; cbn [apply_subscribes]; rewrite Hpend; cbn;
      rewrite app_nil_r; auto.
  - rewrite length_app in *. cbn [List.length] in *.
    destruct fuel as [ | fuel]; [ lia | ].
    cbn [apply_subscribes]. rewrite Hpend, dict_popitem_last.
    set (cs1 := with_subscribers _ _).
    set (s1 := set_reg cls cs1 s).
    destruct Hag as [Hr Hk].
    destruct (@on_subscribed_ready depth cls s0 s1 i d Hready)
      as (t' & E & R & K & _).
    { apply Hsub. apply in_or_app. right. left. reflexivity. }
    { intros c Hc. subst s1. rewrite set_reg_other by exact Hc. apply Hr, Hc. }
    { exact Hk. }
    rewrite E.
    destruct (IH t' fuel) as (s' & E' & K' & C').
    { split; [ | rewrite K; exact Hk ].
      intros c Hc. rewrite R. subst s1. rewrite set_reg_other by exact Hc.
      apply Hr, Hc. }
    { rewrite R. subst s1. rewrite set_reg_same. reflexivity. }
    { intros kv Hin. apply Hsub. apply in_or_app. left. exact Hin. }
    { lia. }
    exists s'. split; [ exact E' | split; [ exact K' | ] ].
    rewrite C'.
    rewrite (@on_subscribed_recaches depth cls a i d s1 t' Hcached Ha Hca E).
    change (caches s1) with (caches s). rewrite Hk.
    rewrite Nat.add_1_r. cbn [repeat List.concat].
    rewrite <- app_assoc. reflexivity.
Qed.

Lemma apply_subscribes_contextual_caches (depth : nat) (cls : SignalClass) :
  forall fuel s s',
    apply_subscribes depth fuel cls true s = Some s' -> caches s' = caches s.
Proof.
  induction fuel as [ | fuel IH]; intros s s'; cbn [apply_subscribes];
    destruct (dict_popitem (to_subscribe_context (regs s cls)))
      as [[[i d] rest] | ]; intros Hrun;
    try discriminate; try (injection Hrun as <-; reflexivity).
  rewrite on_subscribed_contextual in Hrun. apply IH in Hrun.
  rewrite Hrun. reflexivity.
Qed.

(** X11. The replay for a new global subscriber of a cached class runs
    through [invoke_parent], and a base class that is cached itself takes
    each replayed invocation for a fresh one: every flush with [n] new
    global subscribers appends the whole cache of the class [n] times to
    the cache of each cached class above it, while the cache of the class
    itself stays as it is. *)
Theorem replay_recaches_at_cached_ancestors (fuel : nat)
  (cls a : SignalClass) (s : State)
  (Hcached : is_cached cls = true)
  (Hanc : In a (ancestors cls))
  (Hca : is_cached a = true)
  (Hready : replay_ready fuel cls s)
  (Hglobal : List.length (to_subscribe_global (regs s cls)) <= fuel)
  (Hcontext : List.length (to_subscribe_context (regs s cls)) <= fuel) :
  exists s',
    outcome_state (update_state fuel cls s) = Some s' /\
    caches s' cls = caches s cls /\
    caches s' a
    = caches s a
      ++ List.concat
           (repeat (caches s cls)
              (List.length (to_subscribe_global (regs s cls)))).
Proof.
  destruct (update_state_spec (or_intror Hready) Hglobal Hcontext)
    as (s2 & Hrun & _).
  rewrite update_state_unfold in Hrun |- *.
  destruct (@apply_subscribes_recaches fuel cls a s Hcached Hanc Hca Hready
              (to_subscribe_global (regs s cls)) s fuel)
    as (s1 & E1 & K1 & C1);
    [ apply agrees_refl | reflexivity | auto | exact Hglobal | ].
  rewrite E1 in *.
  destruct (apply_subscribes fuel fuel cls true s1) as [s3 | ] eqn:E3.
  - apply apply_subscribes_contextual_caches in E3.
    unfold finish.
    destruct (remove_children _ _); eexists;
      (split; [ reflexivity | ]); cbn [caches set_reg]; rewrite E3; auto.
  - exfalso. unfold finish in Hrun.
    destruct (remove_children _ _); discriminate.
Qed.

Lemma replay_recaches_at_cached_ancestors_witness :
  exists s',
    outcome_state (update_state 2 ReplicableRegisteredSignal replicated_state)
    = Some s' /\
    caches s' ReplicableRegisteredSignal
    = caches replicated_state ReplicableRegisteredSignal /\
    caches s' CachedSignal
    = caches replicated_state CachedSignal
      ++ List.concat
           (repeat (caches replicated_state ReplicableRegisteredSignal)
              (List.length
                 (to_subscribe_global
                    (regs replicated_state ReplicableRegisteredSignal)))).
Proof.
  apply (@replay_recaches_at_cached_ancestors 2 ReplicableRegisteredSignal
           CachedSignal replicated_state).
  - reflexivity.
  - left. reflexivity.
  - reflexivity.
  - right. right. split; [ | split ]; repeat constructor.
  - vm_compute. lia.
  - vm_compute. lia.
Defined.

(** *** A child registered and unregistered within one tick *)

Lemma to_remove_child_remove_parent (cls sc : SignalClass) (c p : ident)
  (t : State) :
  to_remove_child (regs (remove_parent sc c p t) cls)
  = if eq_dec cls sc
    then set_add (c, p) (to_remove_child (regs t cls))
    else to_remove_child (regs t cls).
Proof.
  unfold remove_parent. rewrite (set_reg_proj to_remove_child).
  destruct (eq_dec cls sc) as [-> | ]; reflexivity.
Qed.

Lemma remove_parents_staged (cls : SignalClass) (c p : ident)
  (sigs : list (SignalClass * bool)) :
  forall t,
    to_remove_child
      (regs (fold_left (fun s sig => remove_parent (fst sig) c p s) sigs t) cls)
    = if existsb (names cls) sigs
      then set_add (c, p) (to_remove_child (regs t cls))
      else to_remove_child (regs t cls).
Proof.
  induction sigs as [ | [sc b] sigs IH]; intros t; [ reflexivity | ].
  cbn [fold_left existsb fst]. rewrite IH, to_remove_child_remove_parent.
  unfold names at 2. cbn [fst].
  destruct (eq_dec sc cls) as [-> | Hsc].
  - destruct (eq_dec cls cls) as [_ | Hne]; [ | congruence ].
    rewrite set_add_twice. cbn [orb].
    destruct (existsb (names cls) sigs); reflexivity.
  - destruct (eq_dec cls sc) as [Heq | _]; [ congruence | ].
    cbn [orb]. reflexivity.
Qed.

Lemma remove_parent_for_flat (store : SignalListener) (c p : ident) (s : State) :
  remove_parent_for store c p s
  = fold_left (fun s sig => remove_parent (fst sig) c p s)
      (flat_map get_signals (signal_callbacks store)) s.
Proof. unfold remove_parent_for. rewrite fold_left_flat_map. reflexivity. Qed.

Lemma unregister_child_proj {A : Type} (f : ClassState -> A)
  (Hf : forall v cs, f (with_to_remove_child v cs) = f cs)
  (self child : SignalListener) (store : option SignalListener)
  (greedy : bool) (cls : SignalClass) (t : State) :
  f (regs (unregister_child self child store greedy t) cls) = f (regs t cls).
Proof.
  assert (Hfor : forall st c p u,
             f (regs (remove_parent_for st c p u) cls) = f (regs u cls)).
  { intros st c p u. rewrite remove_parent_for_flat. apply fold_left_proj.
    intros u' sig. apply remove_parent_proj. exact Hf. }
  unfold unregister_child. destruct greedy; rewrite !Hfor; reflexivity.
Qed.

(** X17. A child registered and unregistered within one tick does not
    just cancel out: the flush first replaces the children of the parent
    by the staged child and then removes that child, so after
    [update_state] the parent has no children at all in the class,
    whatever children it had before.  The flush returns, the children of
    every other parent are as before, and nothing is left staged. *)
Theorem child_registered_and_unregistered_in_one_tick (fuel : nat)
  (cls : SignalClass) (self child : SignalListener) (s : State)
  (Hlistens : listens_to cls self = true)
  (Hglobal : to_subscribe_global (regs s cls) = [])
  (Hcontext : to_subscribe_context (regs s cls) = [])
  (Hadd : to_add_child (regs s cls) = [])
  (Hremove : to_remove_child (regs s cls) = []) :
  exists s',
    update_state fuel cls
      (unregister_child self child None false
         (register_child self child None false s)) = Returned s' /\
    dict_get (listener_id self) (children (regs s' cls)) = None /\
    (forall p,
        p <> listener_id self ->
        dict_get p (children (regs s' cls))
        = dict_get p (children (regs s cls))) /\
    to_add_child (regs s' cls) = [] /\
    to_remove_child (regs s' cls) = [].
Proof.
  set (t1 := register_child self child None false s).
  set (t := unregister_child self child None false t1).
  assert (Hproj : forall (A : Type) (f : ClassState -> A),
             (forall v cs, f (with_to_add_child v cs) = f cs) ->
             (forall v cs, f (with_to_remove_child v cs) = f cs) ->
             f (regs t cls) = f (regs s cls)).
  { intros A f Hfa Hfr. subst t t1.
    rewrite unregister_child_proj by exact Hfr.
    apply register_child_proj. exact Hfa. }
  assert (Htg : to_subscribe_global (regs t cls) = []).
  { rewrite (Hproj _ to_subscribe_global); [ exact Hglobal | | ]; reflexivity. }
  assert (Htc : to_subscribe_context (regs t cls) = []).
  { rewrite (Hproj _ to_subscribe_context); [ exact Hcontext | | ];
      reflexivity. }
  assert (Hch : children (regs t cls) = children (regs s cls)).
  { apply (Hproj _ children); reflexivity. }
  assert (Hta : forall q,
             dict_get q (to_add_child (regs t cls))
             = if eq_dec q (listener_id self)
               then Some [listener_id child] else None).
  { intros q. subst t.
    rewrite (unregister_child_proj to_add_child) by reflexivity.
    subst t1. unfold register_child. rewrite set_parent_for_flat.
    rewrite set_parents_staged. unfold listens_to in Hlistens.
    rewrite Hlistens. unfold staged_children. rewrite Hadd. cbn [andb].
    destruct (eq_dec q (listener_id self)); reflexivity. }
  assert (Hkeys : NoDup (dict_keys (to_add_child (regs t cls)))).
  { subst t. rewrite (unregister_child_proj to_add_child) by reflexivity.
    subst t1.
    apply (@register_children_keys cls self [child] s). rewrite Hadd.
    constructor. }
  assert (Htr : to_remove_child (regs t cls)
                = [(listener_id child, listener_id self)]).
  { subst t. unfold unregister_child. rewrite remove_parent_for_flat.
    rewrite remove_parents_staged. unfold listens_to in Hlistens.
    rewrite Hlistens. subst t1.
    rewrite (register_child_proj to_remove_child) by reflexivity.
    rewrite Hremove. reflexivity. }
  destruct (@update_state_spec fuel cls t) as (s2 & Hrun & Hregs & _).
  { left; exact Htg. }
  { rewrite Htg. apply Nat.le_0_l. }
  { rewrite Htc. apply Nat.le_0_l. }
  rewrite Hrun. unfold finish.
  set (cs := after_queues (regs s2 cls)).
  assert (Hrem : to_remove_child cs = [(listener_id child, listener_id self)]).
  { subst cs. rewrite Hregs. exact Htr. }
  assert (Hlookup : forall q,
             dict_get q (children cs)
             = if eq_dec q (listener_id self)
               then Some [listener_id child]
               else dict_get q (children (regs s cls))).
  { intros q. subst cs. rewrite Hregs.
    change (children (after_queues (applied true (applied false (regs t cls)))))
      with (dict_update (children (regs t cls)) (to_add_child (regs t cls))).
    unfold dict_update.
    rewrite dict_get_assign_all, last_assigned_keys by exact Hkeys.
    rewrite Hta, Hch. destruct (eq_dec q (listener_id self)); reflexivity. }
  assert (Hnone : to_add_child cs = []) by reflexivity.
  clearbody cs. rewrite Hrem. cbn [remove_children].
  rewrite Hlookup.
  destruct (eq_dec (listener_id self) (listener_id self)) as [_ | Hne];
    [ | congruence ].
  cbn [set_remove].
  destruct (eq_dec (listener_id child) (listener_id child)) as [_ | Hne];
    [ | congruence ].
  eexists. split; [ reflexivity | ].
  rewrite set_reg_same.
  cbn [children with_to_remove_child with_children to_add_child
         to_remove_child].
  split; [ | split; [ | split; [ exact Hnone | reflexivity ] ] ].
  - rewrite dict_get_pop.
    destruct (eq_dec (listener_id self) (listener_id self)); congruence.
  - intros p Hp. rewrite dict_get_pop, Hlookup.
    destruct (eq_dec p (listener_id self)); [ contradiction | reflexivity ].
Qed.

Lemma child_registered_and_unregistered_in_one_tick_witness :
  exists s',
    update_state 1 DisconnectSignal
      (unregister_child door_listener second_child None false
         (register_child door_listener second_child None false
            family_listener_state)) = Returned s' /\
    dict_get (listener_id door_listener) (children (regs s' DisconnectSignal))
    = None /\
    (forall p,
        p <> listener_id door_listener ->
        dict_get p (children (regs s' DisconnectSignal))
        = dict_get p (children (regs family_listener_state DisconnectSignal))) /\
    to_add_child (regs s' DisconnectSignal) = [] /\
    to_remove_child (regs s' DisconnectSignal) = [].
Proof.
  apply (@child_registered_and_unregistered_in_one_tick 1 DisconnectSignal
           door_listener second_child family_listener_state).
  - reflexivity.
  - reflexivity.
  - reflexivity.
  - reflexivity.
  - reflexivity.
Defined.

(** *** What [unsubscribe] does to the forest *)

Lemma set_remove_NoDup {A : Type} `{EqDec A} (x : A) (l : list A) :
  forall r,
    NoDup l -> set_remove x l = Some r ->
    NoDup r /\ forall y, In y r <-> In y l /\ y <> x.
Proof.
  induction l as [ | a l IH]; cbn [set_remove]; intros r Hnd Hr;
    [ discriminate | ].
  inversion Hnd as [ | a' l' Hnot Hnd' ]; subst.
  destruct (eq_dec x a) as [-> | Hne].
  - injection Hr as <-. split; [ exact Hnd' | ].
    intros y. split.
    + intros Hy. split; [ right; exact Hy | intros ->; contradiction ].
    + intros [[<- | Hy] Hneq]; [ congruence | exact Hy ].
  - destruct (set_remove x l) as [r' | ]; [ | discriminate ].
    injection Hr as <-. destruct (IH r' Hnd' eq_refl) as [Hndr Hiff].
    split.
    + constructor; [ | exact Hndr ].
      intros Hin. apply Hiff in Hin. destruct Hin as [Hin _]. contradiction.
    + intros y. cbn [In]. rewrite Hiff. split.
      * intros [<- | [Hy Hneq]]; [ split; [ left; reflexivity | congruence ] | ].
        split; [ right; exact Hy | exact Hneq ].
      * intros [[<- | Hy] Hneq]; [ left; reflexivity | right; auto ].
Qed.

Lemma forest_step (forest forest1 : dict ident (list ident)) (c0 p0 : ident)
  (kids0 rest : list ident) :
  forest_ok forest ->
  dict_get p0 forest = Some kids0 ->
  set_remove c0 kids0 = Some rest ->
  (forall p,
      dict_get p forest1
      = if eq_dec p p0
        then match rest with [] => None | _ :: _ => Some rest end
        else dict_get p forest) ->
  forest_ok forest1 /\
  forall c p,
    has_edge forest1 c p <-> has_edge forest c p /\ (c, p) <> (c0, p0).
Proof.
  intros Hok Hp0 Hrem Hlookup.
  destruct (Hok p0 kids0 Hp0) as [Hnd0 _].
  destruct (@set_remove_NoDup ident _ c0 kids0 rest Hnd0 Hrem)
    as [Hndr Hiff].
  split.
  - intros p kids Hk. rewrite Hlookup in Hk.
    destruct (eq_dec p p0) as [-> | Hp]; [ | exact (Hok _ _ Hk) ].
    destruct rest as [ | k rest]; [ discriminate | ].
    injection Hk as <-. split; [ exact Hndr | discriminate ].
  - intros c p. unfold has_edge. rewrite Hlookup.
    destruct (eq_dec p p0) as [-> | Hp].
    + split.
      * intros (kids & Hk & Hin).
        destruct rest as [ | k rest]; [ discriminate | ].
        injection Hk as <-. apply Hiff in Hin. destruct Hin as [Hin Hneq].
        split; [ exists kids0; auto | ].
        intros Heq. injection Heq as ->. contradiction.
      * intros [(kids & Hk & Hin) Hneq].
        rewrite Hp0 in Hk. injection Hk as <-.
        assert (Hc : c <> c0) by (intros ->; apply Hneq; reflexivity).
        assert (Hrest : In c rest) by (apply Hiff; auto).
        destruct rest as [ | k rest]; [ destruct Hrest | ].
        exists (k :: rest). auto.
    + split; [ | intros [Hedge _]; exact Hedge ].
      intros Hedge. split; [ exact Hedge | ].
      intros Heq. injection Heq as _ ->. contradiction.
Qed.

Lemma remove_children_spec (edges : list (ident * ident)) :
  forall forest f,
    forest_ok forest ->
    remove_children edges forest = inl f ->
    forest_ok f /\
    forall c p, has_edge f c p <-> has_edge forest c p /\ ~ In (c, p) edges.
Proof.
  induction edges as [ | [c0 p0] edges IH]; intros forest f Hok Hrun.
  - injection Hrun as <-. split; [ exact Hok | ].
    intros c p. cbn [In]. tauto.
  - cbn [remove_children] in Hrun.
    destruct (dict_get p0 forest) as [kids0 | ] eqn:Hp0; [ | discriminate ].
    destruct (set_remove c0 kids0) as [rest | ] eqn:Hrem; [ | discriminate ].
    assert (Hnext : exists forest1,
               remove_children edges forest1 = inl f /\
               forall p,
                 dict_get p forest1
                 = if eq_dec p p0
                   then match rest with [] => None | _ :: _ => Some rest end
                   else dict_get p forest).
    { destruct rest as [ | k rest]; eexists; (split; [ exact Hrun | ]);
        intros p; [ rewrite dict_get_pop | rewrite dict_get_set ];
        reflexivity. }
    destruct Hnext as (forest1 & Hrun1 & Hlookup).
    destruct (@forest_step forest forest1 c0 p0 kids0 rest Hok Hp0 Hrem
                Hlookup) as [Hok1 Hedges1].
    destruct (IH _ _ Hok1 Hrun1) as [Hokf Hedges].
    split; [ exact Hokf | ].
    intros c p. rewrite Hedges, Hedges1. cbn [In]. split.
    + intros [[Hedge Hneq] Hnot]. split; [ exact Hedge | ].
      intros [Heq | Hin]; [ apply Hneq; congruence | contradiction ].
    + intros [Hedge Hnot]. split; [ split; [ exact Hedge | ] | ]; auto.
Qed.

Lemma removals_of_children (cls sc : SignalClass) (i : ident)
  (kids : list ident) :
  forall s e,
    In e
      (to_remove_child
         (regs (fold_left (fun s child => remove_parent sc child i s) kids s)
            cls))
    <-> In e (to_remove_child (regs s cls))
        \/ (sc = cls /\ snd e = i /\ In (fst e) kids).
Proof.
  induction kids as [ | k kids IH]; intros s e; cbn [fold_left In].
  - tauto.
  - rewrite IH, to_remove_child_remove_parent.
    destruct (eq_dec cls sc) as [-> | Hne].
    + rewrite set_add_In. destruct e as [c p]. cbn [fst snd]. split.
      * intros [[Heq | Hin] | (Hsc & Hp & Hc)]; auto.
        injection Heq as -> ->. auto.
      * intros [Hin | (_ & <- & [<- | Hc])]; auto.
    + split.
      * intros [Hin | (Hsc & Hp & Hc)]; auto.
      * intros [Hin | (Hsc & _)]; [ auto | congruence ].
Qed.

Lemma removals_from_parents (cls sc : SignalClass) (i : ident)
  (items : list (ident * list ident)) :
  forall s e,
    In e
      (to_remove_child
         (regs
            (fold_left
               (fun s (item : ident * list ident) =>
                  let (parent, next_children) := item in
                  if set_mem i next_children
                  then remove_parent sc i parent s
                  else s) items s) cls))
    <-> In e (to_remove_child (regs s cls))
        \/ (sc = cls /\ fst e = i /\
            exists next, In (snd e, next) items /\ In i next).
Proof.
  induction items as [ | [parent next] items IH]; intros s e;
    cbn [fold_left In].
  - split; [ auto | intros [Hin | (_ & _ & next & [] & _)]; exact Hin ].
  - rewrite IH. destruct (set_mem i next) eqn:Hmem.
    + apply set_mem_In in Hmem. rewrite to_remove_child_remove_parent.
      destruct (eq_dec cls sc) as [-> | Hne].
      * rewrite set_add_In. destruct e as [c p]. cbn [fst snd]. split.
        -- intros [[Heq | Hin] | (Hsc & Hc & nx & Hnx & Hi)]; eauto 8.
           injection Heq as -> ->. right. eauto 8.
        -- intros [Hin | (_ & <- & nx & [Heq | Hnx] & Hi)]; eauto 8.
           injection Heq as <- <-. auto.
      * split.
        -- intros [Hin | (Hsc & Hc & nx & Hnx & Hi)]; eauto 8.
        -- intros [Hin | (Hsc & _)]; [ auto | congruence ].
    + split.
      * intros [Hin | (Hsc & Hc & nx & Hnx & Hi)]; eauto 8.
      * intros [Hin | (Hsc & Hc & nx & [Heq | Hnx] & Hi)]; eauto 8.
        injection Heq as <- <-.
        apply set_mem_In in Hi. congruence.
Qed.

Lemma dict_get_In {V : Type} (k : ident) (v : V) (d : dict ident V) :
  dict_get k d = Some v -> In (k, v) d.
Proof.
  induction d as [ | [k0 v0] d IH]; cbn [dict_get]; [ discriminate | ].
  destruct (eq_dec k k0) as [-> | Hne].
  - intros [= ->]. left. reflexivity.
  - intros Hd. right. apply IH, Hd.
Qed.

Lemma unsubscribe_one_removals (cls : SignalClass) (i : ident) (s : State)
  (sc : SignalClass) (b : bool) (e : ident * ident) :
  NoDup (dict_keys (children (regs s cls))) ->
  In e (to_remove_child (regs (unsubscribe_one i s (sc, b)) cls))
  <-> In e (to_remove_child (regs s cls))
      \/ (sc = cls /\ has_edge (children (regs s cls)) (fst e) (snd e)
          /\ (snd e = i \/ fst e = i)).
Proof.
  intros Hkeys. unfold unsubscribe_one.
  set (s1 := if b then _ else _).
  assert (Hrem1 : to_remove_child (regs s1 cls) = to_remove_child (regs s cls)).
  { subst s1. destruct b; rewrite (set_reg_proj to_remove_child);
      destruct (eq_dec cls sc) as [-> | ]; reflexivity. }
  assert (Hch1 : children (regs s1 sc) = children (regs s sc)).
  { subst s1. destruct b; rewrite (set_reg_proj children);
      destruct (eq_dec sc sc); reflexivity. }
  clearbody s1. rewrite Hch1.
  rewrite removals_from_parents.
  assert (Hfirst : forall e',
             In e'
               (to_remove_child
                  (regs
                     match dict_get i (children (regs s sc)) with
                     | Some kids =>
                         fold_left
                           (fun s child => remove_parent sc child i s) kids s1
                     | None => s1
                     end cls))
             <-> In e' (to_remove_child (regs s cls))
                 \/ (sc = cls /\ snd e' = i /\
                     has_edge (children (regs s sc)) (fst e') i)).
  { intros e'. unfold has_edge.
    destruct (dict_get i (children (regs s sc))) as [kids | ].
    - rewrite removals_of_children, Hrem1. split.
      + intros [Hin | (Hsc & Hp & Hc)]; eauto 8.
      + intros [Hin | (Hsc & Hp & kids' & [= <-] & Hc)]; auto.
    - rewrite Hrem1. split; [ auto | ].
      intros [Hin | (_ & _ & kids' & Hk & _)]; [ exact Hin | discriminate ]. }
  rewrite Hfirst. destruct e as [c p]. cbn [fst snd]. unfold has_edge. split.
  - intros [[Hin | (-> & -> & kids & Hk & Hc)] | (-> & -> & next & Hnext & Hi)];
      eauto 8.
    right. split; [ reflexivity | ]. split; [ | auto ].
    exists next. split; [ | exact Hi ].
    apply dict_get_unique; assumption.
  - intros [Hin | (-> & (kids & Hk & Hc) & [-> | ->])]; eauto 8.
    right. split; [ reflexivity | ]. split; [ reflexivity | ].
    exists kids. split; [ apply dict_get_In, Hk | exact Hc ].
Qed.

Lemma unsubscribe_removals (cls : SignalClass) (i : ident)
  (sigs : list (SignalClass * bool)) :
  forall s e,
    NoDup (dict_keys (children (regs s cls))) ->
    In e
      (to_remove_child (regs (fold_left (unsubscribe_one i) sigs s) cls))
    <-> In e (to_remove_child (regs s cls))
        \/ (existsb (names cls) sigs = true
            /\ has_edge (children (regs s cls)) (fst e) (snd e)
            /\ (snd e = i \/ fst e = i)).
Proof.
  induction sigs as [ | [sc b] sigs IH]; intros s e Hkeys;
    cbn [fold_left existsb].
  - split; [ auto | intros [Hin | (Hfalse & _)]; [ exact Hin | discriminate ] ].
  - assert (Hch : children (regs (unsubscribe_one i s (sc, b)) cls)
                  = children (regs s cls)).
    { apply frozen_children, unsubscribe_one_frozen. }
    rewrite IH by (rewrite Hch; exact Hkeys).
    rewrite Hch, unsubscribe_one_removals by exact Hkeys.
    replace (names cls (sc, b)) with (if eq_dec sc cls then true else false)
      by reflexivity.
    destruct (eq_dec sc cls) as [-> | Hne]; cbn [orb].
    + split.
      * intros [[Hin | (_ & Hedge)] | (_ & Hedge)]; auto.
      * intros [Hin | (_ & Hedge)]; auto.
    + split.
      * intros [[Hin | (Hsc & _)] | Hrest]; [ auto | congruence | auto ].
      * intros [Hin | Hrest]; auto.
Qed.

(** X18. Unsubscribing detaches a listener from the child forest: once
    [unsubscribe] with a callback that declares the class is flushed by
    [update_state], the listener is no longer a parent in the forest of
    the class and no longer a child of anyone -- the children it had are
    orphaned, not handed to its parent -- while every edge between other
    listeners is kept. *)
Theorem unsubscribed_listener_leaves_the_forest (fuel : nat)
  (cls : SignalClass) (i : ident) (cb : Callback) (s : State)
  (Hdeclared : existsb (names cls) (get_signals cb) = true)
  (Hqueues : queues (regs s cls) = ([], [], [], []))
  (Hadd : to_add_child (regs s cls) = [])
  (Hremove : to_remove_child (regs s cls) = [])
  (Hkeys : NoDup (dict_keys (children (regs s cls))))
  (Hforest : forest_ok (children (regs s cls))) :
  exists s',
    update_state fuel cls (unsubscribe i cb s) = Returned s' /\
    dict_get i (children (regs s' cls)) = None /\
    (forall p, ~ has_edge (children (regs s' cls)) i p) /\
    (forall c p,
        c <> i -> p <> i ->
        (has_edge (children (regs s' cls)) c p
         <-> has_edge (children (regs s cls)) c p)) /\
    to_remove_child (regs s' cls) = [].
Proof.
  set (t := unsubscribe i cb s).
  assert (Hinv : removal_inv cls s t).
  { apply (@removal_inv_stage cls [StUnsubscribe i cb] s Hkeys).
    split; [ reflexivity | ]. rewrite Hremove.
    split; [ constructor | intros c p [] ]. }
  destruct Hinv as (Hta & Hnd & Hpresent).
  assert (Hch : children (regs t cls) = children (regs s cls)).
  { apply frozen_children, unsubscribe_frozen. }
  assert (Hq : queues (regs t cls)
               = (to_subscribe_global (regs s cls),
                  to_subscribe_context (regs s cls),
                  to_unsubscribe_context (regs s cls)
                    ++ unsubscribed_by cls false (StUnsubscribe i cb),
                  to_unsubscribe_global (regs s cls)
                    ++ unsubscribed_by cls true (StUnsubscribe i cb)))
    by apply queues_unsubscribe.
  apply queues_inv in Hq. destruct Hq as (Hg & Hc & _ & _).
  apply queues_inv in Hqueues. destruct Hqueues as (Hg0 & Hc0 & _ & _).
  rewrite Hg0 in Hg. rewrite Hc0 in Hc.
  assert (Hedges : forall e,
             In e (to_remove_child (regs t cls))
             <-> has_edge (children (regs s cls)) (fst e) (snd e)
                 /\ (snd e = i \/ fst e = i)).
  { intros e. subst t. unfold unsubscribe.
    rewrite unsubscribe_removals by exact Hkeys.
    rewrite Hremove. cbn [In]. split.
    - intros [[] | (_ & Hedge)]. exact Hedge.
    - intros Hedge. right. auto. }
  destruct (@update_state_spec fuel cls t) as (s2 & Hrun & Hregs & _).
  { left; exact Hg. }
  { rewrite Hg. apply Nat.le_0_l. }
  { rewrite Hc. apply Nat.le_0_l. }
  rewrite Hrun. unfold finish.
  set (cs := after_queues (regs s2 cls)).
  assert (Hrem : to_remove_child cs = to_remove_child (regs t cls)).
  { subst cs. rewrite Hregs. reflexivity. }
  assert (Hcs : children cs = children (regs s cls)).
  { subst cs. rewrite Hregs.
    change (children (after_queues (applied true (applied false (regs t cls)))))
      with (dict_update (children (regs t cls)) (to_add_child (regs t cls))).
    rewrite Hta, Hadd, Hch. reflexivity. }
  clearbody cs. rewrite Hrem, Hcs.
  destruct (remove_children_ok Hnd Hpresent) as (f & Hf).
  rewrite Hf.
  destruct (remove_children_spec _ Hforest Hf) as [Hokf Hspec].
  eexists. split; [ reflexivity | ].
  rewrite set_reg_same.
  cbn [children with_to_remove_child with_children to_remove_child].
  assert (Hnot : forall p, ~ has_edge f i p).
  { intros p Hedge. apply Hspec in Hedge. destruct Hedge as [Hedge Hnotin].
    apply Hnotin. apply (Hedges (i, p)). cbn [fst snd]. auto. }
  split; [ | split; [ exact Hnot | split; [ | reflexivity ] ] ].
  - destruct (dict_get i f) as [kids | ] eqn:Hi; [ | reflexivity ].
    exfalso. destruct (Hokf i kids Hi) as [_ Hne].
    destruct kids as [ | k kids]; [ congruence | ].
    assert (Hedge : has_edge f k i).
    { exists (k :: kids). split; [ exact Hi | left; reflexivity ]. }
    apply Hspec in Hedge. destruct Hedge as [Hedge Hnotin].
    apply Hnotin. apply (Hedges (k, i)). cbn [fst snd]. auto.
  - intros c p Hc' Hp'. rewrite Hspec. split; [ intros [Hedge _]; exact Hedge | ].
    intros Hedge. split; [ exact Hedge | ].
    intros Hin. apply (Hedges (c, p)) in Hin. cbn [fst snd] in Hin.
    destruct Hin as [_ [Heq | Heq]]; contradiction.
Qed.

Lemma unsubscribed_listener_leaves_the_forest_witness :
  exists s',
    update_state 1 DisconnectSignal
      (unsubscribe 11 grandchild_callback family_state) = Returned s' /\
    dict_get 11 (children (regs s' DisconnectSignal)) = None /\
    (forall p, ~ has_edge (children (regs s' DisconnectSignal)) 11 p) /\
    (forall c p,
        c <> 11 -> p <> 11 ->
        (has_edge (children (regs s' DisconnectSignal)) c p
         <-> has_edge (children (regs family_state DisconnectSignal)) c p)) /\
    to_remove_child (regs s' DisconnectSignal) = [].
Proof.
  apply (@unsubscribed_listener_leaves_the_forest 1 DisconnectSignal 11
           grandchild_callback family_state).
  - reflexivity.
  - reflexivity.
  - reflexivity.
  - reflexivity.
  - change (children (regs family_state DisconnectSignal))
      with [(10, [11]); (11, [12])].
    cbn. constructor; [ intros [Heq | []]; discriminate | ].
    constructor; [ intros [] | constructor ].
  - change (children (regs family_state DisconnectSignal))
      with [(10, [11]); (11, [12])].
    intros p kids. cbn [dict_get].
    destruct (eq_dec p 10) as [_ | _].
    + intros [= <-]. split; [ | discriminate ].
      constructor; [ intros [] | constructor ].
    + destruct (eq_dec p 11) as [_ | _]; [ | discriminate ].
      intros [= <-]. split; [ | discriminate ].
      constructor; [ intros [] | constructor ].
Defined.

(** *** What a callback is called with *)

Lemma last_assigned_key {K V : Type} `{EqDec K} (i : K) (d : list (K * V))
  (w : V) :
  last_assigned i d = Some w -> In i (map fst d).
Proof.
  induction d as [ | [k v] d IH]; cbn [last_assigned map fst In];
    [ discriminate | ].
  destruct (last_assigned i d) as [w' | ].
  - intros Hw. right. apply IH, Hw.
  - destruct (eq_dec i k) as [-> | ]; [ | discriminate ].
    intros _. left. reflexivity.
Qed.

Lemma last_assigned_unique {K V : Type} `{EqDec K} (i : K) (d : dict K V) :
  NoDup (dict_keys d) -> last_assigned i d = dict_get i d.
Proof.
  induction d as [ | [k v] d IH]; cbn [last_assigned dict_get dict_keys map fst];
    intros Hd; [ reflexivity | ].
  inversion Hd as [ | x l Hnot Hrest ]; subst.
  destruct (last_assigned i d) as [w | ] eqn:Hw.
  - destruct (eq_dec i k) as [-> | Hi].
    + exfalso. apply Hnot. exact (last_assigned_key _ _ Hw).
    + rewrite <- IH by exact Hrest. reflexivity.
  - destruct (eq_dec i k); [ reflexivity | ].
    rewrite <- IH by exact Hrest. reflexivity.
Qed.

Lemma signal_args_lookup (cls : SignalClass) (target : option ident)
  (kwargs : pykwargs) (ss st : bool) (key : string) :
  NoDup (dict_keys kwargs) ->
  dict_get key (signal_args cls target kwargs ss st)
  = match dict_get key kwargs with
    | Some v => Some v
    | None =>
        if eq_dec key "signal"%string
        then (if ss then Some (VCls cls) else None)
        else if eq_dec key "target"%string
             then (if st then Some (target_value target) else None)
             else None
    end.
Proof.
  intros Hnd. unfold signal_args, dict_update.
  rewrite dict_get_assign_all, last_assigned_unique by exact Hnd.
  destruct (dict_get key kwargs); [ reflexivity | ].
  destruct ss, st; cbn;
    destruct (eq_dec key "signal"%string) as [Hs | Hs];
    destruct (eq_dec key "target"%string) as [Ht | Ht];
    try reflexivity; subst; discriminate.
Qed.



End SignalExtras.

(** ** Further properties of the path finders *)

Module PathExtras.
Import Py Pathfinding PathSpecs PathScenarios MorePathScenarios.

(** *** [reconstruct_path] *)

Lemma linked_snoc (path : dict node node) (x y : node) (l : list node) :
  linked path ((l ++ [x]) ++ [y])
  <-> linked path (l ++ [x]) /\ dict_get y path = Some x.
Proof.
  induction l as [ | a l IH].
  - cbn. tauto.
  - destruct l as [ | b l].
    + cbn. tauto.
    + split.
      * intros [Hb Hrest]. apply IH in Hrest. destruct Hrest as [Hrest Hy].
        split; [ split; assumption | exact Hy ].
      * intros [[Hb Hrest] Hy]. split; [ exact Hb | ].
        apply IH. split; assumption.
Qed.

Lemma hd_error_snoc {A : Type} (l : list A) (x y : A) :
  hd_error ((l ++ [x]) ++ [y]) = hd_error (l ++ [x]).
Proof. destruct l; reflexivity. Qed.

Lemma reconstruct_path_chain (path : dict node node) (fuel : nat) :
  forall n acc p,
    reconstruct_path fuel n path acc = Ok p ->
    exists pre,
      p = pre ++ n :: acc /\
      linked path (pre ++ [n]) /\
      exists h, hd_error (pre ++ [n]) = Some h /\ dict_get h path = None.
Proof.
  induction fuel as [ | fuel IH]; intros n acc p Hrun; [ discriminate | ].
  cbn [reconstruct_path] in Hrun.
  destruct (dict_get n path) as [previous | ] eqn:Hn.
  - destruct (IH _ _ _ Hrun) as (pre & -> & Hlinked & h & Hh & Hnone).
    exists (pre ++ [previous]). split; [ | split ].
    + rewrite <- app_assoc. reflexivity.
    + apply linked_snoc. auto.
    + exists h. rewrite hd_error_snoc. auto.
  - injection Hrun as <-. exists []. cbn. eauto.
Qed.

Lemma reconstruct_path_of_chain (path : dict node node) (pre : list node) :
  forall n acc fuel h,
    linked path (pre ++ [n]) ->
    hd_error (pre ++ [n]) = Some h -> dict_get h path = None ->
    List.length (pre ++ [n]) <= fuel ->
    reconstruct_path fuel n path acc = Ok (pre ++ n :: acc).
Proof.
  induction pre as [ | m pre IH] using rev_ind;
    intros n acc fuel h Hlinked Hh Hnone Hfuel.
  - cbn in Hh. injection Hh as ->.
    destruct fuel as [ | fuel]; [ cbn in Hfuel; lia | ].
    cbn [reconstruct_path]. rewrite Hnone. reflexivity.
  - apply linked_snoc in Hlinked. destruct Hlinked as [Hlinked Hn].
    rewrite hd_error_snoc in Hh.
    rewrite length_app in Hfuel. cbn [List.length] in Hfuel.
    destruct fuel as [ | fuel]; [ lia | ].
    cbn [reconstruct_path]. rewrite Hn.
    rewrite (IH m (n :: acc) fuel h Hlinked Hh Hnone) by lia.
    rewrite <- app_assoc. reflexivity.
Qed.

(** X12. [reconstruct_path] returns the chain of predecessors of the
    node, oldest first: what it returns ends with the node, each entry
    but the first has the entry before it as its predecessor in [path],
    and the first entry has none.  Conversely a list of that shape is
    what it returns, once the loop is given as many turns as the list is
    long. *)
Theorem reconstruct_path_is_the_predecessor_chain (path : dict node node)
  (n : node) (p : list node) :
  (forall fuel,
      reconstruct_path fuel n path [] = Ok p ->
      exists pre h,
        p = pre ++ [n] /\ linked path p /\
        hd_error p = Some h /\ dict_get h path = None) /\
  (forall pre h,
      p = pre ++ [n] -> linked path p ->
      hd_error p = Some h -> dict_get h path = None ->
      forall fuel,
        List.length p <= fuel -> reconstruct_path fuel n path [] = Ok p).
Proof.
  split.
  - intros fuel Hrun.
    destruct (reconstruct_path_chain _ _ _ _ Hrun)
      as (pre & -> & Hlinked & h & Hh & Hnone).
    exists pre, h. auto.
  - intros pre h -> Hlinked Hh Hnone fuel Hfuel.
    apply reconstruct_path_of_chain with (h := h); assumption.
Qed.

Lemma reconstruct_path_is_the_predecessor_chain_witness :
  reconstruct_path 3 3 [(2, 1); (3, 2)] [] = Ok [1; 2; 3].
Proof.
  apply (proj2 (reconstruct_path_is_the_predecessor_chain [(2, 1); (3, 2)] 3
                  [1; 2; 3])) with (pre := [1; 2]) (h := 1).
  - reflexivity.
  - cbn. auto.
  - reflexivity.
  - reflexivity.
  - cbn. lia.
Defined.

(** *** What the search returns *)

Lemma fold_left_in_inv {S A : Type} (f : S -> A -> S) (P : S -> Prop)
  (l : list A) :
  (forall s x, In x l -> P s -> P (f s x)) ->
  forall s, P s -> P (fold_left f l s).
Proof.
  induction l as [ | x l IH]; cbn [fold_left]; intros Hf s HP;
    [ exact HP | ].
  apply IH; [ intros t y Hy; apply Hf; right; exact Hy | ].
  apply Hf; [ left; reflexivity | exact HP ].
Qed.

Lemma set_remove_subset {A : Type} `{EqDec A} (x : A) (l r : list A) :
  set_remove x l = Some r -> In x l /\ forall y, In y r -> In y l.
Proof.
  revert r. induction l as [ | a l IH]; cbn [set_remove]; intros r Hr;
    [ discriminate | ].
  destruct (eq_dec x a) as [-> | Hne].
  - injection Hr as <-. split; [ left; reflexivity | intros y Hy; right; exact Hy ].
  - destruct (set_remove x l) as [r' | ]; [ | discriminate ].
    injection Hr as <-. destruct (IH r' eq_refl) as [Hx Hsub].
    split; [ right; exact Hx | ].
    intros y [-> | Hy]; [ left; reflexivity | right; apply Hsub, Hy ].
Qed.

Lemma set_remove_keeps {A : Type} `{EqDec A} (x : A) (l r : list A) :
  set_remove x l = Some r -> forall y, y <> x -> In y l -> In y r.
Proof.
  intros Hr y Hy Hin.
  destruct (SignalFacts.set_remove_In x l (proj1 (set_remove_subset _ _ Hr)))
    as (r' & Hr' & Hkeep).
  rewrite Hr in Hr'. injection Hr' as <-. apply Hkeep; assumption.
Qed.

Section SearchFacts.
Variable graph : Graph.
Variable is_finished : node -> node -> dict node node -> bool.
Variable goal start : node.

Lemma relax_open (current nb n : node) (st : Search) :
  In n (open_set st) -> In n (open_set (relax graph goal current st nb)).
Proof.
  intros Hn. unfold relax.
  destruct (set_mem nb (closed_set st)); [ exact Hn | ].
  destruct (negb (set_mem nb (open_set st))
            || (g_score st current + get_g_score_from graph nb current
                <? g_score st nb)%Z); [ | exact Hn ].
  cbn [open_set]. destruct (set_mem nb (open_set st)); [ exact Hn | ].
  apply SignalFacts.set_add_In. right. exact Hn.
Qed.

Lemma relax_closed (current nb : node) (st : Search) :
  closed_set (relax graph goal current st nb) = closed_set st.
Proof.
  unfold relax.
  destruct (set_mem nb (closed_set st)); [ reflexivity | ].
  destruct (negb (set_mem nb (open_set st))
            || (g_score st current + get_g_score_from graph nb current
                <? g_score st nb)%Z); reflexivity.
Qed.

Lemma relax_met (current nb : node) (st : Search) :
  In nb (open_set (relax graph goal current st nb))
  \/ In nb (closed_set (relax graph goal current st nb)).
Proof.
  unfold relax.
  destruct (set_mem nb (closed_set st)) eqn:Hc.
  - right. apply SignalFacts.set_mem_In. exact Hc.
  - destruct (set_mem nb (open_set st)) eqn:Ho; cbn [negb orb].
    + left. apply SignalFacts.set_mem_In in Ho.
      destruct (g_score st current + get_g_score_from graph nb current
                <? g_score st nb)%Z; exact Ho.
    + left. cbn [open_set]. apply SignalFacts.set_add_In. left. reflexivity.
Qed.

Lemma relax_inv (current nb : node) (st : Search) :
  In current (closed_set st) ->
  In nb (neighbours graph current) ->
  search_inv graph start st ->
  search_inv graph start (relax graph goal current st nb).
Proof.
  intros Hcur Hnb (Hstart & Hpred & Hmet). unfold relax, search_inv.
  destruct (set_mem nb (closed_set st)) eqn:Hc;
    [ exact (conj Hstart (conj Hpred Hmet)) | ].
  destruct (negb (set_mem nb (open_set st))
            || (g_score st current + get_g_score_from graph nb current
                <? g_score st nb)%Z);
    [ | exact (conj Hstart (conj Hpred Hmet)) ].
  split; [ exact Hstart | split ]; cbn [path closed_set open_set].
  - intros n p. rewrite SignalFacts.dict_get_set.
    destruct (eq_dec n nb) as [-> | Hn]; [ | apply Hpred ].
    intros [= <-]. auto.
  - intros n Hn. rewrite SignalFacts.dict_get_set.
    destruct (eq_dec n nb) as [-> | Hne]; [ right; discriminate | ].
    apply Hmet. destruct Hn as [Hn | Hn]; [ left | right; exact Hn ].
    destruct (set_mem nb (open_set st)); [ exact Hn | ].
    apply SignalFacts.set_add_In in Hn. destruct Hn; [ contradiction | assumption ].
Qed.

Lemma linked_walk (path : dict node node) (l : list node) :
  (forall n p, dict_get n path = Some p -> In n (neighbours graph p)) ->
  linked path l -> is_walk graph l.
Proof.
  intros Hpred. induction l as [ | x l IH]; [ exact (fun _ => I) | ].
  destruct l as [ | y l]; [ exact (fun _ => I) | ].
  intros [Hy Hrest]. split; [ apply Hpred, Hy | apply IH, Hrest ].
Qed.

Lemma linked_predecessors (path : dict node node) (pre : list node) (n : node) :
  linked path (pre ++ [n]) ->
  forall x, In x pre -> exists y, dict_get y path = Some x.
Proof.
  induction pre as [ | a pre IH]; intros Hlinked x Hx; [ destruct Hx | ].
  destruct pre as [ | b pre].
  - destruct Hx as [<- | []]. destruct Hlinked as [Hn _]. eauto.
  - destruct Hlinked as [Hb Hrest].
    destruct Hx as [<- | Hx]; [ eauto | exact (IH Hrest x Hx) ].
Qed.

Lemma search_walk (fuel : nat) :
  forall st p,
    search_inv graph start st ->
    search graph is_finished fuel goal st = Ok p ->
    exists pre final path',
      p = pre ++ [final] /\ hd_error p = Some start /\ is_walk graph p /\
      is_finished final goal path' = true.
Proof.
  induction fuel as [ | fuel IH]; intros st p Hinv Hrun; [ discriminate | ].
  cbn [search] in Hrun.
  destruct (open_set st) as [ | o os] eqn:Hopen; [ discriminate | ].
  destruct (heappop (f_scored st)) as [[[f current] heap] | ];
    [ | discriminate ].
  rewrite <- Hopen in Hrun.
  destruct (set_remove current (open_set st)) as [remaining | ] eqn:Hrem;
    [ | discriminate ].
  destruct (set_remove_subset _ _ Hrem) as [Hcur Hsub].
  destruct Hinv as (Hstart & Hpred & Hmet).
  cbn [path] in Hrun.
  destruct (is_finished current goal (path st)) eqn:Hfin.
  - destruct (reconstruct_path_chain _ _ _ _ Hrun)
      as (pre & -> & Hlinked & h & Hh & Hnone).
    exists pre, current, (path st).
    split; [ reflexivity | split; [ | split; [ | exact Hfin ] ] ].
    + rewrite Hh. f_equal.
      assert (Hhmet : In h (open_set st) \/ In h (closed_set st)).
      { destruct pre as [ | a pre].
        - cbn in Hh. injection Hh as <-. left. exact Hcur.
        - cbn in Hh. injection Hh as <-. right.
          destruct (linked_predecessors _ _ _ Hlinked a (or_introl eq_refl))
            as (y & Hy).
          apply (Hpred _ _ Hy). }
      destruct (Hmet h Hhmet) as [-> | Hsome]; [ reflexivity | contradiction ].
    + apply linked_walk with (path := path st); [ | exact Hlinked ].
      intros n q Hq. apply (Hpred _ _ Hq).
  - refine (IH _ _ (proj1 _) Hrun).
    apply fold_left_in_inv
      with (P := fun t => search_inv graph start t
                          /\ In current (closed_set t)).
    + intros t nb Hnb [Ht Hct]. split.
      * apply relax_inv; assumption.
      * rewrite relax_closed. exact Hct.
    + split.
      * split; [ | split ]; cbn [closed_set path open_set].
        -- apply SignalFacts.set_add_In. right. exact Hstart.
        -- intros n q Hq. destruct (Hpred _ _ Hq) as [Hn Hclosed].
           split; [ exact Hn | ].
           apply SignalFacts.set_add_In. right. exact Hclosed.
        -- intros n Hn. apply Hmet.
           destruct Hn as [Hn | Hn]; [ left; apply Hsub, Hn | ].
           apply SignalFacts.set_add_In in Hn.
           destruct Hn as [-> | Hn]; [ left; exact Hcur | right; exact Hn ].
      * cbn [closed_set]. apply SignalFacts.set_add_In. left. reflexivity.
Qed.

(** X13. What [find_path] returns is a route: when the search started
    from [start] returns a path, the path begins with [start], each
    further entry is a neighbour of the entry before it, and the goal
    test held of its last entry when it was taken from the heap.  This
    does not depend on the [g_score] attributes the nodes carry from an
    earlier search. *)
Theorem astar_returns_a_walk_from_the_start (fuel : nat) (g0 : dict node Z)
  (p : list node)
  (Hrun : search graph is_finished fuel goal (first_search start g0) = Ok p) :
  exists pre final path',
    p = pre ++ [final] /\ hd_error p = Some start /\ is_walk graph p /\
    is_finished final goal path' = true.
Proof.
  destruct fuel as [ | fuel]; [ discriminate | ].
  unfold first_search in Hrun.
  cbn [search open_set f_scored heappop least closed_set path g_scores
         set_remove] in Hrun.
  destruct (eq_dec start start) as [_ | Hne]; [ | congruence ].
  destruct (is_finished start goal []) eqn:Hfin.
  - cbn in Hrun. injection Hrun as <-.
    exists [], start, []. cbn. auto.
  - refine (search_walk _ (proj1 _) Hrun).
    apply fold_left_in_inv
      with (P := fun t => search_inv graph start t
                          /\ In start (closed_set t)).
    + intros t nb Hnb [Ht Hct]. split.
      * apply relax_inv; assumption.
      * rewrite relax_closed. exact Hct.
    + unfold search_inv. cbn.
      split; [ split; [ | split ] | ]; auto.
      * intros n q Hq. discriminate.
      * intros n [[] | [<- | []]]. left. reflexivity.
Qed.

(** *** When the search gives up *)

Lemma reconstruct_path_returns (path : dict node node) (e : exn) (fuel : nat) :
  forall n acc, reconstruct_path fuel n path acc <> Raise e.
Proof.
  induction fuel as [ | fuel IH]; intros n acc; cbn [reconstruct_path];
    [ discriminate | ].
  destruct (dict_get n path); [ apply IH | discriminate ].
Qed.

Lemma fold_left_processed {S A : Type} (f : S -> A -> S) (P : S -> Prop)
  (R : A -> S -> Prop) (l : list A) :
  (forall s x, P s -> P (f s x)) ->
  (forall s x, P s -> R x (f s x)) ->
  (forall s x y, P s -> R y s -> R y (f s x)) ->
  forall s,
    P s ->
    P (fold_left f l s) /\ forall x, In x l -> R x (fold_left f l s).
Proof.
  intros HP HR Hmono. induction l as [ | a l IH] using rev_ind; intros s Hs.
  - split; [ exact Hs | intros x [] ].
  - rewrite fold_left_app. cbn [fold_left].
    destruct (IH s Hs) as [HPl HRl]. split; [ apply HP, HPl | ].
    intros x Hx. apply in_app_or in Hx. destruct Hx as [Hx | [<- | []]].
    + apply Hmono; [ exact HPl | apply HRl, Hx ].
    + apply HR, HPl.
Qed.

Lemma closed_when_exhausted (st : Search) :
  explored graph is_finished goal start None st ->
  open_set st = [] ->
  forall n, reachable graph start n -> In n (closed_set st).
Proof.
  intros (Hstart & _ & Hnext) Hopen n Hn. rewrite Hopen in *.
  induction Hn as [ | c n Hc IH Hstep].
  - destruct Hstart as [[] | Hstart]. exact Hstart.
  - destruct (Hnext c n IH) as [[] | Hclosed]; [ discriminate | exact Hstep | ].
    exact Hclosed.
Qed.

Lemma search_explored (fuel : nat) :
  forall st,
    explored graph is_finished goal start None st ->
    search graph is_finished fuel goal st = Raise PathNotFoundException ->
    forall n,
      reachable graph start n -> exists path', is_finished n goal path' = false.
Proof.
  induction fuel as [ | fuel IH]; intros st Hexp Hrun; [ discriminate | ].
  cbn [search] in Hrun.
  destruct (open_set st) as [ | o os] eqn:Hopen.
  - intros n Hn. destruct Hexp as (Hstart & Htested & Hnext).
    apply Htested.
    apply closed_when_exhausted; [ exact (conj Hstart (conj Htested Hnext)) | | ];
      assumption.
  - destruct (heappop (f_scored st)) as [[[f current] heap] | ];
      [ | discriminate ].
    rewrite <- Hopen in Hrun. clear Hopen o os.
    destruct (set_remove current (open_set st)) as [remaining | ] eqn:Hrem;
      [ | discriminate ].
    cbn [path] in Hrun.
    destruct (is_finished current goal (path st)) eqn:Hfin.
    { exfalso. eapply reconstruct_path_returns. exact Hrun. }
    destruct Hexp as (Hstart & Htested & Hnext).
    set (st' := mkSearch remaining (set_add current (closed_set st)) (path st)
                  heap (g_scores st)) in *.
    assert (Hst' : explored graph is_finished goal start (Some current) st'
                   /\ In current (closed_set st')).
    { split; [ | apply SignalFacts.set_add_In; left; reflexivity ].
      assert (Hmoved : forall n,
                 In n (open_set st) \/ In n (closed_set st) ->
                 In n (open_set st') \/ In n (closed_set st')).
      { intros n [Hn | Hn]; cbn [open_set closed_set st'].
        - destruct (eq_dec n current) as [-> | Hne].
          + right. apply SignalFacts.set_add_In. left. reflexivity.
          + left. eapply set_remove_keeps; eassumption.
        - right. apply SignalFacts.set_add_In. right. exact Hn. }
      split; [ apply Hmoved, Hstart | split ].
      - intros c Hc. cbn [closed_set st'] in Hc.
        apply SignalFacts.set_add_In in Hc.
        destruct Hc as [-> | Hc]; [ eauto | apply Htested, Hc ].
      - intros c n Hc Hne Hn. cbn [closed_set st'] in Hc.
        apply SignalFacts.set_add_In in Hc.
        destruct Hc as [-> | Hc]; [ congruence | ].
        apply Hmoved. apply (Hnext c n Hc); [ discriminate | exact Hn ]. }
    clearbody st'.
    destruct (@fold_left_processed _ _ (relax graph goal current)
                (fun t => explored graph is_finished goal start (Some current) t
                          /\ In current (closed_set t))
                (fun n t => In n (open_set t) \/ In n (closed_set t))
                (neighbours graph current)) with (s := st')
      as [[(Hstart' & Htested' & Hnext') Hcur'] Hdone].
    + intros t nb [(Hs & Ht & Hn) Hc]. split; [ | rewrite relax_closed; exact Hc ].
      split; [ | split ].
      * destruct Hs as [Hs | Hs];
          [ left; apply relax_open, Hs | right; rewrite relax_closed; exact Hs ].
      * intros c. rewrite relax_closed. apply Ht.
      * intros c n. rewrite relax_closed. intros Hcc Hne Hin.
        destruct (Hn c n Hcc Hne Hin) as [Ho | Hcl];
          [ left; apply relax_open, Ho | right; exact Hcl ].
    + intros t nb _. apply relax_met.
    + intros t nb n _ [Ho | Hcl];
        [ left; apply relax_open, Ho | right; rewrite relax_closed; exact Hcl ].
    + exact Hst'.
    + refine (IH _ _ Hrun).
      split; [ exact Hstart' | split; [ exact Htested' | ] ].
      intros c n Hc _ Hn. destruct (eq_dec c current) as [-> | Hne].
      * apply Hdone, Hn.
      * apply (Hnext' c n Hc); [ congruence | exact Hn ].
Qed.

End SearchFacts.

Lemma astar_returns_a_walk_from_the_start_witness :
  exists pre final path',
    [0; 1] = pre ++ [final] /\ hd_error [0; 1] = Some 0 /\
    is_walk stale_graph [0; 1] /\ at_goal final 1 path' = true.
Proof.
  apply (@astar_returns_a_walk_from_the_start stale_graph at_goal 1 0 3 []
           [0; 1]).
  reflexivity.
Defined.


(** *** The way points of the funnel *)

Section FunnelExtras.
Variable point : Type.
Variable point_eqb : point -> point -> bool.
Variable triangle_area_squared : point -> point -> point -> sign.
Hypothesis point_eqb_refl : forall a, point_eqb a a = true.
Hypothesis degenerate_area : forall a c, triangle_area_squared a a c = Null.
Variable cnode : Type.
Variable get_portal_to : cnode -> cnode -> Portal point.

Lemma update_step_within (allowed : list point) (portal : Portal point)
  (i : Z) (f : Funnel point) :
  In (left portal) allowed -> In (right portal) allowed ->
  within allowed f ->
  within allowed
    (update_step point_eqb triangle_area_squared portal (with_index i f)).
Proof.
  intros Hl Hr (Hfl & Hfr & Hap & Haps).
  destruct f as [fl fr ap aps ix li ri]. unfold update_step, with_index, within.
  cbn [index apex funnel_left funnel_right left_index right_index apexes]
    in *.
  assert (Hsnoc : forall x, In x allowed ->
             Forall (fun p => In p allowed) (aps ++ [x])).
  { intros x Hx. apply Forall_app. split; [ exact Haps | ].
    constructor; [ exact Hx | constructor ]. }
  destruct (ge0 (triangle_area_squared ap fl (left portal)));
    [ destruct (point_eqb ap fl
                || lt0 (triangle_area_squared ap fr (left portal))) | ];
    cbn [index apex funnel_left funnel_right left_index right_index apexes];
    try (destruct (le0 (triangle_area_squared ap fr (right portal)));
         [ destruct (point_eqb ap fr
                     || gt0 (triangle_area_squared ap _ (right portal))) | ];
         cbn [index apex funnel_left funnel_right left_index right_index
                apexes]);
    auto 6.
Qed.

Lemma update_loop_within (allowed : list point) (portals : list (Portal point))
  (Hportals : forall portal,
      In portal portals ->
      In (left portal) allowed /\ In (right portal) allowed)
  (fuel : nat) :
  forall f f',
    within allowed f ->
    update_loop point_eqb triangle_area_squared fuel portals f = Some f' ->
    within allowed f'.
Proof.
  induction fuel as [ | fuel IH]; intros f f' Hf Hrun; [ discriminate | ].
  cbn [update_loop] in Hrun. unfold iterator_next in Hrun.
  destruct (nth_error portals (Z.to_nat (index f + 1))) as [portal | ] eqn:E.
  - apply nth_error_In in E. destruct (Hportals portal E) as [Hl Hr].
    refine (IH _ _ _ Hrun). apply update_step_within; assumption.
  - injection Hrun as <-. exact Hf.
Qed.

(** X15. The funnel algorithm turns corners at portal corners only: given
    turns enough for its loop it returns a path, and every point of the
    path is the source, the destination, or the left or right end of the
    portal between two consecutive nodes of the corridor. *)
Theorem funnel_turns_at_portal_corners (fuel : nat)
  (source destination : point) (nodes : list cnode)
  (Hfuel : (List.length nodes + 2) * (List.length nodes + 2) <= fuel) :
  exists way,
    funnel_find_path point_eqb triangle_area_squared get_portal_to fuel source
      destination nodes = Ok way /\
    Forall
      (fun p =>
         p = source \/ p = destination \/
         exists a b,
           In (a, b) (look_ahead nodes) /\
           (p = left (get_portal_to a b) \/ p = right (get_portal_to a b)))
      way.
Proof.
  destruct (@PathFacts.funnel_find_path_ends point point_eqb
              triangle_area_squared point_eqb_refl degenerate_area cnode
              get_portal_to fuel source destination nodes Hfuel)
    as (middle & Hrun).
  unfold funnel_find_path in *.
  set (portals := map (fun sd => get_portal_to (fst sd) (snd sd))
                    (look_ahead nodes)
                  ++ [EndPortal destination destination]) in *.
  set (allowed :=
         source :: destination
         :: corners (map (fun sd => get_portal_to (fst sd) (snd sd))
                       (look_ahead nodes))).
  destruct (update point_eqb triangle_area_squared fuel source source source
              [source] portals) as [f | ] eqn:Hupdate; [ | discriminate ].
  exists (apexes f ++ [destination]). split; [ reflexivity | ].
  assert (Hwithin : within allowed f).
  { unfold update in Hupdate.
    apply (@update_loop_within allowed portals) with (fuel := fuel)
      (f := mkFunnel source source source [source] iterator_start
              iterator_start iterator_start); [ | | exact Hupdate ].
    - intros portal Hin. subst portals allowed. apply in_app_or in Hin.
      destruct Hin as [Hin | [<- | []]].
      + split; right; right; apply in_flat_map; exists portal;
          (split; [ exact Hin | ]); [ left | right; left ]; reflexivity.
      + split; right; left; reflexivity.
    - subst allowed. repeat split; try (left; reflexivity).
      constructor; [ left; reflexivity | constructor ]. }
  assert (Hallowed : forall p,
             In p allowed ->
             p = source \/ p = destination \/
             exists a b,
               In (a, b) (look_ahead nodes) /\
               (p = left (get_portal_to a b) \/ p = right (get_portal_to a b))).
  { intros p [<- | [<- | Hin]]; [ auto | auto | ].
    right; right. apply in_flat_map in Hin.
    destruct Hin as (portal & Hportal & Hp). apply in_map_iff in Hportal.
    destruct Hportal as ([a b] & <- & Hab). exists a, b.
    split; [ exact Hab | ]. cbn [fst snd] in Hp.
    destruct Hp as [<- | [<- | []]]; auto. }
  destruct Hwithin as (_ & _ & _ & Haps).
  apply Forall_app. split.
  - apply Forall_forall. intros p Hp. apply Hallowed.
    rewrite Forall_forall in Haps. apply Haps, Hp.
  - constructor; [ auto | constructor ].
Qed.

(** X16. A corridor of fewer than two nodes has no portal to cross: the
    funnel algorithm returns the straight line from the source to the
    destination, after two turns of its loop. *)
Theorem short_corridor_is_a_straight_line (fuel : nat)
  (source destination : point) (nodes : list cnode)
  (Hnodes : List.length nodes <= 1) :
  funnel_find_path point_eqb triangle_area_squared get_portal_to (2 + fuel)
    source destination nodes = Ok [source; destination].
Proof.
  assert (Hnone : look_ahead nodes = []).
  { destruct nodes as [ | a [ | b rest]]; [ reflexivity | reflexivity | ].
    cbn [List.length] in Hnodes. lia. }
  unfold funnel_find_path, update. rewrite Hnone.
  cbn [map app Nat.add update_loop iterator_next iterator_start index
         with_index Z.add Z.to_nat nth_error Z.opp Pos.compare
         Z.pos_sub Pos.pred_double].
  cbn. unfold update_step.
  cbn [apex funnel_left funnel_right left right EndPortal index left_index
         right_index apexes].
  rewrite degenerate_area, point_eqb_refl. cbn.
  rewrite degenerate_area, point_eqb_refl. cbn.
  reflexivity.
Qed.
End FunnelExtras.

Lemma funnel_turns_at_portal_corners_witness :
  exists way,
    funnel_find_path plane_eqb plane_area plane_portal 36 (1, 0)%Z (1, 3)%Z
      [0; 1; 2; 3] = Ok way /\
    Forall
      (fun p =>
         p = (1, 0)%Z \/ p = (1, 3)%Z \/
         exists a b,
           In (a, b) (look_ahead [0; 1; 2; 3]) /\
           (p = left (plane_portal a b) \/ p = right (plane_portal a b)))
      way.
Proof.
  apply (@funnel_turns_at_portal_corners plane_point plane_eqb plane_area
           PathFacts.plane_eqb_refl PathFacts.plane_area_degenerate nat
           plane_portal 36 (1, 0)%Z (1, 3)%Z [0; 1; 2; 3]).
  cbn. lia.
Defined.

Lemma short_corridor_is_a_straight_line_witness :
  funnel_find_path plane_eqb plane_area plane_portal (2 + 0) (1, 0)%Z (5, 3)%Z
    [7] = Ok [(1, 0)%Z; (5, 3)%Z].
Proof.
  apply (@short_corridor_is_a_straight_line plane_point plane_eqb plane_area
           PathFacts.plane_eqb_refl PathFacts.plane_area_degenerate nat
           plane_portal 0 (1, 0)%Z (5, 3)%Z [7]).
  cbn. lia.
Defined.

(** *** The exceptions of the search *)

Lemma least_In (heap : list entry) :
  forall x, In (least x heap) (x :: heap).
Proof.
  induction heap as [ | y heap IH]; intros x; cbn [least].
  - left. reflexivity.
  - destruct (entry_le x y).
    + destruct (IH x) as [Heq | Hin]; [ left; exact Heq | right; right; exact Hin ].
    + right. apply IH.
Qed.

Lemma drop_entry_keeps (m y : entry) (heap : list entry) :
  In y heap -> y <> m -> In y (drop_entry m heap).
Proof.
  induction heap as [ | z heap IH]; cbn [drop_entry In]; [ tauto | ].
  intros [-> | Hin] Hne.
  - destruct (eq_dec m y); [ congruence | left; reflexivity ].
  - destruct (eq_dec m z); [ exact Hin | right; apply IH; assumption ].
Qed.

Lemma drop_entry_subset (m y : entry) (heap : list entry) :
  In y (drop_entry m heap) -> In y heap.
Proof.
  induction heap as [ | z heap IH]; cbn [drop_entry In]; [ tauto | ].
  destruct (eq_dec m z); [ auto | ].
  intros [-> | Hin]; [ left; reflexivity | right; apply IH, Hin ].
Qed.

Lemma drop_entry_nodes (m : entry) (heap : list entry) :
  NoDup (map snd heap) -> In m heap ->
  NoDup (map snd (drop_entry m heap)) /\
  forall y, In y (drop_entry m heap) -> snd y <> snd m.
Proof.
  induction heap as [ | z heap IH]; cbn [drop_entry map In]; [ tauto | ].
  intros Hnd Hin. inversion Hnd as [ | a l Hnot Hrest ]; subst.
  destruct (eq_dec m z) as [<- | Hne].
  - split; [ exact Hrest | ].
    intros y Hy Heq. apply Hnot. rewrite <- Heq. apply in_map, Hy.
  - destruct Hin as [-> | Hin]; [ congruence | ].
    destruct (IH Hrest Hin) as [Hnd' Hother]. split.
    + cbn [map]. constructor; [ | exact Hnd' ].
      intros Hz. apply in_map_iff in Hz. destruct Hz as (y & Hy & Hiny).
      apply Hnot. rewrite <- Hy. apply in_map, (drop_entry_subset _ _ _ Hiny).
    + intros y [<- | Hy]; [ | apply Hother, Hy ].
      intros Heq. apply Hnot. rewrite Heq. apply in_map, Hin.
Qed.

Lemma heappop_spec (heap rest : list entry) (m : entry) :
  heappop heap = Some (m, rest) ->
  In m heap /\ rest = drop_entry m heap.
Proof.
  destruct heap as [ | x heap]; cbn [heappop]; [ discriminate | ].
  intros [= <- <-]. split; [ apply least_In | reflexivity ].
Qed.

Section SearchExceptions.
Variable graph : Graph.
Variable is_finished : node -> node -> dict node node -> bool.
Variable goal : node.

Lemma relax_covers (current nb : node) (st : Search) :
  heap_covers_open st -> heap_covers_open (relax graph goal current st nb).
Proof.
  intros [Hnd Hcov]. unfold relax.
  destruct (set_mem nb (closed_set st)); [ exact (conj Hnd Hcov) | ].
  destruct (negb (set_mem nb (open_set st))
            || (g_score st current + get_g_score_from graph nb current
                <? g_score st nb)%Z); [ | exact (conj Hnd Hcov) ].
  split; cbn [open_set f_scored].
  - destruct (set_mem nb (open_set st)); [ exact Hnd | ].
    apply SignalFacts.set_add_NoDup, Hnd.
  - intros n Hn. unfold heappush.
    assert (Hcases : n = nb \/ In n (open_set st)).
    { destruct (set_mem nb (open_set st)); [ right; exact Hn | ].
      apply SignalFacts.set_add_In in Hn. exact Hn. }
    destruct Hcases as [-> | Hold].
    + eexists. apply in_or_app. right. left. reflexivity.
    + destruct (Hcov n Hold) as (f & Hf). exists f.
      apply in_or_app. left. exact Hf.
Qed.

Lemma search_covered (fuel : nat) :
  forall st e,
    heap_covers_open st ->
    search graph is_finished fuel goal st = Raise e ->
    e = PathNotFoundException \/ e = KeyError.
Proof.
  induction fuel as [ | fuel IH]; intros st e Hcov Hrun; [ discriminate | ].
  cbn [search] in Hrun.
  destruct (open_set st) as [ | o os] eqn:Hopen.
  - injection Hrun as <-. left. reflexivity.
  - destruct Hcov as [Hnd Hcov].
    destruct (heappop (f_scored st)) as [[[f current] heap] | ] eqn:Hpop.
    2:{ exfalso. destruct (Hcov o) as (fo & Hfo).
        - rewrite Hopen. left. reflexivity.
        - destruct (f_scored st); [ destruct Hfo | discriminate ]. }
    rewrite <- Hopen in Hrun. clear Hopen o os.
    destruct (set_remove current (open_set st)) as [remaining | ] eqn:Hrem.
    2:{ injection Hrun as <-. right. reflexivity. }
    cbn [path] in Hrun.
    destruct (is_finished current goal (path st)).
    { exfalso. eapply reconstruct_path_returns. exact Hrun. }
    refine (IH _ _ _ Hrun).
    apply fold_left_in_inv with (P := heap_covers_open).
    { intros t nb _ Ht. apply relax_covers, Ht. }
    destruct (heappop_spec _ Hpop) as [Hm ->].
    destruct (@SignalExtras.set_remove_NoDup node _ current (open_set st)
                remaining Hnd Hrem) as [Hndr Hiff].
    split; cbn [open_set f_scored]; [ exact Hndr | ].
    intros n Hn. apply Hiff in Hn. destruct Hn as [Hn Hne].
    destruct (Hcov n Hn) as (fn & Hfn). exists fn.
    apply drop_entry_keeps; [ exact Hfn | ].
    intros [= _ ->]. contradiction.
Qed.

End SearchExceptions.


(** *** Graphs in which no node has two ways in *)

Lemma NoDup_snoc {A : Type} (l : list A) (x : A) :
  NoDup l -> ~ In x l -> NoDup (l ++ [x]).
Proof.
  induction l as [ | a l IH]; cbn [app]; intros Hnd Hnot.
  - constructor; [ intros [] | constructor ].
  - inversion Hnd as [ | a' l' Ha Hrest ]; subst. constructor.
    + intros Hin. apply in_app_or in Hin. destruct Hin as [Hin | [<- | []]].
      * contradiction.
      * apply Hnot. left. reflexivity.
    + apply IH; [ exact Hrest | ]. intros Hin. apply Hnot. right. exact Hin.
Qed.

Section SingleEntry.
Variable graph : Graph.
Variable is_finished : node -> node -> dict node node -> bool.
Variable goal : node.
Hypothesis Hsingle : single_entry graph.

Lemma relax_fold_tidy (current : node) (l : list node) :
  forall st,
    tidy graph st ->
    In current (closed_set st) ->
    NoDup l ->
    (forall n, In n l -> In n (neighbours graph current)) ->
    (forall n, In n (open_set st) -> ~ In n l) ->
    tidy graph (fold_left (relax graph goal current) l st).
Proof.
  induction l as [ | nb l IH]; intros st Htidy Hcur Hnd Hsub Hfresh;
    [ exact Htidy | ].
  cbn [fold_left]. inversion Hnd as [ | a l' Hnb Hnd' ]; subst.
  assert (Hopen : set_mem nb (open_set st) = false).
  { destruct (set_mem nb (open_set st)) eqn:E; [ | reflexivity ].
    apply SignalFacts.set_mem_In in E. exfalso.
    apply (Hfresh nb E). left. reflexivity. }
  unfold relax at 2. rewrite Hopen. cbn [negb orb].
  destruct (set_mem nb (closed_set st)) eqn:Hclosed.
  - apply IH; auto.
    + intros n Hn. apply Hsub. right. exact Hn.
    + intros n Hn Hin. apply (Hfresh n Hn). right. exact Hin.
  - assert (Hnotopen : ~ In nb (open_set st)).
    { intros Hin. apply SignalFacts.set_mem_In in Hin. congruence. }
    assert (Hnotclosed : ~ In nb (closed_set st)).
    { intros Hin. apply SignalFacts.set_mem_In in Hin. congruence. }
    assert (Hadd : set_add nb (open_set st) = open_set st ++ [nb]).
    { unfold set_add. rewrite Hopen. reflexivity. }
    destruct Htidy as ([Hndo Hcov] & Hndh & Hheap & Hdisj & Hparent).
    apply IH; cbn [open_set closed_set f_scored]; auto.
    + unfold tidy, heap_covers_open. cbn [open_set closed_set f_scored].
      rewrite Hadd. unfold heappush.
      split; [ split | split; [ | split; [ | split ] ] ].
      * apply NoDup_snoc; assumption.
      * intros n Hn. apply in_app_or in Hn. destruct Hn as [Hn | [<- | []]].
        -- destruct (Hcov n Hn) as (f & Hf). exists f.
           apply in_or_app. left. exact Hf.
        -- eexists. apply in_or_app. right. left. reflexivity.
      * rewrite map_app. cbn [map snd]. apply NoDup_snoc; [ exact Hndh | ].
        intros Hin. apply in_map_iff in Hin. destruct Hin as (e & He & Hin).
        apply Hnotopen. rewrite <- He. apply Hheap, Hin.
      * intros e He. apply in_app_or in He. apply in_or_app.
        destruct He as [He | [<- | []]];
          [ left; apply Hheap, He | right; left; reflexivity ].
      * intros n Hn. apply in_app_or in Hn.
        destruct Hn as [Hn | [<- | []]]; [ apply Hdisj, Hn | exact Hnotclosed ].
      * intros n Hn. apply in_app_or in Hn. destruct Hn as [Hn | [<- | []]].
        -- apply Hparent, Hn.
        -- exists current. split; [ exact Hcur | ]. apply Hsub. left. reflexivity.
    + intros n Hn. apply Hsub. right. exact Hn.
    + rewrite Hadd. intros n Hn Hin. apply in_app_or in Hn.
      destruct Hn as [Hn | [<- | []]].
      * apply (Hfresh n Hn). right. exact Hin.
      * contradiction.
Qed.

Lemma search_tidy (fuel : nat) :
  forall st e,
    tidy graph st ->
    search graph is_finished fuel goal st = Raise e ->
    e = PathNotFoundException.
Proof.
  induction fuel as [ | fuel IH]; intros st e Htidy Hrun; [ discriminate | ].
  cbn [search] in Hrun.
  destruct (open_set st) as [ | o os] eqn:Hopen.
  - injection Hrun as <-. reflexivity.
  - destruct Htidy as ([Hndo Hcov] & Hndh & Hheap & Hdisj & Hparent).
    destruct (heappop (f_scored st)) as [[[f current] heap] | ] eqn:Hpop.
    2:{ exfalso. destruct (Hcov o) as (fo & Hfo).
        - rewrite Hopen. left. reflexivity.
        - destruct (f_scored st); [ destruct Hfo | discriminate ]. }
    rewrite <- Hopen in Hrun. clear Hopen o os.
    destruct (heappop_spec _ Hpop) as [Hm ->].
    assert (Hcur : In current (open_set st)) by apply (Hheap _ Hm).
    destruct (SignalFacts.set_remove_In current (open_set st) Hcur)
      as (remaining & Hrem & _).
    rewrite Hrem in Hrun. cbn [path] in Hrun.
    destruct (is_finished current goal (path st)).
    { exfalso. eapply reconstruct_path_returns. exact Hrun. }
    refine (IH _ _ _ Hrun).
    destruct (@SignalExtras.set_remove_NoDup node _ current (open_set st)
                remaining Hndo Hrem) as [Hndr Hiff].
    destruct (@drop_entry_nodes (f, current) (f_scored st) Hndh Hm)
      as [Hndh' Hother].
    destruct Hsingle as [Hone Hnodup].
    apply relax_fold_tidy; cbn [open_set closed_set f_scored].
    + unfold tidy, heap_covers_open. cbn [open_set closed_set f_scored].
      split; [ split | split; [ | split; [ | split ] ] ].
      * exact Hndr.
      * intros n Hn. apply Hiff in Hn. destruct Hn as [Hn Hne].
        destruct (Hcov n Hn) as (fn & Hfn). exists fn.
        apply drop_entry_keeps; [ exact Hfn | ].
        intros [= _ ->]. contradiction.
      * exact Hndh'.
      * intros e' He'. apply Hiff. split.
        -- apply Hheap. eapply drop_entry_subset. exact He'.
        -- apply (Hother _ He').
      * intros n Hn Hin. apply Hiff in Hn. destruct Hn as [Hn Hne].
        apply SignalFacts.set_add_In in Hin.
        destruct Hin as [-> | Hin]; [ congruence | exact (Hdisj n Hn Hin) ].
      * intros n Hn. apply Hiff in Hn. destruct Hn as [Hn _].
        destruct (Hparent n Hn) as (p & Hp & Hnp). exists p.
        split; [ apply SignalFacts.set_add_In; right; exact Hp | exact Hnp ].
    + apply SignalFacts.set_add_In. left. reflexivity.
    + apply Hnodup.
    + auto.
    + intros n Hn Hin. apply Hiff in Hn. destruct Hn as [Hn _].
      destruct (Hparent n Hn) as (p & Hp & Hnp).
      assert (p = current) by exact (Hone _ _ _ Hnp Hin). subst p.
      exact (Hdisj current Hcur Hp).
Qed.

End SingleEntry.

Lemma chain_graph_single_entry : single_entry chain_graph.
Proof.
  split.
  - intros [ | [ | a]] [ | [ | b]] n Ha Hb; cbn in Ha, Hb;
      try reflexivity; try contradiction;
      destruct Ha as [<- | []]; destruct Hb as [Hb | []]; discriminate.
  - intros [ | [ | a]]; cbn; repeat constructor; intros [].
Qed.


End PathExtras.

(** ** Properties of the pawn *)

Module ActorExtras.
Import Actors.

Section PawnFacts.
Variable angle : Type.
Variable vector : Type.
Variable actor : Type.

Local Open Scope Z_scope.

Lemma take_all_health (hits : list (Z * actor * vector * vector)) :
  forall self : Pawn angle,
    0 <= health self ->
    Forall (fun hit => 0 <= damage_of hit) hits ->
    health (take_all hits self)
    = Z.max (health self - total_damage hits) 0.
Proof.
  induction hits as [ | [[[d i] h] m] hits IH]; intros self Hh Hd.
  - cbn. lia.
  - inversion Hd as [ | x l Hd0 Hrest ]; subst. unfold damage_of in Hd0.
    cbn [fst] in Hd0.
    change (take_all (((d, i, h, m)) :: hits) self)
      with (take_all hits (take_damage self d i h m)).
    rewrite IH; [ | cbn; lia | exact Hrest ].
    cbn [take_damage health total_damage fold_right damage_of fst].
    fold (total_damage hits).
    assert (0 <= total_damage hits).
    { clear -Hrest. induction Hrest as [ | x l Hx _ IHl]; cbn; [ lia | ].
      fold (total_damage l). lia. }
    lia.
Qed.

(** X21. Hits wear the health of a pawn down to zero and no further:
    after any hit the health is not negative, and after hits of
    non-negative integer damage on a pawn of non-negative health the
    health is what is left of it after their total, or zero;
    [update_alive_status] then reports the pawn alive exactly if the
    total is less than the health it had. *)
Theorem hits_wear_health_down_to_zero :
  (forall (self : Pawn angle) damage (instigator : actor)
          (hit_position momentum : vector),
      0 <= health (take_damage self damage instigator hit_position momentum)) /\
  (forall (self : Pawn angle) (hits : list (Z * actor * vector * vector)),
      0 <= health self ->
      Forall (fun hit => 0 <= damage_of hit) hits ->
      health (take_all hits self)
      = Z.max (health self - total_damage hits) 0 /\
      alive (update_alive_status (take_all hits self))
      = (total_damage hits <? health self)).
Proof.
  split.
  - intros self damage instigator hit_position momentum. cbn. lia.
  - intros self hits Hh Hd. pose proof (take_all_health self Hh Hd) as Hhealth.
    split; [ exact Hhealth | ].
    cbn [update_alive_status alive]. rewrite Hhealth.
    destruct (Z.ltb_spec (total_damage hits) (health self));
      destruct (Z.ltb_spec 0 (Z.max (health self - total_damage hits) 0));
      try reflexivity; lia.
Qed.

Lemma update_weapon_attachments_catch_up (k : nat) :
  forall (self : Pawn angle) (attachment : WeaponAttachment angle),
    weapon_attachment self = Some attachment ->
    last_flash_count self <= flash_count self ->
    exists self',
      update_weapon_attachments k self = Some self' /\
      flash_count self' = flash_count self /\
      last_flash_count self'
      = Z.min (last_flash_count self + Z.of_nat k) (flash_count self) /\
      effects_played self'
      = (effects_played self
         + Z.to_nat
             (Z.min (Z.of_nat k) (flash_count self - last_flash_count self)))%nat.
Proof.
  induction k as [ | k IH]; intros self attachment Hw Hle.
  - exists self. cbn [update_weapon_attachments].
    split; [ reflexivity | split; [ reflexivity | split; [ lia | ] ] ].
    replace (Z.min (Z.of_nat 0) (flash_count self - last_flash_count self))
      with 0 by lia.
    cbn. lia.
  - assert (He0 : effects_played self = fire_effects attachment).
    { unfold effects_played. rewrite Hw. reflexivity. }
    cbn [update_weapon_attachments]. unfold update_weapon_attachment.
    rewrite Hw.
    destruct (Z.eqb_spec (flash_count self) (last_flash_count self)) as [He | He];
      cbn [negb].
    + set (self1 := mkPawn _ _ _ _ _ _).
      destruct (IH self1 (mkWeaponAttachment (view_pitch self)
                            (fire_effects attachment)))
        as (self' & Hrun & Hf & Hl & Heff); [ reflexivity | cbn; lia | ].
      exists self'. split; [ exact Hrun | ].
      assert (He1 : effects_played self1 = fire_effects attachment)
        by reflexivity.
      rewrite He1 in Heff. rewrite He0. subst self1.
      cbn [flash_count last_flash_count] in Hf, Hl, Heff.
      split; [ exact Hf | split; [ lia | ] ].
      rewrite Heff.
      replace (Z.min (Z.of_nat k) (flash_count self - last_flash_count self))
        with 0 by lia.
      replace (Z.min (Z.of_nat (S k))
                 (flash_count self - last_flash_count self))
        with 0 by lia.
      reflexivity.
    + destruct (Z.ltb_spec (flash_count self) (last_flash_count self));
        [ lia | ].
      set (self1 := mkPawn _ _ _ _ _ _).
      destruct (IH self1 (mkWeaponAttachment (view_pitch self)
                            (S (fire_effects attachment))))
        as (self' & Hrun & Hf & Hl & Heff); [ reflexivity | cbn; lia | ].
      exists self'. split; [ exact Hrun | ].
      assert (He1 : effects_played self1 = S (fire_effects attachment))
        by reflexivity.
      rewrite He1 in Heff. rewrite He0. subst self1.
      cbn [flash_count last_flash_count] in Hf, Hl, Heff.
      split; [ exact Hf | split; [ lia | ] ].
      rewrite Heff. lia.
Qed.

(** X22. The fire effects catch up with the shots one per update: while
    [flash_count] stays where it is, at or ahead of [last_flash_count],
    [k] calls of [update_weapon_attachment] play one effect each until
    [last_flash_count] has reached [flash_count] and none after that.
    When [flash_count] has wrapped around and is behind, one call sets
    [last_flash_count] to [0] and plays one effect. *)
Theorem fire_effects_catch_up_one_per_update (self : Pawn angle)
  (attachment : WeaponAttachment angle)
  (Hattached : weapon_attachment self = Some attachment) :
  (last_flash_count self <= flash_count self ->
   forall k,
     exists self',
       update_weapon_attachments k self = Some self' /\
       flash_count self' = flash_count self /\
       last_flash_count self'
       = Z.min (last_flash_count self + Z.of_nat k) (flash_count self) /\
       effects_played self'
       = (effects_played self
          + Z.to_nat
              (Z.min (Z.of_nat k)
                 (flash_count self - last_flash_count self)))%nat) /\
  (flash_count self < last_flash_count self ->
   exists self',
     update_weapon_attachment self = Some self' /\
     last_flash_count self' = 0 /\
     effects_played self' = S (effects_played self)).
Proof.
  split.
  - intros Hle k.
    apply update_weapon_attachments_catch_up with (attachment := attachment);
      assumption.
  - intros Hlt. unfold update_weapon_attachment, effects_played.
    rewrite Hattached.
    destruct (Z.eqb_spec (flash_count self) (last_flash_count self)); [ lia | ].
    destruct (Z.ltb_spec (flash_count self) (last_flash_count self)); [ | lia ].
    cbn. eexists. split; [ reflexivity | split; reflexivity ].
Qed.
End PawnFacts.

Lemma hits_wear_health_down_to_zero_witness :
  health (take_all [(30, 1%nat, tt, tt); (90, 2%nat, tt, tt)]
            (mkPawn true 0 100 0 0 (@None (WeaponAttachment Z))))%Z
  = Z.max (100 - 120) 0 /\
  alive
    (update_alive_status
       (take_all [(30, 1%nat, tt, tt); (90, 2%nat, tt, tt)]
          (mkPawn true 0 100 0 0 (@None (WeaponAttachment Z)))))%Z
  = (120 <? 100)%Z.
Proof.
  apply (proj2 (hits_wear_health_down_to_zero Z unit nat)
           (mkPawn true 0 100 0 0 None)%Z
           [(30, 1%nat, tt, tt); (90, 2%nat, tt, tt)]%Z).
  - cbn. lia.
  - repeat constructor; cbn; lia.
Defined.

Lemma fire_effects_catch_up_one_per_update_witness :
  exists self',
    update_weapon_attachments 5
      (mkPawn true 3 100 7 0 (Some (mkWeaponAttachment 0 0)))%Z
    = Some self' /\
    flash_count self' = 3%Z /\
    last_flash_count self' = Z.min (0 + Z.of_nat 5) 3 /\
    effects_played self' = (0 + Z.to_nat (Z.min (Z.of_nat 5) (3 - 0)))%nat.
Proof.
  apply (proj1 (@fire_effects_catch_up_one_per_update Z
                  (mkPawn true 3 100 7 0 (Some (mkWeaponAttachment 0 0)))%Z
                  (mkWeaponAttachment 0 0)%Z eq_refl)).
  cbn. lia.
Defined.

End ActorExtras.
